(** * The text layout engine of [src/streamer.js], and its user

    A shallow embedding of the class [TextLayoutEngine]: the wrapper
    [#wrapText], the fitter [#fitText] and the layout finisher [calcLayout],
    with the properties the specification states about them; and of the
    parts of the class [MessageStreamer] around it: [#calcTextLayout] with
    its cache, the settings [mode] and [enabled], [#updateCanvas], and the
    frame loop [runLoop] under [start], [stop] and [#createCanvasStream].

    Modelling choices, all read off the source:
    - a JavaScript string is the list of its UTF-16 code units, because
      [text.length] and [text[pos]] work on code units;
    - a number that the code keeps whole is an integer ([Z]): the line cap
      (the one call site passes the literal [3]), every font size and the
      lower end of the search window, which are results of [Math.floor];
    - any other number is a rational ([Q]) with exact arithmetic: a measured
      width, the sides of the box, the upper end of the search window
      (which starts as the height) and the coordinates of a line.  The one
      call site passes [Math.floor (...)] for both sides of the box, and the
      properties of the search are about such integer heights;
    - the source computes in binary64, the definitions on exact numbers.
      The search of [#fitText] adds, halves and subtracts the ends of its
      window.  On a window between integers of absolute value below
      [2 ^ 52] all these numbers are integers or half-integers of absolute
      value below [2 ^ 53]; binary64 has every one of them, rounds nothing,
      and the source takes the turns of [fitLoop] and returns its result
      ([fitLoop64_exact], against the loop with its roundings written out).
      The same holds for a height [n / 2 ^ k] with [0 <= n < 2 ^ 52].
      Beyond these bounds the two part: at the height [2 ^ 53 + 2] the sum
      [2 ^ 53 + (2 ^ 53 + 2)] is rounded to [2 ^ 54], the midpoint is the
      lower end of the window, and the loop of the source never ends.  What
      is proved below about the course of the search, its end and the size
      it returns is therefore stated for heights within these bounds;
    - a division by zero is spelled out ([jsnum]): JavaScript yields
      [Infinity], [-Infinity] or [NaN] there;
    - the measurer [#measure] is a parameter: the canvas is outside the
      engine.  [measure fontSize text] stands for
      [this.#measure (fontSize, text).width];
    - the [while] loop of [#fitText] takes fuel, one unit per iteration. *)

From Stdlib Require Import ZArith QArith Qround Qminmax Lia Lqa Bool Ascii String DecimalString DecimalZ.
From stdpp Require Import base list gmap.

Local Open Scope Z_scope.

(** ** JavaScript values *)

Definition codeunit := N.
Definition jsstring := list codeunit.

(** A string literal of the source, as code units (ASCII only). *)
Definition lit (s : string) : jsstring :=
  List.map N_of_ascii (list_ascii_of_string s).

(** ["…"], U+2026, is a single code unit. *)
Definition ellipsis : jsstring := [8230%N].

(** [`${n}`] for an integer [n]. *)
Definition decimal (n : Z) : jsstring :=
  lit (NilZero.string_of_int (Z.to_int n)).

(** A string is truthy when it is not empty. *)
Definition truthy (s : jsstring) : bool :=
  match s with [] => false | _ :: _ => true end.

(** [a > b] on numbers. *)
Definition Qgtb (a b : Q) : bool := negb (Qle_bool a b).

(** The number [Math.floor (a / b)] for a number [a] and an integer [b]. *)
Inductive jsnum : Type :=
| Int (z : Z)
| Infinity
| NegInfinity
| NaN.

Definition floor_div (a : Q) (b : Z) : jsnum :=
  if b =? 0 then
    if Qgtb a 0 then Infinity else if Qgtb 0 a then NegInfinity else NaN
  else Int (Qfloor (a / inject_Z b)).

Inductive JsError : Type :=
| TypeError    (* destructuring [undefined], or a property of [undefined] *)
| RangeError.  (* "Invalid array length" *)

(** How a call ends: with a value, with an exception, or still running when
    the fuel is spent. *)
Inductive outcome (A : Type) : Type :=
| Returns (a : A)
| Throws (e : JsError)
| OutOfFuel.
Arguments Returns {A} a.
Arguments Throws {A} e.
Arguments OutOfFuel {A}.

Definition bind {A B} (m : outcome A) (k : A -> outcome B) : outcome B :=
  match m with
  | Returns a => k a
  | Throws e => Throws e
  | OutOfFuel => OutOfFuel
  end.

Notation "'let*' x ':=' m 'in' k" := (bind m (fun x => k))
  (at level 10, x pattern, m at level 100, k at level 200).

(** ** Data model *)

(** [{ text, width }] as the wrapper makes it; [calcLayout] adds [x] and [y]
    to the same object, so both are absent ([None]) before. *)
Record Line : Type := mkLine {
  line_text : jsstring;
  line_width : Q;
  line_x : option Q;
  line_y : option Q
}.

(** What [#fitText] returns: [{ fontSize, lines }]. *)
Record FitResult : Type := mkFit {
  fit_fontSize : Z;
  fit_lines : list Line
}.

(** What [calcLayout] returns: [{ font, lines }]. *)
Record LayoutResult : Type := mkLayout {
  font : jsstring;
  lines : list Line
}.

(** [baselineRatio = 0.88] *)
Definition baselineRatio : Q := 88 # 100.

(** [#getFontFor] *)
Definition getFontFor (fontSize : Z) : jsstring :=
  decimal fontSize ++ lit "px sans-serif".

Section Engine.

(** [measure fontSize text] is [this.#measure (fontSize, text).width]. *)
Variable measure : Z -> jsstring -> Q.

(** ** The wrapper *)

(** One turn of the [for] loop of [#wrapText]: [acc] is the array [lines],
    [line] the object [line]. *)
Definition wrapStep (fontSize : Z) (width : Q)
    (st : list Line * Line) (char : codeunit) : list Line * Line :=
  let '(acc, line) := st in
  let metrics := measure fontSize (line_text line ++ [char]) in
  if Qgtb metrics width then
    (acc ++ [line], mkLine [char] (metrics - line_width line) None None)
  else
    (acc, mkLine (line_text line ++ [char]) metrics None None).

Definition wrapLoop (fontSize : Z) (width : Q) (text : jsstring)
    (st : list Line * Line) : list Line * Line :=
  fold_left (wrapStep fontSize width) text st.

Definition wrapFlush (st : list Line * Line) : list Line :=
  let '(acc, line) := st in
  if truthy (line_text line) then acc ++ [line] else acc.

Definition emptyLine : Line := mkLine [] 0 None None.

Definition wrapText (text : jsstring) (fontSize : Z) (width : Q) : list Line :=
  wrapFlush (wrapLoop fontSize width text ([], emptyLine)).

(** ** The fitter *)

(** [hasOverflow] for the lines wrapped at [fontSize]. *)
Definition hasOverflow (height : Q) (maxWrap fontSize : Z) (ls : list Line) : bool :=
  let numOfLines := Z.of_nat (length ls) in
  (maxWrap <? numOfLines) || Qgtb (inject_Z (fontSize * numOfLines)) height.

(** The [while] loop of [#fitText] from the state
    [(minFontSize, maxFontSize)].  [Returns None] is the [undefined] of a
    function that falls off its end.  The sum, its half and the difference
    are exact here and binary64 in the source; they are the same numbers
    while the ends of the window are integers of absolute value below
    [2 ^ 52] (or the upper end is [n / 2 ^ k] with [0 <= n < 2 ^ 52] and
    the lower end is not negative). *)
Fixpoint fitLoop (fuel : nat) (text : jsstring) (width height : Q) (maxWrap : Z)
    (minFontSize : Z) (maxFontSize : Q) : outcome (option FitResult) :=
  if Qle_bool (inject_Z minFontSize) maxFontSize then
    match fuel with
    | O => OutOfFuel
    | S fuel' =>
        let fontSize := Qfloor ((inject_Z minFontSize + maxFontSize) / 2) in
        let ls := wrapText text fontSize width in
        let overflow := hasOverflow height maxWrap fontSize ls in
        if Qle_bool (maxFontSize - inject_Z minFontSize) 1 then
          Returns (Some (mkFit fontSize ls))
        else if overflow then
          fitLoop fuel' text width height maxWrap minFontSize (inject_Z (fontSize - 1))
        else
          fitLoop fuel' text width height maxWrap fontSize maxFontSize
    end
  else Returns None.

(** [#fitText].  With [maxWrap = 0] the lower bound is not a finite number:
    - [Infinity] and [NaN] make [minFontSize <= maxFontSize] false at once,
      and the function returns [undefined];
    - [-Infinity] (a negative [height]) keeps the loop running for ever:
      [minFontSize] stays [-Infinity], so [minFontSize <= maxFontSize] holds
      and [maxFontSize - minFontSize] is [Infinity] or [NaN], never [<= 1],
      whatever the wrapper returns. *)
Definition fitText (fuel : nat) (text : jsstring) (width height : Q) (maxWrap : Z)
    : outcome (option FitResult) :=
  match floor_div height maxWrap with
  | Int minFontSize => fitLoop fuel text width height maxWrap minFontSize height
  | Infinity | NaN => Returns None
  | NegInfinity => OutOfFuel
  end.

(** ** The layout finisher *)

Definition addEllipsis (line : Line) : Line :=
  mkLine (line_text line ++ ellipsis) (line_width line) (line_x line) (line_y line).

(** [lines.length = maxWrap], which runs only when [maxWrap] is below the
    length: a negative length is a [RangeError], any other cuts the array. *)
Definition setLength (ls : list Line) (maxWrap : Z) : outcome (list Line) :=
  if maxWrap <? 0 then Throws RangeError
  else Returns (take (Z.to_nat maxWrap) ls).

(** [lines.at(-1).text += "…"]: [at(-1)] of an empty array is [undefined]. *)
Definition ellipsizeLast (ls : list Line) : outcome (list Line) :=
  match ls with
  | [] => Throws TypeError
  | _ :: _ => Returns (alter addEllipsis (pred (length ls)) ls)
  end.

(** "Discard overflowed lines; add ellipsis to the last line if needed". *)
Definition discardOverflowed (ls : list Line) (maxWrap : Z) : outcome (list Line) :=
  let hasOverflow := maxWrap <? Z.of_nat (length ls) in
  if hasOverflow then
    let* kept := setLength ls maxWrap in
    ellipsizeLast kept
  else Returns ls.

(** The body of the coordinate loop for the line at index [i]. *)
Definition place (width : Q) (fontSize : Z) (offsetY : Q) (i : nat) (line : Line) : Line :=
  mkLine (line_text line) (line_width line)
    (Some ((width - line_width line) / 2)%Q)
    (Some (offsetY + inject_Z fontSize * (inject_Z (Z.of_nat i) + baselineRatio))%Q).

Definition offsetYOf (height : Q) (fontSize : Z) (ls : list Line) : Q :=
  ((height - inject_Z fontSize * inject_Z (Z.of_nat (length ls))) / 2)%Q.

Definition calcLayout (fuel : nat) (text : jsstring) (width height : Q) (maxWrap : Z)
    : outcome LayoutResult :=
  let* fitted := fitText fuel text width height maxWrap in
  match fitted with
  | None => Throws TypeError
  | Some (mkFit fontSize ls) =>
      let* ls := discardOverflowed ls maxWrap in
      let offsetY := offsetYOf height fontSize ls in
      Returns (mkLayout (getFontFor fontSize) (imap (place width fontSize offsetY) ls))
  end.

(** ** Counting the measurements

    The same code with a counter of the calls to [#measure]: the wrapper
    measures once per turn of its loop, the fitter wraps once per turn of
    its own, and [calcLayout] measures nothing itself. *)

Definition wrapStepC (fontSize : Z) (width : Q)
    (st : list Line * Line * nat) (char : codeunit) : list Line * Line * nat :=
  let '(lst, calls) := st in
  (wrapStep fontSize width lst char, S calls).

Definition wrapTextC (text : jsstring) (fontSize : Z) (width : Q) (calls : nat)
    : list Line * nat :=
  let '(lst, calls') :=
    fold_left (wrapStepC fontSize width) text ([], emptyLine, calls) in
  (wrapFlush lst, calls').

Fixpoint fitLoopC (fuel : nat) (text : jsstring) (width height : Q) (maxWrap : Z)
    (minFontSize : Z) (maxFontSize : Q) (calls : nat)
    : outcome (option FitResult) * nat :=
  if Qle_bool (inject_Z minFontSize) maxFontSize then
    match fuel with
    | O => (OutOfFuel, calls)
    | S fuel' =>
        let fontSize := Qfloor ((inject_Z minFontSize + maxFontSize) / 2) in
        let '(ls, calls') := wrapTextC text fontSize width calls in
        let overflow := hasOverflow height maxWrap fontSize ls in
        if Qle_bool (maxFontSize - inject_Z minFontSize) 1 then
          (Returns (Some (mkFit fontSize ls)), calls')
        else if overflow then
          fitLoopC fuel' text width height maxWrap minFontSize
            (inject_Z (fontSize - 1)) calls'
        else
          fitLoopC fuel' text width height maxWrap fontSize maxFontSize calls'
    end
  else (Returns None, calls).

Definition fitTextC (fuel : nat) (text : jsstring) (width height : Q) (maxWrap : Z)
    : outcome (option FitResult) * nat :=
  match floor_div height maxWrap with
  | Int minFontSize => fitLoopC fuel text width height maxWrap minFontSize height 0
  | Infinity | NaN => (Returns None, O)
  | NegInfinity => (OutOfFuel, O)
  end.

(** The number of measurements of a call of [calcLayout]: those of its one
    call of [#fitText]. *)
Definition calcLayoutCalls (fuel : nat) (text : jsstring) (width height : Q)
    (maxWrap : Z) : nat :=
  snd (fitTextC fuel text width height maxWrap).

End Engine.

(** ** Two measurers to run the engine on *)

(** Every character is ten pixels wide at every font size. *)
Definition tenPx (fontSize : Z) (s : jsstring) : Q :=
  inject_Z (10 * Z.of_nat (length s)).

(** Every character is as wide as the font size (one em). *)
Definition oneEm (fontSize : Z) (s : jsstring) : Q :=
  inject_Z (fontSize * Z.of_nat (length s)).

(** ** Notions the properties are stated with *)

(** A bound on the turns of the loop of [#fitText] from the window
    [[lo, hi]]: one more than the rounded-up binary logarithm of its width. *)
Definition turnsBound (lo hi : Z) : nat := S (Z.to_nat (Z.log2_up (hi - lo))).

(** [hasOverflow] of the wrap at [fontSize]: the wrap breaks the line cap
    or the height of the box. *)
Definition overflowAt (measure : Z -> jsstring -> Q) (text : jsstring)
    (width height : Q) (maxWrap fontSize : Z) : bool :=
  hasOverflow height maxWrap fontSize (wrapText measure text fontSize width).

(** Overflow is monotone in the font size on the sizes of [[lo, hi]]. *)
Definition overflowMonotone (measure : Z -> jsstring -> Q) (text : jsstring)
    (width height : Q) (maxWrap lo hi : Z) : Prop :=
  forall f f' : Z, lo <= f -> f <= f' -> f' <= hi ->
    overflowAt measure text width height maxWrap f = true ->
    overflowAt measure text width height maxWrap f' = true.

(** The same, checked size by size. *)
Definition overflowMonotoneb (measure : Z -> jsstring -> Q) (text : jsstring)
    (width height : Q) (maxWrap lo hi : Z) : bool :=
  forallb (fun f => implb (overflowAt measure text width height maxWrap f)
                          (overflowAt measure text width height maxWrap (f + 1)))
          (seqZ lo (hi - lo)).

(** A larger font size never gives fewer lines, on the sizes of
    [[0, height]]. *)
Definition linesMonotone (measure : Z -> jsstring -> Q) (text : jsstring)
    (width : Q) (height : Z) : Prop :=
  forall f f' : Z, 0 <= f -> f <= f' -> f' <= height ->
    (length (wrapText measure text f width)
     <= length (wrapText measure text f' width))%nat.

(** The same, checked size by size. *)
Definition linesMonotoneb (measure : Z -> jsstring -> Q) (text : jsstring)
    (width : Q) (height : Z) : bool :=
  forallb (fun f => (length (wrapText measure text f width)
                     <=? length (wrapText measure text (f + 1) width))%nat)
          (seqZ 0 height).

(** A bound on the turns of the loop for a box of height [height]. *)
Definition searchTurns (height : Z) : nat := S (Z.to_nat (Z.log2_up height)).


(** Line [a] is drawn no lower than line [b]: on the canvas [y] grows
    downwards. *)
Definition notBelow (a b : Line) : Prop :=
  match line_y a, line_y b with
  | Some ya, Some yb => (ya <= yb)%Q
  | _, _ => False
  end.

(** The last code unit of a string is the ellipsis. *)
Definition endsWithEllipsis (s : jsstring) : bool :=
  match last s with
  | Some c => (c =? 8230)%N
  | None => false
  end.

(** The splits the wrapper is compared with, in the words of the
    specification: a line is allowed when its measured width is at most
    [maxWidth], or when it is a single character (which may be wider); a
    split cuts the text into allowed lines, in order. *)
Definition lineAllowed (measure : Z -> jsstring -> Q) (fontSize : Z) (maxWidth : Q)
    (s : jsstring) : Prop :=
  (measure fontSize s <= maxWidth)%Q \/ length s = 1%nat.

Definition validSplit (measure : Z -> jsstring -> Q) (fontSize : Z) (maxWidth : Q)
    (text : jsstring) (parts : list jsstring) : Prop :=
  concat parts = text /\ Forall (lineAllowed measure fontSize maxWidth) parts.

(** Fitting is closed under taking substrings: cutting characters off
    either end of a string that fits leaves a string that fits. *)
Definition substringClosed (measure : Z -> jsstring -> Q) (fontSize : Z)
    (maxWidth : Q) : Prop :=
  forall a b : jsstring, a <> [] -> b <> [] ->
    (measure fontSize (a ++ b) <= maxWidth)%Q ->
    (measure fontSize a <= maxWidth)%Q /\ (measure fontSize b <= maxWidth)%Q.

(** A part of a split that is not empty and is allowed. *)
Definition goodPart (measure : Z -> jsstring -> Q) (fontSize : Z) (maxWidth : Q)
    (s : jsstring) : Prop :=
  s <> [] /\ lineAllowed measure fontSize maxWidth s.

(** The lines with a text. *)
Definition nonemptyLines (ls : list Line) : list Line :=
  List.filter (fun l => truthy (line_text l)) ls.

(** The texts of a sequence of lines, joined. *)
Definition joined (ls : list Line) : jsstring :=
  concat (List.map line_text ls).

(** * The caller of the engine: [MessageStreamer.#calcTextLayout]

    The one call site of [calcLayout].  [width] and [height] are the
    [videoWidth] and [videoHeight] of a video element, which are unsigned
    integers; the other numbers are rationals as before. *)

(** The characters that [\s] matches in a regular expression and that
    [trim] removes: the white space and the line terminators of ECMAScript
    (tab to carriage return, space, no-break space, U+1680, U+2000 to
    U+200A, U+2028, U+2029, U+202F, U+205F, U+3000 and U+FEFF), each a single
    code unit. *)
Definition isSpace (c : codeunit) : bool :=
  ((9 <=? c) && (c <=? 13) || (c =? 32) || (c =? 160) || (c =? 5760)
   || (8192 <=? c) && (c <=? 8202) || (c =? 8232) || (c =? 8233)
   || (c =? 8239) || (c =? 8287) || (c =? 12288) || (c =? 65279))%N.

(** [" "] *)
Definition space : codeunit := 32%N.

(** [text.replace(/\s+/g, " ")]: every maximal run of white space becomes one
    space.  [inRun] tells that the character before this text was white
    space, so that the space for the run is already written. *)
Fixpoint replaceSpaces (inRun : bool) (text : jsstring) : jsstring :=
  match text with
  | [] => []
  | c :: rest =>
      if isSpace c then
        if inRun then replaceSpaces true rest
        else space :: replaceSpaces true rest
      else c :: replaceSpaces false rest
  end.

(** [trim ()]: the white space at both ends is removed. *)
Fixpoint trimStart (text : jsstring) : jsstring :=
  match text with
  | [] => []
  | c :: rest => if isSpace c then trimStart rest else text
  end.

Definition trimEnd (text : jsstring) : jsstring :=
  reverse (trimStart (reverse text)).

Definition trim (text : jsstring) : jsstring := trimEnd (trimStart text).

(** [compactText]: [text.replace(/\s+/g, " ").trim()] *)
Definition compactText (text : jsstring) : jsstring :=
  trim (replaceSpaces false text).

(** "Add paddings": the sides of the box the text is laid out in.  The
    products are exact here.  (For integers the floating-point products of
    the source have the same floor: [0.8] and [0.9] as doubles are off by
    less than one part in [2 ^ 54], so a product that should be an integer
    rounds to it, and any other is a fifth or more away from the next
    integer.) *)
Definition maxWidthOf (width height : Z) : Z :=
  Qfloor (Qmin (inject_Z width * (8 # 10)) (inject_Z height * (9 # 10) * 4 / 3)).

Definition maxHeightOf (height : Z) : Z :=
  Qfloor (inject_Z height * (8 # 10)).

(** "Adjust the position to the original frame": [line.x += offsetX] and
    [line.y += offsetY].  [calcLayout] has set both coordinates of every
    line it returns; on a line without them the sum would be [NaN], which
    has no value here either. *)
Definition addOffset (offsetX offsetY : Q) (line : Line) : Line :=
  mkLine (line_text line) (line_width line)
    (option_map (fun x => x + offsetX)%Q (line_x line))
    (option_map (fun y => y + offsetY)%Q (line_y line)).

(** The fields of [#calcTextLayoutCache] once they are set; the cache
    starts as [{}] ([None]), whose fields equal no number and no string. *)
Record LayoutCache : Type := mkCache {
  cache_width : Z;
  cache_height : Z;
  cache_text : jsstring;
  cache_result : LayoutResult
}.

(** The line cap that [#calcTextLayout] passes. *)
Definition messageLines : Z := 3.

Section Caller.

Variable measure : Z -> jsstring -> Q.

(** [#calcTextLayout (width, height, text)] from the cache [cache]: what
    the call returns, and the cache after it.  The cache is written after
    [calcLayout] has returned, so a call that throws leaves it as it was. *)
Definition calcTextLayout (fuel : nat) (cache : option LayoutCache)
    (width height : Z) (text : jsstring)
    : outcome LayoutResult * option LayoutCache :=
  let computed :=
    let maxWidth := maxWidthOf width height in
    let maxHeight := maxHeightOf height in
    let compact := compactText text in
    match calcLayout measure fuel compact
            (inject_Z maxWidth) (inject_Z maxHeight) messageLines with
    | Returns result =>
        let offsetX := ((inject_Z width - inject_Z maxWidth) / 2)%Q in
        let offsetY := ((inject_Z height - inject_Z maxHeight) / 2)%Q in
        let result :=
          mkLayout (font result)
                   (addOffset offsetX offsetY <$> lines result) in
        (Returns result, Some (mkCache width height text result))
    | Throws e => (Throws e, cache)
    | OutOfFuel => (OutOfFuel, cache)
    end in
  match cache with
  | Some c =>
      if (cache_width c =? width) && (cache_height c =? height)
         && bool_decide (cache_text c = text)
      then (Returns (cache_result c), cache)
      else computed
  | None => computed
  end.

(** A cache holds what a call with its own arguments computes. *)
Definition cacheCoherent (fuel : nat) (cache : option LayoutCache) : Prop :=
  match cache with
  | None => True
  | Some c =>
      fst (calcTextLayout fuel None (cache_width c) (cache_height c) (cache_text c))
      = Returns (cache_result c)
  end.

End Caller.

(** The characters of a text that are not white space, in order. *)
Definition inkOf (text : jsstring) : jsstring :=
  List.filter (fun c => negb (isSpace c)) text.

(** * The settings of [MessageStreamer]: [mode] and [enabled] *)

(** [MessageMode]: [Object.values (MessageMode)] is [messageModes]. *)
Definition overlayMode : jsstring := lit "overlay".
Definition textOnlyMode : jsstring := lit "text".
Definition messageModes : list jsstring := [overlayMode; textOnlyMode].

(** [configKeys] *)
Definition enabledKey : jsstring := lit "com.creasty.message-streamer/enabled".
Definition messageModeKey : jsstring :=
  lit "com.creasty.message-streamer/message-mode".

(** The private field [#modeCache] ([null] at first) and
    [window.localStorage], a map from strings to strings. *)
Record Settings : Type := mkSettings {
  modeCache : option jsstring;
  localStorage : gmap jsstring jsstring
}.

(** [get mode ()]: the value and the settings after the call.  A cache
    that is [null] or the empty string is not truthy; [getItem] gives
    [null] for a key that is not stored, and [includes (null)] is false. *)
Definition getMode (s : Settings) : jsstring * Settings :=
  let read :=
    let value :=
      match localStorage s !! messageModeKey with
      | Some value => if bool_decide (value ∈ messageModes) then value else overlayMode
      | None => overlayMode
      end in
    (value, mkSettings (Some value) (localStorage s)) in
  match modeCache s with
  | Some cached => if truthy cached then (cached, s) else read
  | None => read
  end.

(** [set mode (value)] for a string: [None] is the [Error] that
    "Invalid message mode" throws, which leaves the settings as they
    were. *)
Definition setMode (value : jsstring) (s : Settings) : option Settings :=
  if bool_decide (value ∈ messageModes)
  then Some (mkSettings (Some value) (<[messageModeKey := value]> (localStorage s)))
  else None.

(** [get enabled ()] *)
Definition getEnabled (s : Settings) : bool :=
  negb (bool_decide (localStorage s !! enabledKey = Some (lit "false"))).

(** [set enabled (value)] for a boolean (the one call site passes
    [checked]): [String (Boolean (value))] is ["true"] or ["false"]. *)
Definition setEnabled (value : bool) (s : Settings) : Settings :=
  mkSettings (modeCache s)
    (<[enabledKey := if value then lit "true" else lit "false"]> (localStorage s)).

(** What can happen to the settings: the calls of the four accessors, and
    other code of the page (or the user) writing to [localStorage]. *)
Inductive SettingsEvent : Type :=
| ReadMode
| WriteMode (value : jsstring)
| ReadEnabled
| WriteEnabled (value : bool)
| StorageSetItem (key value : jsstring)
| StorageRemoveItem (key : jsstring).

Definition settingsStep (s : Settings) (e : SettingsEvent) : Settings :=
  match e with
  | ReadMode => snd (getMode s)
  | WriteMode value => match setMode value s with Some s' => s' | None => s end
  | ReadEnabled => s
  | WriteEnabled value => setEnabled value s
  | StorageSetItem key value =>
      mkSettings (modeCache s) (<[key := value]> (localStorage s))
  | StorageRemoveItem key =>
      mkSettings (modeCache s) (delete key (localStorage s))
  end.

(** The settings of a page that has just loaded, over the stored items,
    after a sequence of events. *)
Definition settingsAfter (stored : gmap jsstring jsstring)
    (events : list SettingsEvent) : Settings :=
  fold_left settingsStep events (mkSettings None stored).

(** * Drawing a frame: [MessageStreamer.#updateCanvas] *)

(** The calls on the canvas and its context, in order.  [drawImage] is
    always [ctx.drawImage (video, 0, 0)]; the coordinates of [fillText] are
    those of a line, which are absent before [calcLayout] has set them. *)
Inductive CanvasOp : Type :=
| SetWidth (width : Z)
| SetHeight (height : Z)
| DrawImage
| SetFillStyle (style : jsstring)
| FillRect (x y width height : Z)
| SetFont (font : jsstring)
| FillText (text : jsstring) (x y : option Q).

(** The fields of the streamer that [#updateCanvas] reads and writes:
    [text], the settings behind [mode], [#updateCanvasCache] (which starts
    as [{}], [None]) and [#calcTextLayoutCache]. *)
Record Drawing : Type := mkDrawing {
  ms_text : jsstring;
  ms_settings : Settings;
  ms_updateCanvasCache : option (Z * Z);
  ms_calcTextLayoutCache : option LayoutCache
}.

Section Canvas.

Variable measure : Z -> jsstring -> Q.

(** "Resize canvas" *)
Definition resizeCanvas (videoWidth videoHeight : Z) (cache : option (Z * Z))
    : list CanvasOp * option (Z * Z) :=
  let resize :=
    ([SetWidth videoWidth; SetHeight videoHeight], Some (videoWidth, videoHeight)) in
  match cache with
  | Some (cachedWidth, cachedHeight) =>
      if negb (cachedWidth =? videoWidth) || negb (cachedHeight =? videoHeight)
      then resize else ([], cache)
  | None => resize
  end.

(** "Background" *)
Definition drawBackground (mode : jsstring) (videoWidth videoHeight : Z)
    : list CanvasOp :=
  if bool_decide (mode = overlayMode) then
    [DrawImage; SetFillStyle (lit "rgba(0,0,0,0.5)");
     FillRect 0 0 videoWidth videoHeight]
  else
    [SetFillStyle (lit "#fff"); FillRect 0 0 videoWidth videoHeight].

(** "Message" *)
Definition drawMessage (mode : jsstring) (textLayout : LayoutResult)
    : list CanvasOp :=
  [SetFont (font textLayout);
   SetFillStyle (if bool_decide (mode = overlayMode) then lit "#fff" else lit "#999")]
  ++ ((fun line => FillText (line_text line) (line_x line) (line_y line))
      <$> lines textLayout).

(** [#updateCanvas (dom, ctx, video)] for a video of the size
    [videoWidth] by [videoHeight]: how the call ends, the calls it has made
    on the canvas until then, and the fields after it. *)
Definition updateCanvas (fuel : nat) (videoWidth videoHeight : Z) (d : Drawing)
    : outcome unit * list CanvasOp * Drawing :=
  let '(resized, sizeCache) :=
    resizeCanvas videoWidth videoHeight (ms_updateCanvasCache d) in
  if negb (truthy (ms_text d)) then
    (Returns tt, resized ++ [DrawImage],
     mkDrawing (ms_text d) (ms_settings d) sizeCache (ms_calcTextLayoutCache d))
  else
    let '(mode, settings) := getMode (ms_settings d) in
    let background := drawBackground mode videoWidth videoHeight in
    let '(textLayout, layoutCache) :=
      calcTextLayout measure fuel (ms_calcTextLayoutCache d)
        videoWidth videoHeight (ms_text d) in
    match textLayout with
    | Returns textLayout =>
        let '(mode, settings) := getMode settings in
        (Returns tt, resized ++ background ++ drawMessage mode textLayout,
         mkDrawing (ms_text d) settings sizeCache layoutCache)
    | Throws e =>
        (Throws e, resized ++ background,
         mkDrawing (ms_text d) settings sizeCache layoutCache)
    | OutOfFuel =>
        (OutOfFuel, resized ++ background,
         mkDrawing (ms_text d) settings sizeCache layoutCache)
    end.

End Canvas.



(** * The frame loop and the life of the streamer *)

(** ** The timers of the window

    The part of the browser that [runLoop] uses.  [setTimeout] and
    [requestAnimationFrame] hand out a handle and keep a task until it runs
    or is cancelled; [clearTimeout] and [cancelAnimationFrame] drop the task
    of a handle, and do nothing for a handle that has no task (as [-1]).
    Every task here is one of a call of [runLoop], which the task names by
    its number, in the order of the calls.  Time is left out: a pending task
    may run at any moment, which the delay [1000 / fps] only restricts. *)
Record Window : Type := mkWindow {
  nextTimeout : Z;
  timeouts : list (Z * nat);
  nextFrame : Z;
  frames : list (Z * nat)
}.

Definition setTimeout (k : nat) (w : Window) : Z * Window :=
  (nextTimeout w,
   mkWindow (nextTimeout w + 1) (timeouts w ++ [(nextTimeout w, k)])
            (nextFrame w) (frames w)).

Definition clearTimeout (handle : Z) (w : Window) : Window :=
  mkWindow (nextTimeout w) (filter (fun task => task.1 <> handle) (timeouts w))
           (nextFrame w) (frames w).

Definition requestAnimationFrame (k : nat) (w : Window) : Z * Window :=
  (nextFrame w,
   mkWindow (nextTimeout w) (timeouts w)
            (nextFrame w + 1) (frames w ++ [(nextFrame w, k)])).

Definition cancelAnimationFrame (handle : Z) (w : Window) : Window :=
  mkWindow (nextTimeout w) (timeouts w)
           (nextFrame w) (filter (fun task => task.1 <> handle) (frames w)).

(** The task of a handle, if it is pending. *)
Definition taskOf (handle : Z) (tasks : list (Z * nat)) : option nat :=
  snd <$> List.find (fun task => task.1 =? handle) tasks.

(** ** [runLoop] *)

(** The variables [timerId] and [rafId] of one call of [runLoop], and the
    number of times its [callback] has been called so far (a counter for
    the properties, which the source does not keep). *)
Record Loop : Type := mkLoop {
  timerId : Z;
  rafId : Z;
  callbacks : nat
}.

(** The window and the loops that have been started. *)
Record Page : Type := mkPage {
  window : Window;
  loops : list Loop
}.

(** [loop ()] of the loop [k]: [timerId = window.setTimeout (...)]. *)
Definition loop (k : nat) (p : Page) : Page :=
  let '(handle, w) := setTimeout k (window p) in
  mkPage w (alter (fun l => mkLoop handle (rafId l) (callbacks l)) k (loops p)).

(** [runLoop (callback, fps)]: the variables start at [-1], [loop ()] is
    called once, and the function that is returned is the one of the new
    loop, [stopLoop k]. *)
Definition runLoop (p : Page) : nat * Page :=
  let k := length (loops p) in
  (k, loop k (mkPage (window p) (loops p ++ [mkLoop (-1) (-1) 0]))).

(** The function that [runLoop] returns. *)
Definition stopLoop (k : nat) (p : Page) : Page :=
  match loops p !! k with
  | Some l =>
      mkPage (cancelAnimationFrame (rafId l) (clearTimeout (timerId l) (window p)))
             (loops p)
  | None => p
  end.

(** The timeout of the handle [handle] runs and leaves the table:
    [callback ()], and then, unless the callback threw,
    [rafId = window.requestAnimationFrame (loop)].  The callback is the one
    that [#createCanvasStream] passes, which touches no timer. *)
Definition timeoutFires (handle : Z) (throws : bool) (p : Page) : Page :=
  match taskOf handle (timeouts (window p)) with
  | Some k =>
      let w := clearTimeout handle (window p) in
      let called :=
        alter (fun l => mkLoop (timerId l) (rafId l) (S (callbacks l))) k (loops p) in
      if throws then mkPage w called
      else
        let '(frame, w) := requestAnimationFrame k w in
        mkPage w (alter (fun l => mkLoop (timerId l) frame (callbacks l)) k called)
  | None => p
  end.

(** The animation frame of the handle [handle] runs and leaves the table:
    [loop ()]. *)
Definition frameFires (handle : Z) (p : Page) : Page :=
  match taskOf handle (frames (window p)) with
  | Some k =>
      loop k (mkPage (cancelAnimationFrame handle (window p)) (loops p))
  | None => p
  end.

(** ** [start], [stop] and [#createCanvasStream] *)

(** What [navigator.mediaDevices.getUserMedia] is. *)
Inductive UserMedia : Type :=
| OriginalUserMedia   (* [getUserMedia], bound when the script started *)
| ModifiedUserMedia.  (* [this.getModifiedUserMedia.bind (this)] *)

(** The fields [#isStarted] and [#disposers] of the streamer (a disposer
    is a function returned by [runLoop], named by its loop), and what its
    methods change outside it: [navigator.mediaDevices.getUserMedia],
    [window.__hijackUserMedia] (set or not) and the timers. *)
Record Streamer : Type := mkStreamer {
  isStarted : bool;
  disposers : list nat;
  userMedia : UserMedia;
  hijackUserMedia : bool;
  page : Page
}.

(** [new MessageStreamer ()] in a window without tasks. *)
Definition newStreamer : Streamer :=
  mkStreamer false [] OriginalUserMedia false (mkPage (mkWindow 1 [] 1 []) []).

Definition start (s : Streamer) : Streamer :=
  if isStarted s then s
  else mkStreamer true (disposers s) ModifiedUserMedia true (page s).

Definition stop (s : Streamer) : Streamer :=
  if negb (isStarted s) then s
  else
    mkStreamer false [] OriginalUserMedia (hijackUserMedia s)
      (fold_left (fun p d => stopLoop d p) (disposers s) (page s)).

(** [#createCanvasStream (video)]: [None] is one of its two [Error]s, for
    a canvas without a context or without a stream; otherwise the loop is
    started and its stop function is pushed. *)
Definition createCanvasStream (canvasCtx canvasStream : bool) (s : Streamer)
    : option Streamer :=
  if negb canvasCtx then None
  else if negb canvasStream then None
  else
    let '(k, p) := runLoop (page s) in
    Some (mkStreamer (isStarted s) (disposers s ++ [k]) (userMedia s)
            (hijackUserMedia s) p).

(** What happens to a streamer: calls of its methods (a stream can be
    created at any moment, since [getModifiedUserMedia] is public and
    awaits the device first), and tasks of the window running. *)
Inductive StreamerEvent : Type :=
| Start
| Stop
| CreateCanvasStream (canvasCtx canvasStream : bool)
| TimeoutFires (handle : Z) (throws : bool)
| FrameFires (handle : Z).

Definition streamerStep (s : Streamer) (e : StreamerEvent) : Streamer :=
  match e with
  | Start => start s
  | Stop => stop s
  | CreateCanvasStream canvasCtx canvasStream =>
      match createCanvasStream canvasCtx canvasStream s with
      | Some s' => s'
      | None => s
      end
  | TimeoutFires handle throws =>
      mkStreamer (isStarted s) (disposers s) (userMedia s) (hijackUserMedia s)
        (timeoutFires handle throws (page s))
  | FrameFires handle =>
      mkStreamer (isStarted s) (disposers s) (userMedia s) (hijackUserMedia s)
        (frameFires handle (page s))
  end.

Definition streamerAfter (events : list StreamerEvent) : Streamer :=
  fold_left streamerStep events newStreamer.

(** The pending tasks of the loop [k]. *)
Definition tasksOfLoop (k : nat) (p : Page) : list (Z * nat) :=
  filter (fun task => task.2 = k) (timeouts (window p))
  ++ filter (fun task => task.2 = k) (frames (window p)).

(** ** What the timers keep

    Every pending timeout of a loop is the one its [timerId] names, every
    pending animation frame the one its [rafId] names, no loop has both
    pending, and no task is pending twice. *)
Definition tasksNamed (handleOf : Loop -> Z) (tasks : list (Z * nat))
    (ls : list Loop) : Prop :=
  forall (handle : Z) (k : nat), (handle, k) ∈ tasks ->
    exists l, ls !! k = Some l /\ handleOf l = handle.

Definition pageOk (p : Page) : Prop :=
  tasksNamed timerId (timeouts (window p)) (loops p) /\
  tasksNamed rafId (frames (window p)) (loops p) /\
  (forall (h h' : Z) (k : nat),
     (h, k) ∈ timeouts (window p) -> (h', k) ∈ frames (window p) -> False) /\
  NoDup (timeouts (window p)) /\ NoDup (frames (window p)).

(** What the streamer keeps besides: the stop function of every loop with
    a pending task is among the disposers, and [getUserMedia] is the
    modified one exactly while the streamer is started. *)
Definition streamerOk (s : Streamer) : Prop :=
  pageOk (page s) /\
  (forall (h : Z) (k : nat),
     (h, k) ∈ timeouts (window (page s)) ++ frames (window (page s)) ->
     k ∈ disposers s) /\
  (isStarted s = true <-> userMedia s = ModifiedUserMedia) /\
  (isStarted s = true -> hijackUserMedia s = true).

(** ** The search of the fitter in binary64

    The loop of [#fitText] on a window between integers, with the
    roundings of the source written out, to compare [fitLoop] with; the
    height and the ends of the first window are binary64 numbers.
    [round64 z] is the binary64 number nearest to the integer [z], ties to
    even (for [z] below the largest binary64 number): an integer of
    absolute value below [2 ^ 53] is a binary64 number, a larger one is
    rounded to 53 significant bits.  The sum [minFontSize + maxFontSize],
    the difference [maxFontSize - minFontSize], [fontSize - 1] and the
    product [fontSize * numOfLines] are rounded; halving a binary64 integer
    and [Math.floor] round nothing. *)
Definition round64 (z : Z) : Z :=
  let a := Z.abs z in
  let e := Z.log2 a - 52 in
  if e <=? 0 then z
  else
    let q := a / 2 ^ e in
    let r := a mod 2 ^ e in
    let half := 2 ^ (e - 1) in
    let q' := if r <? half then q
              else if half <? r then q + 1
              else if Z.even q then q else q + 1 in
    Z.sgn z * (q' * 2 ^ e).

Definition hasOverflow64 (height maxWrap fontSize : Z) (ls : list Line) : bool :=
  let numOfLines := Z.of_nat (length ls) in
  (maxWrap <? numOfLines) || (height <? round64 (fontSize * numOfLines)).

Fixpoint fitLoop64 (measure : Z -> jsstring -> Q) (fuel : nat) (text : jsstring)
    (width : Q) (height maxWrap minFontSize maxFontSize : Z)
    : outcome (option FitResult) :=
  if minFontSize <=? maxFontSize then
    match fuel with
    | O => OutOfFuel
    | S fuel' =>
        let fontSize := round64 (minFontSize + maxFontSize) / 2 in
        let ls := wrapText measure text fontSize width in
        let overflow := hasOverflow64 height maxWrap fontSize ls in
        if round64 (maxFontSize - minFontSize) <=? 1 then
          Returns (Some (mkFit fontSize ls))
        else if overflow then
          fitLoop64 measure fuel' text width height maxWrap
            minFontSize (round64 (fontSize - 1))
        else
          fitLoop64 measure fuel' text width height maxWrap fontSize maxFontSize
    end
  else Returns None.

(** * Properties *)

(** ** The wrapper *)

Section Wrapper.

Variable measure : Z -> jsstring -> Q.
Variables (fontSize : Z) (width : Q).

Lemma joined_app (a b : list Line) : joined (a ++ b) = joined a ++ joined b.
Proof. unfold joined. now rewrite List.map_app, concat_app. Qed.

Lemma joined_single (l : Line) : joined [l] = line_text l.
Proof. unfold joined. simpl. apply app_nil_r. Qed.

Lemma wrapStep_joined (st : list Line * Line) (c : codeunit) :
  joined (fst (wrapStep measure fontSize width st c))
    ++ line_text (snd (wrapStep measure fontSize width st c))
  = (joined (fst st) ++ line_text (snd st)) ++ [c].
Proof.
  destruct st as [acc line]. unfold wrapStep.
  destruct (Qgtb _ _); simpl.
  - now rewrite joined_app, joined_single.
  - now rewrite app_assoc.
Qed.

Lemma wrapLoop_joined (text : jsstring) (st : list Line * Line) :
  joined (fst (wrapLoop measure fontSize width text st))
    ++ line_text (snd (wrapLoop measure fontSize width text st))
  = (joined (fst st) ++ line_text (snd st)) ++ text.
Proof.
  revert st. induction text as [|c text IH]; intros st.
  - simpl. now rewrite app_nil_r.
  - unfold wrapLoop in *. simpl. rewrite IH, wrapStep_joined.
    now rewrite <- app_assoc.
Qed.

Lemma wrapFlush_joined (st : list Line * Line) :
  joined (wrapFlush st) = joined (fst st) ++ line_text (snd st).
Proof.
  destruct st as [acc line]. unfold wrapFlush. simpl.
  destruct (line_text line) eqn:E; simpl.
  - now rewrite app_nil_r.
  - now rewrite joined_app, joined_single, E.
Qed.

(** C10. The texts of the lines of [wrapText], joined in order, are the
    input text: wrapping drops, repeats and reorders no character. *)
Theorem wrapText_joined (text : jsstring) :
  joined (wrapText measure text fontSize width) = text.
Proof.
  unfold wrapText. rewrite wrapFlush_joined, wrapLoop_joined. reflexivity.
Qed.

End Wrapper.

(** ** The wrapper against the splits the specification allows *)

Section Greedy.

Variable measure : Z -> jsstring -> Q.
Variables (fontSize : Z) (width : Q).

Local Abbreviation fits s := (measure fontSize s <= width)%Q.
Local Abbreviation allowed := (lineAllowed measure fontSize width).

Lemma Qgtb_true (a b : Q) : Qgtb a b = true <-> ~ (a <= b)%Q.
Proof.
  unfold Qgtb. rewrite negb_true_iff, <- not_true_iff_false.
  now rewrite Qle_bool_iff.
Qed.

Lemma Qgtb_false (a b : Q) : Qgtb a b = false <-> (a <= b)%Q.
Proof. unfold Qgtb. now rewrite negb_false_iff, Qle_bool_iff. Qed.

Lemma truthy_true (s : jsstring) : truthy s = true <-> s <> [].
Proof. destruct s; simpl; split; congruence. Qed.

Lemma nonemptyLines_app (a b : list Line) :
  nonemptyLines (a ++ b) = nonemptyLines a ++ nonemptyLines b.
Proof. apply List.filter_app. Qed.

Local Abbreviation good := (goodPart measure fontSize width).

(** Empty parts can be left out of a split. *)
Lemma validSplit_good (text : jsstring) (parts : list jsstring) :
  validSplit measure fontSize width text parts ->
  exists parts', Forall good parts' /\ concat parts' = text /\
                 (length parts' <= length parts)%nat.
Proof.
  intros [<- Hall]. induction Hall as [|p ps Hp _ IH].
  - exists []. repeat split; [constructor|lia].
  - destruct IH as (ps' & Hgood & Hcat & Hlen). destruct p as [|c p].
    + exists ps'. simpl. repeat split; trivial. lia.
    + exists ((c :: p) :: ps'). simpl. rewrite Hcat. repeat split; try lia.
      constructor; [|exact Hgood]. split; [discriminate|exact Hp].
Qed.

Hypothesis closed : substringClosed measure fontSize width.

(** A good part stays good when characters are cut off its front. *)
Lemma good_suffix (d s : jsstring) : s <> [] -> good (d ++ s) -> good s.
Proof.
  intros Hs [_ Hal]. split; [exact Hs|].
  destruct d as [|c d]; [exact Hal|].
  destruct Hal as [Hfit|Hone].
  - left. apply (closed (c :: d) s); [discriminate|exact Hs|exact Hfit].
  - right. simpl in Hone. rewrite length_app in Hone.
    destruct s; [congruence|simpl in Hone; lia].
Qed.

(** A split of a text gives a split of each of its suffixes, with no more
    parts. *)
Lemma good_split_suffix (parts : list jsstring) (d t : jsstring) :
  Forall good parts -> concat parts = d ++ t ->
  exists parts', Forall good parts' /\ concat parts' = t /\
                 (length parts' <= length parts)%nat.
Proof.
  intros Hall. revert d. induction Hall as [|p ps Hp Hps IH]; intros d Hcat.
  - simpl in Hcat. symmetry in Hcat. apply app_eq_nil in Hcat as [_ ->].
    exists []. repeat split; [constructor|lia].
  - simpl in Hcat. apply app_eq_app in Hcat as [l [[-> Hrest]|[-> Hrest]]].
    + (* the part covers [d] and more *)
      destruct l as [|c l].
      * rewrite app_nil_l in Hrest. subst t.
        exists ps. repeat split; trivial. simpl. lia.
      * exists ((c :: l) :: ps). simpl. rewrite Hrest. repeat split; try lia.
        constructor; [|exact Hps].
        apply (good_suffix d); [discriminate|exact Hp].
    + (* the part lies inside [d] *)
      destruct (IH l) as (ps' & Hgood & Hc & Hlen).
      * rewrite Hrest. reflexivity.
      * exists ps'. repeat split; trivial. simpl. lia.
Qed.

(** The wrapper stays ahead of every split: from a state whose current
    line has a text, it adds no more lines with a text than a split of the
    characters of that line and the ones still to come has parts. *)
Lemma wrapLoop_ahead (rest : jsstring) (acc : list Line) (line : Line)
    (parts : list jsstring) :
  line_text line <> [] ->
  Forall good parts -> concat parts = line_text line ++ rest ->
  (length (nonemptyLines (wrapFlush (wrapLoop measure fontSize width rest (acc, line))))
   <= length (nonemptyLines acc) + length parts)%nat.
Proof.
  revert acc line parts.
  induction rest as [|c rest IH]; intros acc line parts Hne Hgood Hcat.
  - simpl. apply truthy_true in Hne as Ht. rewrite Ht, nonemptyLines_app.
    rewrite length_app. unfold nonemptyLines at 2. simpl. rewrite Ht. simpl.
    destruct parts as [|p ps]; [|simpl; lia].
    simpl in Hcat. rewrite app_nil_r in Hcat. congruence.
  - unfold wrapLoop. simpl. fold (wrapLoop measure fontSize width rest).
    destruct (Qgtb (measure fontSize (line_text line ++ [c])) width) eqn:Hov.
    + (* the line is pushed and a new one starts with [c] *)
      apply Qgtb_true in Hov.
      assert (Hparts : exists parts', Forall good parts' /\
                concat parts' = [c] ++ rest /\
                (S (length parts') <= length parts)%nat).
      { destruct Hgood as [|p ps Hp Hps].
        - simpl in Hcat. destruct (line_text line); [congruence|discriminate].
        - simpl in Hcat.
          apply app_eq_app in Hcat as [l [[Hp' Hrest]|[Hline Hrest]]].
          + destruct l as [|c' l].
            * exists ps. simpl in *. repeat split; auto.
            * exfalso. apply Hov. injection Hrest as <- Hrest.
              destruct Hp as [_ [Hfit|Hone]].
              -- rewrite Hp' in Hfit.
                 destruct l as [|c'' l]; [exact Hfit|].
                 replace (line_text line ++ c :: c'' :: l)
                   with ((line_text line ++ [c]) ++ c'' :: l) in Hfit
                   by (now rewrite <- app_assoc).
                 apply closed in Hfit as [Hfit _]; trivial; try discriminate.
                 destruct (line_text line); discriminate.
              -- rewrite Hp', length_app in Hone. simpl in Hone.
                 destruct (line_text line); [congruence|simpl in Hone; lia].
          + destruct (good_split_suffix ps l ([c] ++ rest) Hps)
              as (ps' & Hg & Hc & Hlen).
            * exact Hrest.
            * exists ps'. repeat split; trivial. simpl. lia. }
      destruct Hparts as (parts' & Hgood' & Hcat' & Hlen).
      eapply Nat.le_trans.
      * apply (IH _ _ parts'); simpl; trivial. discriminate.
      * rewrite nonemptyLines_app, length_app.
        unfold nonemptyLines at 2. simpl.
        apply truthy_true in Hne as ->. simpl. lia.
    + (* the character joins the line *)
      apply (IH _ _ parts); simpl; trivial.
      * destruct (line_text line); discriminate.
      * now rewrite <- app_assoc.
Qed.

(** X2. Leaving the empty first line aside, the wrapper is minimal: when
    fitting is closed under taking substrings, its lines with a text are no
    more than the parts of any split the specification allows. *)
Theorem wrapText_minimal (text : jsstring) (parts : list jsstring) :
  validSplit measure fontSize width text parts ->
  (length (nonemptyLines (wrapText measure text fontSize width))
   <= length parts)%nat.
Proof.
  intros Hsplit.
  apply validSplit_good in Hsplit as (parts' & Hgood & Hcat & Hlen).
  eapply Nat.le_trans; [|exact Hlen].
  destruct text as [|c rest]; [simpl; lia|].
  unfold wrapText, wrapLoop. simpl.
  fold (wrapLoop measure fontSize width rest).
  destruct (Qgtb (measure fontSize [c]) width);
    (eapply Nat.le_trans;
     [apply (wrapLoop_ahead rest _ _ parts'); simpl; trivial; discriminate
     |simpl; lia]).
Qed.

End Greedy.

Section GreedyValid.

Variable measure : Z -> jsstring -> Q.
Variables (fontSize : Z) (width : Q).

Local Abbreviation allowed := (lineAllowed measure fontSize width).
Local Abbreviation okLine :=
  (fun l : Line => line_text l = [] \/ allowed (line_text l)).

Lemma wrapStep_allowed (st : list Line * Line) (c : codeunit) :
  Forall okLine (fst st) -> okLine (snd st) ->
  Forall okLine (fst (wrapStep measure fontSize width st c)) /\
  okLine (snd (wrapStep measure fontSize width st c)).
Proof.
  destruct st as [acc line]. simpl. intros Hacc Hline. unfold wrapStep.
  destruct (Qgtb _ _) eqn:Hov; simpl.
  - split; [|right; right; reflexivity].
    apply Forall_app. split; [exact Hacc|]. constructor; [exact Hline|constructor].
  - split; [exact Hacc|]. right. left. now apply Qgtb_false.
Qed.

Lemma wrapLoop_allowed (text : jsstring) (st : list Line * Line) :
  Forall okLine (fst st) -> okLine (snd st) ->
  Forall okLine (fst (wrapLoop measure fontSize width text st)) /\
  okLine (snd (wrapLoop measure fontSize width text st)).
Proof.
  revert st. induction text as [|c text IH]; intros st Hacc Hline.
  - now split.
  - unfold wrapLoop. simpl. apply IH; now apply wrapStep_allowed.
Qed.

Lemma nonemptyLines_joined (ls : list Line) :
  concat (List.map line_text (nonemptyLines ls)) = joined ls.
Proof.
  unfold joined. induction ls as [|l ls IH]; [reflexivity|]. simpl.
  destruct (line_text l) eqn:E; simpl; [exact IH|].
  now rewrite E, IH.
Qed.

(** X1. The lines with a text that the wrapper returns are a split of the
    text that the specification allows: each fits the width or is a single
    character. *)
Theorem wrapText_valid (text : jsstring) :
  validSplit measure fontSize width text
    (List.map line_text (nonemptyLines (wrapText measure text fontSize width))).
Proof.
  split.
  - rewrite nonemptyLines_joined. unfold wrapText.
    now rewrite wrapFlush_joined, wrapLoop_joined.
  - assert (Hall : Forall okLine (wrapText measure text fontSize width)).
    { unfold wrapText.
      destruct (wrapLoop_allowed text ([], emptyLine)) as [Hacc Hline];
        [constructor|now left|].
      destruct (wrapLoop measure fontSize width text ([], emptyLine))
        as [acc line]. simpl in *.
      destruct (truthy (line_text line)); [|exact Hacc].
      apply Forall_app. split; [exact Hacc|]. constructor; [exact Hline|constructor]. }
    induction Hall as [|l ls Hl _ IH]; [constructor|]. simpl.
    destruct (line_text l) eqn:E; simpl; [exact IH|].
    constructor; [|exact IH]. rewrite E.
    destruct Hl as [Hl|Hl]; [discriminate|exact Hl].
Qed.

End GreedyValid.

(** C2 on a first character wider than the box: one em a character at the
    size 10 and a width of 5.  ["W"] alone on one line is a split the claim
    allows; the wrapper returns two lines, the first of them empty: on the
    first turn [line.text] is still empty when [lines.push ({ ...line })]
    runs. *)
Theorem wrapText_wide_first_char :
  validSplit oneEm 10 5 (lit "W") [lit "W"] /\
  wrapText oneEm (lit "W") 10 5
    = [mkLine [] 0 None None; mkLine (lit "W") 10 None None] /\
  (length [lit "W"] < length (wrapText oneEm (lit "W") 10 5))%nat.
Proof.
  split; [|split; vm_compute; [reflexivity|lia]].
  split; [reflexivity|]. constructor; [|constructor]. right. reflexivity.
Qed.

(** ** Integers among the numbers *)

Lemma Qle_bool_inject (a b : Z) : Qle_bool (inject_Z a) (inject_Z b) = (a <=? b).
Proof. unfold Qle_bool. simpl. now rewrite !Z.mul_1_r. Qed.

Lemma Qgtb_inject (a b : Z) : Qgtb (inject_Z a) (inject_Z b) = (b <? a).
Proof. unfold Qgtb. now rewrite Qle_bool_inject, Z.ltb_antisym. Qed.

Lemma Qfloor_midpoint (a b : Z) :
  Qfloor ((inject_Z a + inject_Z b) / 2) = (a + b) / 2.
Proof. unfold Qfloor, Qdiv, Qmult, Qplus, Qinv, inject_Z. simpl. f_equal. lia. Qed.

Lemma window_inject (a b : Z) :
  Qle_bool (inject_Z b - inject_Z a) 1 = (b - a <=? 1).
Proof.
  apply eq_true_iff_eq. rewrite Qle_bool_iff, Z.leb_le.
  unfold Qle, Qminus, Qplus, Qopp, inject_Z. simpl. lia.
Qed.

Lemma Qfloor_div_inject (h m : Z) :
  m <> 0 -> Qfloor (inject_Z h / inject_Z m) = h / m.
Proof.
  intros Hm. unfold Qfloor, Qdiv, Qmult, Qinv, inject_Z. simpl.
  destruct m as [|p|p]; [congruence| |]; simpl.
  - now rewrite Z.mul_1_r.
  - rewrite <- (Z.div_opp_opp h (Z.neg p)) by discriminate.
    change (- Z.neg p) with (Z.pos p). f_equal. lia.
Qed.

(** The midpoint of a window that is not empty is not below its lower
    end. *)
Lemma midpoint_ge (lo : Z) (hi : Q) :
  (inject_Z lo <= hi)%Q -> lo <= Qfloor ((inject_Z lo + hi) / 2).
Proof.
  intros H. rewrite <- (Qfloor_Z lo) at 1. apply Qfloor_resp_le.
  generalize dependent (inject_Z lo). intros x H.
  apply Qle_shift_div_l; [reflexivity|lra].
Qed.

(** The lower end of the search is not negative in a box of non-negative
    height. *)
Lemma floor_div_nonneg (height : Q) (maxWrap : Z) :
  (0 <= height)%Q -> 1 <= maxWrap -> 0 <= Qfloor (height / inject_Z maxWrap).
Proof.
  intros Hh Hm. change 0 with (Qfloor 0). apply Qfloor_resp_le.
  apply Qle_shift_div_l.
  - change 0%Q with (inject_Z 0). rewrite <- Zlt_Qlt. lia.
  - now rewrite Qmult_0_l.
Qed.

Lemma hasOverflow_inject (height maxWrap fontSize : Z) (ls : list Line) :
  hasOverflow (inject_Z height) maxWrap fontSize ls
  = (maxWrap <? Z.of_nat (length ls))
    || (height <? fontSize * Z.of_nat (length ls)).
Proof. unfold hasOverflow. now rewrite Qgtb_inject. Qed.

(** ** The search loop of the fitter, on every window *)

Section Loop.

Variable measure : Z -> jsstring -> Q.
Variables (text : jsstring) (width height : Q) (maxWrap : Z).

Local Abbreviation wrapAt f := (wrapText measure text f width).
Local Abbreviation loop fuel := (fitLoop measure fuel text width height maxWrap).
Local Abbreviation loopC fuel := (fitLoopC measure fuel text width height maxWrap).
Local Abbreviation overflows f := (overflowAt measure text width height maxWrap f).
Local Abbreviation midpoint lo hi := (Qfloor ((inject_Z lo + hi) / 2)).

Lemma wrapStepC_fold (f : Z) (cs : jsstring) (st : list Line * Line) (calls : nat) :
  fold_left (wrapStepC measure f width) cs (st, calls)
  = (fold_left (wrapStep measure f width) cs st, (calls + length cs)%nat).
Proof.
  revert st calls. induction cs as [|c cs IH]; intros st calls; simpl.
  - f_equal. lia.
  - rewrite IH. f_equal. lia.
Qed.

Lemma wrapTextC_eq (cs : jsstring) (f : Z) (calls : nat) :
  wrapTextC measure cs f width calls
  = (wrapText measure cs f width, (calls + length cs)%nat).
Proof. unfold wrapTextC, wrapText, wrapLoop. now rewrite wrapStepC_fold. Qed.

(** The cases of one turn of the loop from [[lo, hi]]: the window is
    collapsed, it is narrowed from above or from below, or it is empty. *)
Ltac loop_turn lo hi :=
  simpl;
  destruct (Qle_bool (inject_Z lo) hi);
  [destruct (Qle_bool (hi - inject_Z lo) 1);
   [|destruct (hasOverflow _ _ _ _)]|].

(** The counter does not change what the loop computes. *)
Lemma fitLoopC_fst (fuel : nat) (lo : Z) (hi : Q) (calls : nat) :
  fst (loopC fuel lo hi calls) = loop fuel lo hi.
Proof.
  revert lo hi calls. induction fuel as [|fuel IH]; intros lo hi calls; simpl.
  - now destruct (Qle_bool (inject_Z lo) hi).
  - rewrite wrapTextC_eq. loop_turn lo hi; trivial.
Qed.

(** The loop itself throws nothing. *)
Lemma fitLoop_no_throw (fuel : nat) (lo : Z) (hi : Q) (e : JsError) :
  loop fuel lo hi <> Throws e.
Proof.
  revert lo hi. induction fuel as [|fuel IH]; intros lo hi.
  - simpl. destruct (Qle_bool (inject_Z lo) hi); discriminate.
  - loop_turn lo hi; try discriminate; apply IH.
Qed.

(** More fuel does not change a result. *)
Lemma fitLoop_fuel (fuel fuel' : nat) (lo : Z) (hi : Q) (r : option FitResult) :
  loop fuel lo hi = Returns r -> (fuel <= fuel')%nat -> loop fuel' lo hi = Returns r.
Proof.
  revert fuel' lo hi. induction fuel as [|fuel IH]; intros fuel' lo hi Hr Hf.
  - simpl in Hr. destruct fuel'; simpl;
      destruct (Qle_bool (inject_Z lo) hi); congruence.
  - destruct fuel' as [|fuel']; [lia|]. revert Hr.
    loop_turn lo hi; trivial; intros Hr; (apply IH; [exact Hr|lia]).
Qed.

(** On a window of width at most one the loop returns the wrap at the
    midpoint, whether it overflows or not. *)
Lemma fitLoop_collapsed (fuel : nat) (lo : Z) (hi : Q) :
  Qle_bool (inject_Z lo) hi = true -> Qle_bool (hi - inject_Z lo) 1 = true ->
  loop (S fuel) lo hi
  = Returns (Some (mkFit (midpoint lo hi) (wrapAt (midpoint lo hi)))).
Proof. intros Hle Hw. cbn [fitLoop]. now rewrite Hle, Hw. Qed.

(** On a wider window it goes on with one end moved to the midpoint. *)
Lemma fitLoop_narrows (fuel : nat) (lo : Z) (hi : Q) :
  Qle_bool (inject_Z lo) hi = true -> Qle_bool (hi - inject_Z lo) 1 = false ->
  loop (S fuel) lo hi
  = if overflows (midpoint lo hi)
    then loop fuel lo (inject_Z (midpoint lo hi - 1))
    else loop fuel (midpoint lo hi) hi.
Proof. intros Hle Hw. cbn [fitLoop]. now rewrite Hle, Hw. Qed.

(** Whatever the loop returns is the wrap at a size that is not below the
    lower end of its window. *)
Lemma fitLoop_lower (fuel : nat) (lo : Z) (hi : Q) (r : FitResult) :
  loop fuel lo hi = Returns (Some r) ->
  lo <= fit_fontSize r /\ fit_lines r = wrapAt (fit_fontSize r).
Proof.
  revert lo hi. induction fuel as [|fuel IH]; intros lo hi.
  - simpl. destruct (Qle_bool (inject_Z lo) hi); discriminate.
  - destruct (Qle_bool (inject_Z lo) hi) eqn:Hle;
      [|simpl; rewrite Hle; discriminate].
    pose proof (midpoint_ge lo hi (proj1 (Qle_bool_iff _ _) Hle)) as Hmid.
    destruct (Qle_bool (hi - inject_Z lo) 1) eqn:Hw.
    + rewrite fitLoop_collapsed by assumption. intros [= <-]. simpl. auto.
    + rewrite fitLoop_narrows by assumption.
      destruct (overflows _); intros Hr; apply IH in Hr;
        destruct Hr as [Hin Hls]; (split; [lia|exact Hls]).
Qed.

(** A window wider than one whose midpoint is its lower end, at a size
    that does not overflow, is never left: the turn puts the lower end where
    it was. *)
Lemma fitLoop_stuck (lo : Z) (hi : Q) :
  Qle_bool (inject_Z lo) hi = true -> Qle_bool (hi - inject_Z lo) 1 = false ->
  midpoint lo hi = lo -> overflows lo = false ->
  forall fuel, loop fuel lo hi = OutOfFuel.
Proof.
  intros Hle Hw Hmid Hfit fuel. induction fuel as [|fuel IH].
  - cbn [fitLoop]. now rewrite Hle.
  - rewrite fitLoop_narrows by assumption. now rewrite Hmid, Hfit.
Qed.

End Loop.

(** ** The search loop on a window between integers *)

Section Fitter.

Variable measure : Z -> jsstring -> Q.
Variables (text : jsstring) (width : Q) (height maxWrap : Z).

Local Abbreviation wrapAt f := (wrapText measure text f width).
Local Abbreviation loop fuel lo hi :=
  (fitLoop measure fuel text width (inject_Z height) maxWrap lo (inject_Z hi)).
Local Abbreviation loopC fuel lo hi :=
  (fitLoopC measure fuel text width (inject_Z height) maxWrap lo (inject_Z hi)).
Local Abbreviation overflows f :=
  (overflowAt measure text width (inject_Z height) maxWrap f).

(** The loop written with the tests on integers. *)
Lemma fitLoop_O (lo hi : Z) :
  loop O lo hi = if lo <=? hi then OutOfFuel else Returns None.
Proof. cbn [fitLoop]. now rewrite Qle_bool_inject. Qed.

Lemma fitLoop_S (fuel : nat) (lo hi : Z) :
  loop (S fuel) lo hi
  = if lo <=? hi then
      if hi - lo <=? 1 then
        Returns (Some (mkFit ((lo + hi) / 2) (wrapAt ((lo + hi) / 2))))
      else if overflows ((lo + hi) / 2) then loop fuel lo ((lo + hi) / 2 - 1)
      else loop fuel ((lo + hi) / 2) hi
    else Returns None.
Proof.
  cbn [fitLoop]. now rewrite Qle_bool_inject, window_inject, Qfloor_midpoint.
Qed.

Lemma fitLoopC_O (lo hi : Z) (calls : nat) :
  loopC O lo hi calls = if lo <=? hi then (OutOfFuel, calls) else (Returns None, calls).
Proof. cbn [fitLoopC]. now rewrite Qle_bool_inject. Qed.

Lemma fitLoopC_S (fuel : nat) (lo hi : Z) (calls : nat) :
  loopC (S fuel) lo hi calls
  = if lo <=? hi then
      if hi - lo <=? 1 then
        (Returns (Some (mkFit ((lo + hi) / 2) (wrapAt ((lo + hi) / 2)))),
         (calls + length text)%nat)
      else if overflows ((lo + hi) / 2)
      then loopC fuel lo ((lo + hi) / 2 - 1) (calls + length text)%nat
      else loopC fuel ((lo + hi) / 2) hi (calls + length text)%nat
    else (Returns None, calls).
Proof.
  cbn [fitLoopC].
  now rewrite Qle_bool_inject, window_inject, Qfloor_midpoint, wrapTextC_eq.
Qed.

(** Halving a window of at least two sizes takes one off its logarithm. *)
Lemma log2_up_half (d d' : Z) :
  2 <= d -> d' <= (d + 1) / 2 -> Z.log2_up d' + 1 <= Z.log2_up d.
Proof.
  intros Hd Hd'.
  assert (Hk : 1 <= Z.log2_up d).
  { change 1 with (Z.log2_up 2). apply Z.log2_up_le_mono. lia. }
  destruct (Z.le_gt_cases d' 1) as [Hs|Hs].
  - rewrite (Z.log2_up_eqn0 d') by lia. lia.
  - assert (Hpow : d <= 2 ^ Z.log2_up d) by (apply Z.log2_up_spec; lia).
    replace (Z.log2_up d) with (Z.succ (Z.log2_up d - 1)) in Hpow by lia.
    rewrite Z.pow_succ_r in Hpow by lia.
    assert (d' <= 2 ^ (Z.log2_up d - 1)).
    { remember (2 ^ (Z.log2_up d - 1)) as half.
      clear - Hd' Hpow. Z.div_mod_to_equations. lia. }
    assert (Z.log2_up d' <= Z.log2_up d - 1)
      by (apply Z.log2_up_le_pow2; lia).
    lia.
Qed.

Lemma turnsBound_step (lo hi lo' hi' : Z) :
  2 <= hi - lo -> hi' - lo' <= (hi - lo + 1) / 2 ->
  (S (turnsBound lo' hi') <= turnsBound lo hi)%nat.
Proof.
  intros H2 Hh. unfold turnsBound.
  pose proof (log2_up_half (hi - lo) (hi' - lo') H2 Hh).
  pose proof (Z.log2_up_nonneg (hi' - lo')).
  lia.
Qed.

Lemma midpoint_inside (lo hi : Z) :
  1 < hi - lo -> lo < (lo + hi) / 2 < hi.
Proof. intros. Z.div_mod_to_equations. lia. Qed.

Lemma midpoint_collapsed (lo hi : Z) :
  lo <= hi -> hi - lo <= 1 -> (lo + hi) / 2 = lo.
Proof. intros. Z.div_mod_to_equations. lia. Qed.

Lemma window_overflow (lo hi : Z) :
  2 <= hi - lo -> ((lo + hi) / 2 - 1) - lo <= (hi - lo + 1) / 2.
Proof. intros. Z.div_mod_to_equations. lia. Qed.

Lemma window_fits (lo hi : Z) :
  2 <= hi - lo -> hi - (lo + hi) / 2 <= (hi - lo + 1) / 2.
Proof. intros. Z.div_mod_to_equations. lia. Qed.

Lemma one_more_turn (calls len t t' : nat) :
  (S t' <= t)%nat -> (calls + len + t' * len <= calls + t * len)%nat.
Proof. intros H. apply (Nat.mul_le_mono_r _ _ len) in H. simpl in H. lia. Qed.

(** Each turn measures once per character, and the turns are bounded. *)
Lemma fitLoopC_calls (fuel : nat) (lo hi : Z) (calls : nat) :
  (snd (loopC fuel lo hi calls) <= calls + turnsBound lo hi * length text)%nat.
Proof.
  revert lo hi calls.
  induction fuel as [|fuel IH]; intros lo hi calls.
  - rewrite fitLoopC_O. destruct (lo <=? hi); cbn [snd]; lia.
  - rewrite fitLoopC_S.
    destruct (lo <=? hi) eqn:Hle; [|cbn [snd]; lia].
    destruct (hi - lo <=? 1) eqn:Hw.
    + cbn [snd]. unfold turnsBound. lia.
    + apply Z.leb_gt in Hw.
      destruct (overflows _).
      * eapply Nat.le_trans; [apply IH|].
        apply one_more_turn, turnsBound_step; [lia|].
        apply window_overflow; lia.
      * eapply Nat.le_trans; [apply IH|].
        apply one_more_turn, turnsBound_step; [lia|].
        apply window_fits; lia.
Qed.

(** With fuel for [turnsBound] turns the loop ends. *)
Lemma fitLoop_ends (fuel : nat) (lo hi : Z) :
  (turnsBound lo hi <= fuel)%nat -> loop fuel lo hi <> OutOfFuel.
Proof.
  revert lo hi. induction fuel as [|fuel IH]; intros lo hi Hf.
  - unfold turnsBound in Hf. lia.
  - rewrite fitLoop_S. destruct (lo <=? hi) eqn:Hle; [|discriminate].
    destruct (hi - lo <=? 1) eqn:Hw; [discriminate|].
    apply Z.leb_gt in Hw.
    destruct (overflows _); apply IH.
    + pose proof (turnsBound_step lo hi lo ((lo + hi) / 2 - 1)
                    ltac:(lia) (window_overflow lo hi ltac:(lia))). lia.
    + pose proof (turnsBound_step lo hi ((lo + hi) / 2) hi
                    ltac:(lia) (window_fits lo hi ltac:(lia))). lia.
Qed.

(** Whatever the loop returns is the wrap at a size of its window. *)
Lemma fitLoop_result (fuel : nat) (lo hi : Z) (r : FitResult) :
  loop fuel lo hi = Returns (Some r) ->
  lo <= fit_fontSize r <= hi /\ fit_lines r = wrapAt (fit_fontSize r).
Proof.
  revert lo hi. induction fuel as [|fuel IH]; intros lo hi.
  - rewrite fitLoop_O. destruct (lo <=? hi); discriminate.
  - rewrite fitLoop_S.
    destruct (Z.leb_spec lo hi) as [Hle|]; [|discriminate].
    destruct (Z.leb_spec (hi - lo) 1) as [Hw|Hw].
    + intros [= <-]. simpl. split; [|reflexivity].
      rewrite midpoint_collapsed; lia.
    + pose proof (midpoint_inside lo hi Hw).
      destruct (overflows _); intros Hr; apply IH in Hr;
        destruct Hr as [Hin Hls]; (split; [lia|exact Hls]).
Qed.

(** The loop falls off its end only from an empty window. *)
Lemma fitLoop_undefined (fuel : nat) (lo hi : Z) :
  loop fuel lo hi = Returns None -> hi < lo.
Proof.
  revert lo hi. induction fuel as [|fuel IH]; intros lo hi.
  - rewrite fitLoop_O. destruct (Z.leb_spec lo hi); [discriminate|trivial].
  - rewrite fitLoop_S.
    destruct (Z.leb_spec lo hi) as [Hle|]; [|trivial].
    destruct (Z.leb_spec (hi - lo) 1) as [Hw|Hw]; [discriminate|].
    pose proof (midpoint_inside lo hi Hw).
    destruct (overflows _); intros Hr; apply IH in Hr; lia.
Qed.

(** The invariant of the search: the lower end fits and every size above
    the upper end overflows.  The loop then returns its final lower end,
    which fits, and every size more than one above it overflows. *)
Lemma fitLoop_search (bot top : Z) (fuel : nat) (lo hi : Z) (r : FitResult) :
  overflowMonotone measure text width (inject_Z height) maxWrap bot top ->
  bot <= lo -> hi <= top ->
  overflows lo = false ->
  (forall f, hi < f -> f <= top -> overflows f = true) ->
  loop fuel lo hi = Returns (Some r) ->
  overflows (fit_fontSize r) = false /\
  (forall f, fit_fontSize r + 1 < f -> f <= top -> overflows f = true).
Proof.
  intros Hmono. revert lo hi.
  induction fuel as [|fuel IH]; intros lo hi Hbot Htop Hlo Hhi.
  - rewrite fitLoop_O. destruct (lo <=? hi); discriminate.
  - rewrite fitLoop_S.
    destruct (Z.leb_spec lo hi) as [Hle|]; [|discriminate].
    destruct (Z.leb_spec (hi - lo) 1) as [Hw|Hw].
    + intros [= <-]. simpl.
      rewrite midpoint_collapsed by lia. split; [exact Hlo|].
      intros f Hf Hft. apply Hhi; lia.
    + pose proof (midpoint_inside lo hi Hw) as Hmid.
      destruct (overflows ((lo + hi) / 2)) eqn:Hov; apply IH; try lia; trivial.
      intros f Hf Hft.
      apply (Hmono ((lo + hi) / 2) f); try lia. exact Hov.
Qed.

End Fitter.

(** ** The fitter as a whole *)

(** Fuel beyond what a call needs does not change how it ends. *)
Lemma fitText_fuel measure fuel fuel' text width height maxWrap
    (r : option FitResult) :
  fitText measure fuel text width height maxWrap = Returns r ->
  (fuel <= fuel')%nat ->
  fitText measure fuel' text width height maxWrap = Returns r.
Proof.
  unfold fitText. destruct (floor_div height maxWrap); trivial.
  apply fitLoop_fuel.
Qed.

(** What the fitter returns is the wrap at a size that is not below
    [floor (height / maxWrap)]; it returns nothing for the line cap zero. *)
Lemma fitText_lower measure fuel text width height maxWrap (r : FitResult) :
  fitText measure fuel text width height maxWrap = Returns (Some r) ->
  maxWrap <> 0 /\
  Qfloor (height / inject_Z maxWrap) <= fit_fontSize r /\
  fit_lines r = wrapText measure text (fit_fontSize r) width.
Proof.
  unfold fitText, floor_div.
  destruct (Z.eqb_spec maxWrap 0) as [->|Hm].
  - destruct (Qgtb height 0); [discriminate|].
    destruct (Qgtb 0 height); discriminate.
  - intros H. split; [exact Hm|]. now apply fitLoop_lower in H.
Qed.

Lemma fitTextC_fst measure fuel text width height maxWrap :
  fst (fitTextC measure fuel text width height maxWrap)
  = fitText measure fuel text width height maxWrap.
Proof.
  unfold fitTextC, fitText.
  destruct (floor_div height maxWrap); try reflexivity. apply fitLoopC_fst.
Qed.

(** *** On a height that is an integer *)

Section FitText.

Variable measure : Z -> jsstring -> Q.
Variables (text : jsstring) (width : Q) (height maxWrap : Z).

Lemma floor_div_Int :
  maxWrap <> 0 -> floor_div (inject_Z height) maxWrap = Int (height / maxWrap).
Proof.
  intros H. unfold floor_div. destruct (Z.eqb_spec maxWrap 0); [contradiction|].
  now rewrite Qfloor_div_inject.
Qed.

Lemma lower_bound_le : 1 <= maxWrap -> 0 <= height -> 0 <= height / maxWrap <= height.
Proof.
  intros Hm Hh. split.
  - apply Z.div_pos; lia.
  - apply Z.div_le_upper_bound; nia.
Qed.

Lemma turnsBound_searchTurns :
  1 <= maxWrap -> (turnsBound (height / maxWrap) height <= searchTurns height)%nat.
Proof.
  intros Hm. unfold turnsBound, searchTurns.
  apply le_n_S, Z2Nat.inj_le; try apply Z.log2_up_nonneg.
  destruct (Z.le_gt_cases 0 height) as [Hh|Hh].
  - apply Z.log2_up_le_mono. pose proof (lower_bound_le Hm Hh). lia.
  - assert (height <= height / maxWrap) by (apply Z.div_le_lower_bound; nia).
    rewrite (Z.log2_up_eqn0 (height - height / maxWrap)) by lia.
    apply Z.log2_up_nonneg.
Qed.

Lemma fitText_ends (fuel : nat) :
  1 <= maxWrap -> (searchTurns height <= fuel)%nat ->
  fitText measure fuel text width (inject_Z height) maxWrap <> OutOfFuel.
Proof.
  intros Hm Hf. unfold fitText. rewrite floor_div_Int by lia.
  apply fitLoop_ends. pose proof (turnsBound_searchTurns Hm). lia.
Qed.

Lemma fitTextC_calls (fuel : nat) :
  1 <= maxWrap ->
  (snd (fitTextC measure fuel text width (inject_Z height) maxWrap)
   <= searchTurns height * length text)%nat.
Proof.
  intros Hm. unfold fitTextC. rewrite floor_div_Int by lia.
  eapply Nat.le_trans; [apply fitLoopC_calls|]. rewrite Nat.add_0_l.
  apply Nat.mul_le_mono_r, turnsBound_searchTurns, Hm.
Qed.

(** In a box whose height is a non-negative integer the fitter returns a
    wrap. *)
Lemma fitText_returns (fuel : nat) :
  1 <= maxWrap -> 0 <= height -> (searchTurns height <= fuel)%nat ->
  exists r, fitText measure fuel text width (inject_Z height) maxWrap
            = Returns (Some r).
Proof.
  intros Hm Hh Hf. pose proof (fitText_ends fuel Hm Hf) as Hends.
  unfold fitText in *. rewrite floor_div_Int in * by lia.
  destruct (fitLoop _ _ _ _ _ _ _ _) as [[r|]| |] eqn:E.
  - now exists r.
  - apply fitLoop_undefined in E. pose proof (lower_bound_le Hm Hh). lia.
  - now apply fitLoop_no_throw in E.
  - congruence.
Qed.

(** What the fitter returns is the wrap at a size of
    [[floor (height / maxWrap), height]]. *)
Lemma fitText_result (fuel : nat) (r : FitResult) :
  fitText measure fuel text width (inject_Z height) maxWrap = Returns (Some r) ->
  maxWrap <> 0 /\
  height / maxWrap <= fit_fontSize r <= height /\
  fit_lines r = wrapText measure text (fit_fontSize r) width.
Proof.
  intros H. destruct (fitText_lower _ _ _ _ _ _ _ H) as (Hm & _ & _).
  split; [exact Hm|]. unfold fitText in H. rewrite floor_div_Int in H by exact Hm.
  now apply fitLoop_result in H.
Qed.

End FitText.

(** ** Checking monotonicity on a finite range *)

Lemma forallb_seqZ (P : Z -> bool) (lo len f : Z) :
  forallb P (seqZ lo len) = true -> lo <= f < lo + len -> P f = true.
Proof.
  intros Hall Hf. rewrite forallb_forall in Hall. apply Hall.
  apply list_elem_of_In, elem_of_seqZ. lia.
Qed.

(** A property that passes from each size of [[lo, hi)] to the next passes
    from a size to every larger one. *)
Lemma stepwise_upto (R : Z -> Z -> Prop) (lo hi : Z) :
  (forall f, R f f) ->
  (forall f g k, R f g -> R g k -> R f k) ->
  (forall f, lo <= f < hi -> R f (f + 1)) ->
  forall f f', lo <= f -> f <= f' -> f' <= hi -> R f f'.
Proof.
  intros Hrefl Htrans Hstep f f' Hlo Hle Hhi.
  replace f' with (f + Z.of_nat (Z.to_nat (f' - f))) in * by lia.
  induction (Z.to_nat (f' - f)) as [|n IH].
  - rewrite Z.add_0_r. apply Hrefl.
  - apply Htrans with (f + Z.of_nat n).
    + apply IH; lia.
    + replace (f + Z.of_nat (S n)) with (f + Z.of_nat n + 1) by lia.
      apply Hstep. lia.
Qed.

Lemma overflowMonotoneb_sound measure text width height maxWrap lo hi :
  overflowMonotoneb measure text width height maxWrap lo hi = true ->
  overflowMonotone measure text width height maxWrap lo hi.
Proof.
  intros Hb f f' Hlo Hle Hhi.
  apply (stepwise_upto
    (fun f f' => overflowAt measure text width height maxWrap f = true ->
                 overflowAt measure text width height maxWrap f' = true) lo hi);
    auto.
  intros g Hg Hov.
  pose proof (forallb_seqZ _ _ _ g Hb ltac:(lia)) as Himp. simpl in Himp.
  now rewrite Hov in Himp.
Qed.

Lemma linesMonotoneb_sound measure text width height :
  linesMonotoneb measure text width height = true ->
  linesMonotone measure text width height.
Proof.
  intros Hb f f' Hlo Hle Hhi.
  apply (stepwise_upto
    (fun f f' => (length (wrapText measure text f width)
                  <= length (wrapText measure text f' width))%nat) 0 height);
    auto; try lia.
  intros g Hg.
  pose proof (forallb_seqZ _ _ _ g Hb ltac:(lia)) as Hstep. simpl in Hstep.
  now apply Nat.leb_le.
Qed.

(** Line counts that grow with the font size make overflow monotone on
    non-negative sizes, for every line cap. *)
Lemma linesMonotone_overflow measure text width (height : Z) maxWrap lo :
  0 <= lo -> linesMonotone measure text width height ->
  overflowMonotone measure text width (inject_Z height) maxWrap lo height.
Proof.
  intros Hlo Hmono f f' Hf Hle Hhi. unfold overflowAt.
  rewrite !hasOverflow_inject.
  pose proof (Hmono f f' ltac:(lia) Hle Hhi) as Hn.
  rewrite !orb_true_iff, !Z.ltb_lt. intros [Hcap|Hbox]; [left; lia|right].
  eapply Z.lt_le_trans; [exact Hbox|]. apply Z.mul_le_mono_nonneg; lia.
Qed.

(** ** How close the fitter gets to the largest size that fits *)

(** When overflow is monotone on the range of the search and some size of
    the range fits, the fitter returns a size that fits, and every size of
    the range more than one above it overflows: it returns the largest size
    that fits or the one just below it. *)
Lemma fitText_near_largest measure fuel text width (height : Z) maxWrap r :
  1 <= maxWrap ->
  overflowMonotone measure text width (inject_Z height) maxWrap
    (height / maxWrap) height ->
  (exists s, height / maxWrap <= s <= height /\
             overflowAt measure text width (inject_Z height) maxWrap s = false) ->
  fitText measure fuel text width (inject_Z height) maxWrap = Returns (Some r) ->
  overflowAt measure text width (inject_Z height) maxWrap (fit_fontSize r) = false /\
  (forall f, fit_fontSize r + 1 < f -> f <= height ->
     overflowAt measure text width (inject_Z height) maxWrap f = true).
Proof.
  intros Hm Hmono (s & Hs & Hfit) Hr.
  unfold fitText in Hr. rewrite floor_div_Int in Hr by lia.
  apply (fitLoop_search measure text width height maxWrap
           (height / maxWrap) height fuel (height / maxWrap) height r);
    trivial; try lia.
  destruct (overflowAt measure text width (inject_Z height) maxWrap
              (height / maxWrap)) eqn:Hov; [|reflexivity].
  apply (Hmono _ s) in Hov; try lia. congruence.
Qed.

(** C1 at Scenario A of the specification: ["Hello"] in a box of 200 by
    100 with a cap of three lines, every character ten pixels wide.
    Overflow is monotone and the size 100 of the range [[33, 100]] fits, it
    is the largest one that does; the fitter returns 99.  The last window
    is [[99, 100]]: its midpoint 99 is returned and 100 is never tried.
    The same with characters one em wide: ["a"] in a box of 100 by 9 fits
    at 9, and 8 is returned. *)
Theorem fitText_misses_largest :
  (overflowMonotone tenPx (lit "Hello") 200 100 3 (100 / 3) 100 /\
   100 / 3 <= 100 <= 100 /\
   overflowAt tenPx (lit "Hello") 200 100 3 100 = false /\
   fitText tenPx 8 (lit "Hello") 200 100 3
     = Returns (Some (mkFit 99 [mkLine (lit "Hello") 50 None None]))) /\
  (overflowMonotone oneEm (lit "a") 100 9 3 (9 / 3) 9 /\
   9 / 3 <= 9 <= 9 /\
   overflowAt oneEm (lit "a") 100 9 3 9 = false /\
   fitText oneEm 5 (lit "a") 100 9 3
     = Returns (Some (mkFit 8 [mkLine (lit "a") 8 None None]))).
Proof.
  split.
  - split; [apply overflowMonotoneb_sound; vm_compute; reflexivity|].
    split; [vm_compute; split; discriminate|].
    split; vm_compute; reflexivity.
  - split; [apply overflowMonotoneb_sound; vm_compute; reflexivity|].
    split; [vm_compute; split; discriminate|].
    split; vm_compute; reflexivity.
Qed.

(** The size of a collapsed window is returned even when its wrap
    overflows: with a cap of one line the range is the single size
    [height], and ["aaaa"] at 10 in a box 10 wide takes four lines. *)
Example fitText_accepts_overflow :
  fitText oneEm 1 (lit "aaaa") 10 10 1
    = Returns (Some (mkFit 10 (wrapText oneEm (lit "aaaa") 10 10))) /\
  length (wrapText oneEm (lit "aaaa") 10 10) = 4%nat /\
  overflowAt oneEm (lit "aaaa") 10 10 1 10 = true.
Proof. repeat split; vm_compute; reflexivity. Qed.

(** ** The layout finisher *)

Section Finisher.

Variable measure : Z -> jsstring -> Q.
Variables (text : jsstring) (width height : Q) (maxWrap : Z).

(** What the finisher keeps: all the lines when they respect the cap, else
    the first [maxWrap] of them with an ellipsis on the last. *)
Lemma discardOverflowed_inv (ls kept : list Line) :
  discardOverflowed ls maxWrap = Returns kept ->
  (Z.of_nat (length ls) <= maxWrap /\ kept = ls) \/
  (1 <= maxWrap < Z.of_nat (length ls) /\
   kept = alter addEllipsis (pred (Z.to_nat maxWrap)) (take (Z.to_nat maxWrap) ls)).
Proof.
  unfold discardOverflowed, setLength.
  destruct (Z.ltb_spec maxWrap (Z.of_nat (length ls))) as [Hov|Hfit].
  - destruct (Z.ltb_spec maxWrap 0) as [|Hnn]; [discriminate|]. simpl.
    unfold ellipsizeLast.
    destruct (take (Z.to_nat maxWrap) ls) as [|l kept'] eqn:Hk; [discriminate|].
    rewrite <- Hk. intros [= <-]. right.
    assert (Hlen : length (take (Z.to_nat maxWrap) ls) = Z.to_nat maxWrap)
      by (apply length_take_le; lia).
    rewrite Hlen. split; [|reflexivity].
    rewrite Hk in Hlen. simpl in Hlen. lia.
  - intros [= <-]. left. split; [lia|reflexivity].
Qed.

Lemma discardOverflowed_returns (ls : list Line) :
  1 <= maxWrap -> exists kept, discardOverflowed ls maxWrap = Returns kept.
Proof.
  intros Hm. unfold discardOverflowed, setLength.
  destruct (Z.ltb_spec maxWrap (Z.of_nat (length ls))) as [Hov|Hfit]; [|eauto].
  destruct (Z.ltb_spec maxWrap 0); [lia|]. simpl. unfold ellipsizeLast.
  destruct (take (Z.to_nat maxWrap) ls) as [|l kept'] eqn:Hk; [|eauto].
  apply (f_equal length) in Hk. rewrite length_take_le in Hk by lia.
  simpl in Hk. lia.
Qed.

Lemma discardOverflowed_length (ls kept : list Line) :
  discardOverflowed ls maxWrap = Returns kept ->
  Z.of_nat (length kept) <= maxWrap.
Proof.
  intros H. apply discardOverflowed_inv in H as [[Hle ->]|[Hm ->]]; [exact Hle|].
  rewrite length_alter, length_take_le; lia.
Qed.

(** The pieces of a call of [calcLayout] that returns. *)
Lemma calcLayout_inv (fuel : nat) (r : LayoutResult) :
  calcLayout measure fuel text width height maxWrap = Returns r ->
  exists fontSize ls kept,
    fitText measure fuel text width height maxWrap = Returns (Some (mkFit fontSize ls)) /\
    discardOverflowed ls maxWrap = Returns kept /\
    r = mkLayout (getFontFor fontSize)
          (imap (place width fontSize (offsetYOf height fontSize kept)) kept).
Proof.
  unfold calcLayout.
  destruct (fitText _ _ _ _ _ _) as [[[fontSize ls]|]| |]; simpl; try discriminate.
  destruct (discardOverflowed ls maxWrap) as [kept| |] eqn:Hk; simpl; try discriminate.
  intros [= <-]. now exists fontSize, ls, kept.
Qed.

Lemma calcLayout_fitted (fuel : nat) (fontSize : Z) (ls kept : list Line) :
  fitText measure fuel text width height maxWrap = Returns (Some (mkFit fontSize ls)) ->
  discardOverflowed ls maxWrap = Returns kept ->
  calcLayout measure fuel text width height maxWrap
  = Returns (mkLayout (getFontFor fontSize)
               (imap (place width fontSize (offsetYOf height fontSize kept)) kept)).
Proof. intros Hf Hd. unfold calcLayout. rewrite Hf. simpl. now rewrite Hd. Qed.

(** A call that returns had a line cap of at least one. *)
Lemma calcLayout_cap_positive (fuel : nat) (r : LayoutResult) :
  calcLayout measure fuel text width height maxWrap = Returns r -> 1 <= maxWrap.
Proof.
  intros H. apply calcLayout_inv in H as (fontSize & ls & kept & Hf & Hd & _).
  apply discardOverflowed_inv in Hd as [[Hle _]|[Hm _]]; [|lia].
  assert (maxWrap <> 0).
  { now apply fitText_lower in Hf. }
  lia.
Qed.

(** Fuel beyond what a call needs does not change how it ends. *)
Lemma calcLayout_fuel (fuel fuel' : nat) (o : outcome LayoutResult) :
  calcLayout measure fuel text width height maxWrap = o ->
  o <> OutOfFuel -> (fuel <= fuel')%nat ->
  calcLayout measure fuel' text width height maxWrap = o.
Proof.
  unfold calcLayout. intros <- Hends Hle.
  destruct (fitText measure fuel text width height maxWrap) as [fitted|e|] eqn:Hf.
  - now rewrite (fitText_fuel _ _ _ _ _ _ _ _ Hf Hle).
  - exfalso. revert Hf. unfold fitText.
    destruct (floor_div height maxWrap); try discriminate.
    apply fitLoop_no_throw.
  - now contradiction Hends.
Qed.


End Finisher.

(** In a box whose height is a non-negative integer, with a line cap of at
    least one, [calcLayout] returns a layout, whatever the width. *)
Lemma calcLayout_returns measure fuel text width (height : Z) maxWrap :
  1 <= maxWrap -> 0 <= height -> (searchTurns height <= fuel)%nat ->
  exists r, calcLayout measure fuel text width (inject_Z height) maxWrap
            = Returns r.
Proof.
  intros Hm Hh Hf.
  destruct (fitText_returns measure text width height maxWrap fuel Hm Hh Hf)
    as [[fontSize ls] Hr].
  destruct (discardOverflowed_returns maxWrap ls Hm) as [kept Hk].
  eexists. eapply calcLayout_fitted; eassumption.
Qed.

(** ** What [calcLayout] returns *)

Lemma Qmult_le_nonneg_l (a b c : Q) : (0 <= a -> b <= c -> a * b <= a * c)%Q.
Proof.
  intros Ha Hbc. rewrite (Qmult_comm a b), (Qmult_comm a c).
  now apply Qmult_le_compat_r.
Qed.

(** C3, amended. A layout returned by [calcLayout] has at most [maxWrap]
    lines, on every input, and its lines come in the order of the wrap: the
    line at index [i] is the line at index [i] of the wrap at the chosen
    font size (with the ellipsis, if it got one).  In a box of non-negative
    height the lines are in order from top to bottom: no line is drawn above
    a line before it.  Such a layout is returned for every line cap of at
    least one and every height that is an integer with
    [0 <= height < 2 ^ 52]. *)
Theorem calcLayout_line_cap measure fuel text width :
  (forall (height : Q) (maxWrap : Z) (r : LayoutResult),
     calcLayout measure fuel text width height maxWrap = Returns r ->
     Z.of_nat (length (lines r)) <= maxWrap /\
     (exists fontSize,
        font r = getFontFor fontSize /\
        forall (i : nat) (line : Line), lines r !! i = Some line ->
          exists l0, wrapText measure text fontSize width !! i = Some l0 /\
            (line_text line = line_text l0 \/
             line_text line = line_text l0 ++ ellipsis)) /\
     ((0 <= height)%Q ->
      forall (i j : nat) (a b : Line), (i <= j)%nat ->
        lines r !! i = Some a -> lines r !! j = Some b -> notBelow a b)) /\
  (forall height maxWrap : Z, 1 <= maxWrap -> 0 <= height < 2 ^ 52 ->
     (searchTurns height <= fuel)%nat ->
     exists r,
       calcLayout measure fuel text width (inject_Z height) maxWrap = Returns r /\
       Z.of_nat (length (lines r)) <= maxWrap /\
       forall (i j : nat) (a b : Line), (i <= j)%nat ->
         lines r !! i = Some a -> lines r !! j = Some b -> notBelow a b).
Proof.
  assert (Hany : forall (height : Q) (maxWrap : Z) (r : LayoutResult),
     calcLayout measure fuel text width height maxWrap = Returns r ->
     Z.of_nat (length (lines r)) <= maxWrap /\
     (exists fontSize,
        font r = getFontFor fontSize /\
        forall (i : nat) (line : Line), lines r !! i = Some line ->
          exists l0, wrapText measure text fontSize width !! i = Some l0 /\
            (line_text line = line_text l0 \/
             line_text line = line_text l0 ++ ellipsis)) /\
     ((0 <= height)%Q ->
      forall (i j : nat) (a b : Line), (i <= j)%nat ->
        lines r !! i = Some a -> lines r !! j = Some b -> notBelow a b)).
  { intros height maxWrap r H.
    pose proof (calcLayout_cap_positive _ _ _ _ _ _ _ H) as Hm.
    apply calcLayout_inv in H as (fontSize & ls & kept & Hf & Hd & ->).
    apply fitText_lower in Hf as (_ & Hlo & Hls).
    cbn [fit_fontSize fit_lines] in Hlo, Hls.
    simpl. split; [|split].
    - rewrite length_imap. now apply discardOverflowed_length in Hd.
    - exists fontSize. split; [reflexivity|]. intros i line Hi.
      rewrite list_lookup_imap in Hi.
      destruct (kept !! i) as [k|] eqn:Hk; [|discriminate].
      injection Hi as <-. simpl. rewrite <- Hls.
      apply discardOverflowed_inv in Hd as [[_ ->]|[Hcap ->]].
      + exists k. auto.
      + assert (Hin : (i < Z.to_nat maxWrap)%nat).
        { apply lookup_lt_Some in Hk.
          rewrite length_alter, length_take_le in Hk; lia. }
        destruct (decide (i = pred (Z.to_nat maxWrap))) as [->|Hne].
        * rewrite list_lookup_alter_eq, lookup_take_lt in Hk by lia.
          destruct (ls !! pred (Z.to_nat maxWrap)) as [l0|]; [|discriminate].
          injection Hk as <-. exists l0. auto.
        * rewrite list_lookup_alter_ne, lookup_take_lt in Hk by lia.
          exists k. auto.
    - intros Hh i j a b Hij Ha Hb.
      assert (Hfs : 0 <= fontSize).
      { pose proof (floor_div_nonneg height maxWrap Hh Hm). lia. }
      rewrite list_lookup_imap in Ha, Hb.
      destruct (kept !! i) as [a0|]; [|discriminate].
      destruct (kept !! j) as [b0|]; [|discriminate].
      injection Ha as <-. injection Hb as <-.
      unfold notBelow. simpl.
      apply Qplus_le_r, Qmult_le_nonneg_l.
      + change 0%Q with (inject_Z 0). now rewrite <- Zle_Qle.
      + apply Qplus_le_l. rewrite <- Zle_Qle. lia. }
  split; [exact Hany|].
  intros height maxWrap Hm Hh Hfuel.
  destruct (calcLayout_returns measure fuel text width height maxWrap Hm
              ltac:(lia) Hfuel) as [r Hr].
  exists r. split; [exact Hr|].
  destruct (Hany _ _ _ Hr) as (Hcap & _ & Horder).
  split; [exact Hcap|]. apply Horder.
  change 0%Q with (inject_Z 0). rewrite <- Zle_Qle. lia.
Qed.

(** ["abcdefgh"], ten pixels a character, in a box of 30 by 100 with a cap
    of two lines: the wrap at the chosen size 50 has three lines, the layout
    keeps two, the second with the ellipsis, one below the other. *)
Lemma calcLayout_line_cap_witness :
  length (wrapText tenPx (lit "abcdefgh") 50 30) = 3%nat /\
  calcLayout tenPx 8 (lit "abcdefgh") 30 100 2
    = Returns (mkLayout (lit "50px sans-serif")
        [mkLine (lit "abc") 30 (Some (0 # 2)) (Some (8800 # 200));
         mkLine (lit "def" ++ ellipsis) 30 (Some (0 # 2)) (Some (18800 # 200))]) /\
  Z.of_nat 2 <= 2 /\
  notBelow (mkLine (lit "abc") 30 (Some (0 # 2)) (Some (8800 # 200)))
           (mkLine (lit "def" ++ ellipsis) 30 (Some (0 # 2)) (Some (18800 # 200))) /\
  exists r,
    calcLayout tenPx 8 (lit "abcdefgh") 30 (inject_Z 100) 2 = Returns r /\
    Z.of_nat (length (lines r)) <= 2.
Proof.
  assert (Hr : calcLayout tenPx 8 (lit "abcdefgh") 30 100 2
    = Returns (mkLayout (lit "50px sans-serif")
        [mkLine (lit "abc") 30 (Some (0 # 2)) (Some (8800 # 200));
         mkLine (lit "def" ++ ellipsis) 30 (Some (0 # 2)) (Some (18800 # 200))]))
    by (vm_compute; reflexivity).
  split; [vm_compute; reflexivity|]. split; [exact Hr|].
  destruct (calcLayout_line_cap tenPx 8 (lit "abcdefgh") 30) as [Hany Hint].
  destruct (Hany 100%Q 2 _ Hr) as (Hcap & _ & Horder).
  split; [exact Hcap|]. split.
  - apply (Horder ltac:(discriminate) 0%nat 1%nat); [lia|reflexivity|reflexivity].
  - destruct (Hint 100 2 ltac:(lia) ltac:(lia) ltac:(vm_compute; lia))
      as (r & Hret & Hle & _).
    exists r. split; [exact Hret|exact Hle].
Defined.

(** C3 as stated fails on a negative height.  ["ab"], ten pixels a
    character, in a box of 15 by -1 with a cap of two lines: the window is
    [[-1, -1]], the chosen font size is -1, the wrap has the two lines
    ["a"] and ["b"], and [y] is -0.38 for the first and -1.38 for the
    second: the second line is drawn above the first. *)
Lemma calcLayout_line_cap_counterexample :
  calcLayout tenPx 1 (lit "ab") 15 (-1) 2
    = Returns (mkLayout (lit "-1px sans-serif")
        [mkLine (lit "a") 10 (Some (5 # 2)) (Some (-76 # 200));
         mkLine (lit "b") 10 (Some (5 # 2)) (Some (-276 # 200))]) /\
  ~ notBelow (mkLine (lit "a") 10 (Some (5 # 2)) (Some (-76 # 200)))
             (mkLine (lit "b") 10 (Some (5 # 2)) (Some (-276 # 200))).
Proof.
  split; [vm_compute; reflexivity|].
  unfold notBelow. simpl. intros H. apply Qle_bool_iff in H. discriminate.
Qed.

Lemma endsWithEllipsis_append (s : jsstring) :
  endsWithEllipsis (s ++ ellipsis) = true.
Proof. unfold endsWithEllipsis, ellipsis. now rewrite last_snoc. Qed.

(** C4, amended. When the wrap chosen by the fitter has more than
    [maxWrap] lines (and [maxWrap] is not negative), [calcLayout] keeps
    exactly the first [maxWrap] of them; the last kept line gets an ellipsis
    appended to its text and ends with it; its stored width is the one the
    wrapper gave it; every other kept line has the text and the width the
    wrapper gave it. *)
Theorem calcLayout_truncates measure fuel text width height maxWrap fontSize ls :
  fitText measure fuel text width height maxWrap
    = Returns (Some (mkFit fontSize ls)) ->
  maxWrap < Z.of_nat (length ls) -> 0 <= maxWrap ->
  exists r,
    calcLayout measure fuel text width height maxWrap = Returns r /\
    Z.of_nat (length (lines r)) = maxWrap /\
    (forall (i : nat) (line : Line), lines r !! i = Some line ->
       exists l0, ls !! i = Some l0 /\
         line_width line = line_width l0 /\
         line_text line
           = if decide (i = pred (Z.to_nat maxWrap))
             then line_text l0 ++ ellipsis else line_text l0) /\
    (exists line, last (lines r) = Some line /\
                  endsWithEllipsis (line_text line) = true).
Proof.
  intros Hf Hov Hnn.
  destruct (fitText_lower _ _ _ _ _ _ _ Hf) as (Hm0 & _ & _).
  assert (Hm : 1 <= maxWrap) by lia.
  destruct (discardOverflowed_returns maxWrap ls Hm) as [kept Hk].
  eexists. split; [eapply calcLayout_fitted; eassumption|].
  apply discardOverflowed_inv in Hk as [[Hle _]|[_ ->]]; [lia|].
  set (n := Z.to_nat maxWrap).
  assert (Hn : (0 < n <= length ls)%nat) by lia.
  simpl. split; [|split].
  - rewrite length_imap, length_alter, length_take_le; lia.
  - intros i line Hi. rewrite list_lookup_imap in Hi.
    destruct (alter addEllipsis (pred n) (take n ls) !! i) as [k|] eqn:Hki;
      [|discriminate].
    injection Hi as <-. simpl.
    assert (Hin : (i < n)%nat).
    { apply lookup_lt_Some in Hki.
      rewrite length_alter, length_take_le in Hki; lia. }
    destruct (decide (i = pred n)) as [->|Hne].
    + rewrite list_lookup_alter_eq, lookup_take_lt in Hki by lia.
      destruct (ls !! pred n) as [l0|]; [|discriminate].
      injection Hki as <-. now exists l0.
    + rewrite list_lookup_alter_ne, lookup_take_lt in Hki by lia.
      now exists k.
  - rewrite last_lookup, length_imap, length_alter, length_take_le by lia.
    rewrite list_lookup_imap, list_lookup_alter_eq, lookup_take_lt by lia.
    destruct (lookup_lt_is_Some_2 ls (pred n) ltac:(lia)) as [l0 ->].
    eexists. split; [reflexivity|]. simpl. apply endsWithEllipsis_append.
Qed.

Lemma calcLayout_truncates_witness :
  fitText tenPx 7 (lit "abcdefgh") 30 100 2
    = Returns (Some (mkFit 50
        [mkLine (lit "abc") 30 None None; mkLine (lit "def") 30 None None;
         mkLine (lit "gh") 20 None None])) /\
  exists r,
    calcLayout tenPx 7 (lit "abcdefgh") 30 100 2 = Returns r /\
    Z.of_nat (length (lines r)) = 2 /\
    (exists line, last (lines r) = Some line /\
                  endsWithEllipsis (line_text line) = true).
Proof.
  assert (Hf : fitText tenPx 7 (lit "abcdefgh") 30 100 2
    = Returns (Some (mkFit 50
        [mkLine (lit "abc") 30 None None; mkLine (lit "def") 30 None None;
         mkLine (lit "gh") 20 None None])))
    by (vm_compute; reflexivity).
  split; [exact Hf|].
  destruct (calcLayout_truncates tenPx 7 (lit "abcdefgh") 30 100 2 50 _ Hf
              ltac:(simpl; lia) ltac:(lia)) as (r & Hr & Hlen & _ & Hlast).
  exists r. auto.
Defined.

(** C4 as stated fails: a line other than the last can end with an
    ellipsis, when the text has one there.  ["ab…defgh"] at ten pixels a
    character in a box 30 wide wraps into ["ab…"], ["def"], ["gh"]: three
    lines for a cap of two. *)
Lemma calcLayout_truncates_counterexample :
  exists fontSize ls r first,
    fitText tenPx 7 (lit "ab" ++ ellipsis ++ lit "defgh") 30 100 2
      = Returns (Some (mkFit fontSize ls)) /\
    2 < Z.of_nat (length ls) /\
    calcLayout tenPx 7 (lit "ab" ++ ellipsis ++ lit "defgh") 30 100 2 = Returns r /\
    length (lines r) = 2%nat /\
    lines r !! 0%nat = Some first /\
    line_text first = lit "ab" ++ ellipsis /\
    endsWithEllipsis (line_text first) = true.
Proof.
  do 4 eexists. repeat split; vm_compute; reflexivity.
Qed.

(** C5. In a layout returned by [calcLayout] with the font size chosen by
    the fitter, the line at index [i] has
    [x = (width - line.width) / 2] and
    [y = offsetY + fontSize * (i + 0.88)], where
    [offsetY = (height - fontSize * lines.length) / 2]; so every line is
    centred on its own: [x + line.width / 2] is [width / 2]. *)
Theorem calcLayout_coordinates measure fuel text width height maxWrap r :
  calcLayout measure fuel text width height maxWrap = Returns r ->
  exists fontSize ls,
    fitText measure fuel text width height maxWrap
      = Returns (Some (mkFit fontSize ls)) /\
    font r = getFontFor fontSize /\
    let offsetY :=
      ((height - inject_Z fontSize * inject_Z (Z.of_nat (length (lines r)))) / 2)%Q in
    forall (i : nat) (line : Line), lines r !! i = Some line ->
      line_x line = Some ((width - line_width line) / 2)%Q /\
      line_y line
        = Some (offsetY + inject_Z fontSize * (inject_Z (Z.of_nat i) + (88 # 100)))%Q /\
      ((width - line_width line) / 2 + line_width line / 2 == width / 2)%Q.
Proof.
  intros H. apply calcLayout_inv in H as (fontSize & ls & kept & Hf & Hd & ->).
  exists fontSize, ls. split; [exact Hf|]. split; [reflexivity|].
  intros offsetY i line Hi. simpl in Hi.
  rewrite list_lookup_imap in Hi.
  destruct (kept !! i) as [l0|]; [|discriminate].
  injection Hi as <-. simpl. repeat split.
  - subst offsetY. simpl. rewrite length_imap. reflexivity.
  - field.
Qed.

Lemma calcLayout_coordinates_witness :
  calcLayout tenPx 8 (lit "Hello") 200 100 3
    = Returns (mkLayout (lit "99px sans-serif")
        [mkLine (lit "Hello") 50 (Some (150 # 2)) (Some (17524 # 200))]) /\
  exists fontSize ls,
    fitText tenPx 8 (lit "Hello") 200 100 3 = Returns (Some (mkFit fontSize ls)) /\
    lit "99px sans-serif" = getFontFor fontSize /\
    forall (i : nat) (line : Line),
      [mkLine (lit "Hello") 50 (Some (150 # 2)) (Some (17524 # 200))] !! i = Some line ->
      line_x line = Some ((200 - line_width line) / 2)%Q /\
      line_y line
        = Some ((100 - inject_Z fontSize * inject_Z (Z.of_nat 1)) / 2
                + inject_Z fontSize * (inject_Z (Z.of_nat i) + (88 # 100)))%Q /\
      ((200 - line_width line) / 2 + line_width line / 2 == 200 / 2)%Q.
Proof.
  split; [vm_compute; reflexivity|].
  apply (calcLayout_coordinates tenPx 8 (lit "Hello") 200 100 3
           (mkLayout (lit "99px sans-serif")
              [mkLine (lit "Hello") 50 (Some (150 # 2)) (Some (17524 # 200))])).
  vm_compute; reflexivity.
Defined.

(** C6, amended. [calcLayout] validates nothing.  With [maxWrap = 0] and
    a height that is not negative the loop of the fitter is never entered,
    the fitter returns [undefined] and [calcLayout] fails with a
    [TypeError] on destructuring it.  With a negative [maxWrap] no layout is
    returned either: once the fitter has returned, [lines.length = maxWrap]
    is a [RangeError].  With a line cap of at least one and a height that is
    an integer with [0 <= height < 2 ^ 52] a layout is returned for every
    width, also a non-positive one, and for the height zero. *)
Theorem calcLayout_unvalidated measure fuel text width :
  (forall height : Q, (0 <= height)%Q ->
     calcLayout measure fuel text width height 0 = Throws TypeError) /\
  (forall (height : Q) (maxWrap : Z) (fitted : FitResult), maxWrap < 0 ->
     fitText measure fuel text width height maxWrap = Returns (Some fitted) ->
     calcLayout measure fuel text width height maxWrap = Throws RangeError) /\
  (forall height maxWrap : Z, 1 <= maxWrap -> 0 <= height < 2 ^ 52 ->
     (searchTurns height <= fuel)%nat ->
     exists r, calcLayout measure fuel text width (inject_Z height) maxWrap
               = Returns r).
Proof.
  repeat split.
  - intros height Hh. unfold calcLayout, fitText, floor_div. simpl.
    apply Qle_bool_iff in Hh. unfold Qgtb at 2. rewrite Hh. simpl.
    now destruct (Qgtb height 0).
  - intros height maxWrap [fontSize ls] Hm Hf. unfold calcLayout. rewrite Hf.
    simpl. unfold discardOverflowed, setLength.
    destruct (Z.ltb_spec maxWrap (Z.of_nat (length ls))); [|lia].
    destruct (Z.ltb_spec maxWrap 0); [reflexivity|lia].
  - intros height maxWrap Hm Hh. apply calcLayout_returns; [exact Hm|lia].
Qed.

Lemma calcLayout_unvalidated_witness :
  calcLayout oneEm 5 (lit "a") 0 10 0 = Throws TypeError /\
  calcLayout oneEm 5 (lit "a") 0 10 (-1) = Throws RangeError /\
  exists r, calcLayout oneEm 5 (lit "a") 0 10 1 = Returns r.
Proof.
  destruct (calcLayout_unvalidated oneEm 5 (lit "a") 0) as (H0 & Hneg & Hpos).
  split; [apply (H0 10%Q); discriminate|]. split.
  - apply (Hneg 10%Q (-1) (mkFit (-10) [mkLine (lit "a") (-10) None None]));
      [lia|vm_compute; reflexivity].
  - apply (Hpos 10 1); [lia|lia|vm_compute; lia].
Defined.

(** C6 as stated fails: a call with the non-positive width [0] (and one
    with the height [0]) returns a layout, and the call with [maxWrap = 0]
    ends in the [TypeError] of a destructuring, not in a rejection of the
    argument. *)
Lemma calcLayout_unvalidated_counterexample :
  (0 <= 0)%Q /\
  calcLayout oneEm 5 (lit "a") 0 10 1
    = Returns (mkLayout (lit "10px sans-serif")
        [mkLine ellipsis 0 (Some (0 # 2)) (Some (1760 # 200))]) /\
  calcLayout oneEm 5 (lit "a") 10 0 1
    = Returns (mkLayout (lit "0px sans-serif")
        [mkLine (lit "a") 0 (Some (10 # 2)) (Some (0 # 200))]) /\
  calcLayout oneEm 5 (lit "a") 10 10 0 = Throws TypeError.
Proof.
  repeat split; try (vm_compute; reflexivity). discriminate.
Qed.



(** The search can stop one below the largest size that fits, and this
    shows between two caps too: in a box of 10 by 10 the fitter chooses 5
    for a cap of two lines and 4 for a cap of three, where 5 still fits.
    The statement above says nothing of such a pair. *)
Example fitText_cap_slip :
  fitText oneEm 5 (lit "aaaa") 10 10 2
    = Returns (Some (mkFit 5 (wrapText oneEm (lit "aaaa") 5 10))) /\
  fitText oneEm 5 (lit "aaaa") 10 10 3
    = Returns (Some (mkFit 4 (wrapText oneEm (lit "aaaa") 4 10))) /\
  overflowAt oneEm (lit "aaaa") 10 10 3 5 = false.
Proof. repeat split; vm_compute; reflexivity. Qed.


(** C7, amended. For the empty text, with a line cap of at least one, a
    positive width and a height that is an integer with
    [0 < height < 2 ^ 52], [wrapText] gives no line, and [calcLayout]
    returns a layout whose [lines] is empty: neither raises an error. *)
Theorem calcLayout_empty_text measure fuel width (height : Z) maxWrap :
  1 <= maxWrap -> (0 < width)%Q -> 0 < height < 2 ^ 52 ->
  (searchTurns height <= fuel)%nat ->
  (forall fontSize, wrapText measure [] fontSize width = []) /\
  exists r, calcLayout measure fuel [] width (inject_Z height) maxWrap = Returns r /\
            lines r = [].
Proof.
  intros Hm _ Hh Hf. split; [reflexivity|].
  destruct (calcLayout_returns measure fuel [] width height maxWrap Hm
              ltac:(lia) Hf) as [r Hr].
  exists r. split; [exact Hr|].
  apply calcLayout_inv in Hr as (fontSize & ls & kept & Hfit & Hd & ->).
  apply fitText_lower in Hfit as (_ & _ & Hls). simpl in Hls. subst ls.
  apply discardOverflowed_inv in Hd as [[_ ->]|[Hlt _]].
  - reflexivity.
  - simpl in Hlt. lia.
Qed.

Lemma calcLayout_empty_text_witness :
  1 <= 3 /\ (0 < 200)%Q /\ 0 < 100 < 2 ^ 52 /\ (searchTurns 100 <= 8)%nat /\
  (forall fontSize, wrapText tenPx [] fontSize 200 = []) /\
  exists r, calcLayout tenPx 8 [] 200 100 3 = Returns r /\ lines r = [].
Proof.
  assert (H1 : 1 <= 3) by lia.
  assert (H2 : (0 < 200)%Q) by reflexivity.
  assert (H3 : 0 < 100 < 2 ^ 52) by lia.
  assert (H4 : (searchTurns 100 <= 8)%nat) by (vm_compute; lia).
  split; [exact H1|]. split; [exact H2|]. split; [exact H3|]. split; [exact H4|].
  exact (calcLayout_empty_text tenPx 8 200 100 3 H1 H2 H3 H4).
Defined.

(** C7 as stated fails on a height that is not an integer.  In a box of
    height 2.5 with a cap of two lines the window is [[1, 2.5]]: it is wider
    than one, its midpoint [floor (1.75)] is 1, the empty text does not
    overflow, and [minFontSize = fontSize] leaves the window as it was.  The
    call never returns. *)
Lemma calcLayout_empty_text_counterexample :
  1 <= 2 /\ (0 < 10)%Q /\ (0 < 5 # 2)%Q /\
  forall fuel, calcLayout tenPx fuel [] 10 (5 # 2) 2 = OutOfFuel.
Proof.
  split; [lia|]. split; [reflexivity|]. split; [reflexivity|].
  intros fuel. unfold calcLayout.
  change (fitText tenPx fuel [] 10 (5 # 2) 2)
    with (fitLoop tenPx fuel [] 10 (5 # 2) 2 1 (5 # 2)).
  now rewrite fitLoop_stuck.
Qed.

(** C9, amended. With a line cap of at least one and a height that is an
    integer of absolute value below [2 ^ 52], [calcLayout] ends:
    [searchTurns height] turns of the loop of the fitter are enough, and the
    whole call measures at most [(log2_up height + 1) * text.length] times.
    On every window between such integers, the loop returns when the window
    has a width of at most one ([maxFontSize - minFontSize <= 1]), and then
    returns the wrap at the midpoint whether it overflows or not; before
    that it only narrows the window. *)
Theorem calcLayout_terminates measure fuel text width (height : Z) maxWrap :
  1 <= maxWrap -> - 2 ^ 52 < height < 2 ^ 52 ->
  (searchTurns height <= fuel)%nat ->
  calcLayout measure fuel text width (inject_Z height) maxWrap <> OutOfFuel /\
  fst (fitTextC measure fuel text width (inject_Z height) maxWrap)
    = fitText measure fuel text width (inject_Z height) maxWrap /\
  (calcLayoutCalls measure fuel text width (inject_Z height) maxWrap
   <= (Z.to_nat (Z.log2_up height) + 1) * length text)%nat /\
  (forall (n : nat) (lo hi : Z),
     - 2 ^ 52 < lo -> lo <= hi -> hi < 2 ^ 52 -> hi - lo <= 1 ->
     let fontSize := (lo + hi) / 2 in
     fitLoop measure (S n) text width (inject_Z height) maxWrap lo (inject_Z hi)
     = Returns (Some (mkFit fontSize (wrapText measure text fontSize width)))) /\
  (forall (n : nat) (lo hi : Z),
     - 2 ^ 52 < lo -> lo <= hi -> hi < 2 ^ 52 -> 1 < hi - lo ->
     let fontSize := (lo + hi) / 2 in
     fitLoop measure (S n) text width (inject_Z height) maxWrap lo (inject_Z hi)
     = if overflowAt measure text width (inject_Z height) maxWrap fontSize
       then fitLoop measure n text width (inject_Z height) maxWrap
              lo (inject_Z (fontSize - 1))
       else fitLoop measure n text width (inject_Z height) maxWrap
              fontSize (inject_Z hi)).
Proof.
  intros Hm _ Hf. repeat split.
  - pose proof (fitText_ends measure text width height maxWrap fuel Hm Hf) as He.
    unfold calcLayout.
    destruct (fitText _ _ _ _ _ _) as [[[fontSize ls]|]| |]; simpl;
      try discriminate; try congruence.
    destruct (discardOverflowed_returns maxWrap ls Hm) as [kept ->]. discriminate.
  - apply fitTextC_fst.
  - unfold calcLayoutCalls.
    pose proof (fitTextC_calls measure text width height maxWrap fuel Hm) as Hc.
    unfold searchTurns in Hc. now rewrite Nat.add_1_r.
  - intros n lo hi _ Hle _ Hw. cbv zeta. rewrite fitLoop_S.
    destruct (Z.leb_spec lo hi); [|lia].
    destruct (Z.leb_spec (hi - lo) 1); [reflexivity|lia].
  - intros n lo hi _ Hle _ Hw. cbv zeta. rewrite fitLoop_S.
    destruct (Z.leb_spec lo hi); [|lia].
    destruct (Z.leb_spec (hi - lo) 1); [lia|reflexivity].
Qed.

Lemma calcLayout_terminates_witness :
  1 <= 3 /\ - 2 ^ 52 < 100 < 2 ^ 52 /\ (searchTurns 100 <= 8)%nat /\
  calcLayout tenPx 8 (lit "Hello") 200 100 3 <> OutOfFuel /\
  (calcLayoutCalls tenPx 8 (lit "Hello") 200 100 3
   <= (Z.to_nat (Z.log2_up 100) + 1) * length (lit "Hello"))%nat.
Proof.
  assert (H1 : 1 <= 3) by lia.
  assert (Hb : - 2 ^ 52 < 100 < 2 ^ 52) by lia.
  assert (H2 : (searchTurns 100 <= 8)%nat) by (vm_compute; lia).
  split; [exact H1|]. split; [exact Hb|]. split; [exact H2|].
  pose proof (calcLayout_terminates tenPx 8 (lit "Hello") 200 100 3 H1 Hb H2)
    as (Hends & _ & Hcalls & _).
  split; [exact Hends|exact Hcalls].
Defined.

(** C9 as stated fails on a height that is not an integer.  ["a"], one em
    a character, in a box of 100 by 2.5 with a cap of two lines: the window
    [[1, 2.5]] is wider than one, its midpoint is its lower end 1, the wrap
    at 1 does not overflow, and the loop never ends. *)
Lemma calcLayout_terminates_counterexample :
  1 <= 2 /\
  forall fuel, calcLayout oneEm fuel (lit "a") 100 (5 # 2) 2 = OutOfFuel.
Proof.
  split; [lia|]. intros fuel. unfold calcLayout.
  change (fitText oneEm fuel (lit "a") 100 (5 # 2) 2)
    with (fitLoop oneEm fuel (lit "a") 100 (5 # 2) 2 1 (5 # 2)).
  now rewrite fitLoop_stuck.
Qed.

(** On such a height the search can also give up without a result:
    ["aaaa"] in a box of 1 by 2.5 overflows at the midpoint 1 of
    [[1, 2.5]], the window becomes [[1, 0]], the fitter falls off its loop,
    and [calcLayout] fails on [undefined]. *)
Example calcLayout_fraction_undefined :
  fitText oneEm 2 (lit "aaaa") 1 (5 # 2) 2 = Returns None /\
  calcLayout oneEm 2 (lit "aaaa") 1 (5 # 2) 2 = Throws TypeError.
Proof. split; vm_compute; reflexivity. Qed.

(** * Further properties of the engine *)

(** ** The lines of the wrapper, one by one *)

Section WrapperLines.

Variable measure : Z -> jsstring -> Q.
Variables (fontSize : Z) (width : Q).

Local Abbreviation hasText := (fun l : Line => line_text l <> []).
Local Abbreviation exact :=
  (fun l : Line => line_width l = measure fontSize (line_text l)).
Local Abbreviation exactIfLong :=
  (fun l : Line => (2 <= length (line_text l))%nat -> exact l).

Lemma wrapStep_hasText (st : list Line * Line) (c : codeunit) :
  Forall hasText (fst st) -> hasText (snd st) ->
  Forall hasText (fst (wrapStep measure fontSize width st c)) /\
  hasText (snd (wrapStep measure fontSize width st c)).
Proof.
  destruct st as [acc line]. simpl. intros Hacc Hline. unfold wrapStep.
  destruct (Qgtb _ _); simpl.
  - split; [|discriminate]. apply Forall_app. split; [exact Hacc|].
    constructor; [exact Hline|constructor].
  - split; [exact Hacc|]. destruct (line_text line); discriminate.
Qed.

Lemma wrapLoop_hasText (text : jsstring) (st : list Line * Line) :
  Forall hasText (fst st) -> hasText (snd st) ->
  Forall hasText (fst (wrapLoop measure fontSize width text st)) /\
  hasText (snd (wrapLoop measure fontSize width text st)).
Proof.
  revert st. induction text as [|c text IH]; intros st Hacc Hline.
  - now split.
  - unfold wrapLoop. simpl. apply IH; now apply wrapStep_hasText.
Qed.

Lemma wrapFlush_hasText (st : list Line * Line) :
  Forall hasText (fst st) -> Forall hasText (wrapFlush st).
Proof.
  destruct st as [acc line]. simpl. intros Hacc.
  destruct (truthy (line_text line)) eqn:Ht; [|exact Hacc].
  apply Forall_app. split; [exact Hacc|].
  constructor; [now apply truthy_true|constructor].
Qed.

(** The array [lines] only grows at its end: a line that is in it stays
    where it is. *)
Lemma wrapStep_cons (l0 : Line) (acc : list Line) (line : Line) (c : codeunit) :
  wrapStep measure fontSize width (l0 :: acc, line) c
  = (l0 :: fst (wrapStep measure fontSize width (acc, line) c),
     snd (wrapStep measure fontSize width (acc, line) c)).
Proof. unfold wrapStep. now destruct (Qgtb _ _). Qed.

Lemma wrapLoop_cons (text : jsstring) (l0 : Line) (acc : list Line) (line : Line) :
  wrapLoop measure fontSize width text (l0 :: acc, line)
  = (l0 :: fst (wrapLoop measure fontSize width text (acc, line)),
     snd (wrapLoop measure fontSize width text (acc, line))).
Proof.
  revert acc line. induction text as [|c text IH]; intros acc line.
  - reflexivity.
  - unfold wrapLoop in *. cbn [fold_left]. rewrite wrapStep_cons.
    destruct (wrapStep measure fontSize width (acc, line) c) as [acc' line'].
    apply IH.
Qed.

Lemma wrapLoop_app (text more : jsstring) (st : list Line * Line) :
  wrapLoop measure fontSize width (text ++ more) st
  = wrapLoop measure fontSize width more (wrapLoop measure fontSize width text st).
Proof. unfold wrapLoop. apply fold_left_app. Qed.

Lemma wrapFlush_cons (l0 : Line) (acc : list Line) (line : Line) :
  wrapFlush (l0 :: acc, line) = l0 :: wrapFlush (acc, line).
Proof. unfold wrapFlush. now destruct (truthy (line_text line)). Qed.

Lemma wrapLoop_grows (text : jsstring) (st : list Line * Line) :
  exists more, fst (wrapLoop measure fontSize width text st) = fst st ++ more.
Proof.
  revert st. induction text as [|c text IH]; intros st.
  - exists []. simpl. now rewrite app_nil_r.
  - unfold wrapLoop in *. simpl.
    destruct (IH (wrapStep measure fontSize width st c)) as [more ->].
    destruct st as [acc line]. unfold wrapStep.
    destruct (Qgtb _ _); simpl; [|now exists more].
    exists (line :: more). now rewrite <- app_assoc.
Qed.

(** The wrap of a text that is not empty: an empty line first when its
    first character alone is wider than the box, and after it only lines
    with a text. *)
Lemma wrapText_first_char (c : codeunit) (rest : jsstring) :
  exists tail, Forall hasText tail /\
    wrapText measure (c :: rest) fontSize width
    = if Qgtb (measure fontSize [c]) width then emptyLine :: tail else tail.
Proof.
  unfold wrapText.
  change (wrapLoop measure fontSize width (c :: rest) ([], emptyLine))
    with (wrapLoop measure fontSize width rest
            (if Qgtb (measure fontSize [c]) width
             then ([emptyLine], mkLine [c] (measure fontSize [c] - 0) None None)
             else ([], mkLine [c] (measure fontSize [c]) None None))).
  destruct (Qgtb (measure fontSize [c]) width).
  - rewrite wrapLoop_cons, wrapFlush_cons.
    eexists. split; [|reflexivity].
    rewrite <- surjective_pairing.
    apply wrapFlush_hasText, wrapLoop_hasText; [constructor|discriminate].
  - eexists. split; [|reflexivity].
    apply wrapFlush_hasText, wrapLoop_hasText; [constructor|discriminate].
Qed.

(** Every line of a wrap after the first has a text. *)
Lemma wrapText_rest_hasText (text : jsstring) (i : nat) (l : Line) :
  wrapText measure text fontSize width !! S i = Some l -> line_text l <> [].
Proof.
  destruct text as [|c rest]; [discriminate|].
  destruct (wrapText_first_char c rest) as (tail & Htail & ->).
  rewrite Forall_lookup in Htail.
  destruct (Qgtb _ _); simpl; intros H; eapply Htail; eassumption.
Qed.

(** X3. Only the first line of a wrap can be empty, and it is empty
    exactly when the first character of the text alone is wider than the
    box: then [lines.push ({ ...line })] runs while [line.text] is still
    the empty string. *)
Theorem wrapText_empty_line (text : jsstring) :
  (forall (i : nat) (l : Line),
     wrapText measure text fontSize width !! S i = Some l -> line_text l <> []) /\
  ((exists l, wrapText measure text fontSize width !! 0%nat = Some l /\
              line_text l = [])
   <-> exists c rest, text = c :: rest /\
                      Qgtb (measure fontSize [c]) width = true).
Proof.
  split; [apply wrapText_rest_hasText|].
  destruct text as [|c rest].
  - split; [intros (l & Hl & _); discriminate|intros (c & rest & H & _); discriminate].
  - destruct (wrapText_first_char c rest) as (tail & Htail & ->).
    rewrite Forall_lookup in Htail.
    destruct (Qgtb (measure fontSize [c]) width) eqn:Hov.
    + split; [intros _; now exists c, rest|].
      intros _. exists emptyLine. now split.
    + split.
      * intros (l & Hl & Hempty). now apply Htail in Hl.
      * intros (c' & rest' & [= <- <-] & Hov'). congruence.
Qed.

(** The stored widths.  The state of the loop keeps: a line of two
    characters or more has the measured width of its text, and so has the
    first line when it has a text. *)
Local Abbreviation firstExact :=
  (fun (acc : list Line) (line : Line) =>
     match acc with
     | [] => hasText line -> exact line
     | l0 :: _ => hasText l0 -> exact l0
     end).

Lemma wrapStep_exact (st : list Line * Line) (c : codeunit) :
  Forall exactIfLong (fst st) -> exactIfLong (snd st) ->
  firstExact (fst st) (snd st) ->
  Forall exactIfLong (fst (wrapStep measure fontSize width st c)) /\
  exactIfLong (snd (wrapStep measure fontSize width st c)) /\
  firstExact (fst (wrapStep measure fontSize width st c))
             (snd (wrapStep measure fontSize width st c)).
Proof.
  destruct st as [acc line]. simpl. intros Hacc Hline Hfirst. unfold wrapStep.
  destruct (Qgtb _ _); simpl.
  - split; [|split].
    + apply Forall_app. split; [exact Hacc|]. constructor; [exact Hline|constructor].
    + simpl. lia.
    + destruct acc; simpl; exact Hfirst.
  - split; [exact Hacc|]. split; [reflexivity|].
    destruct acc; [reflexivity|exact Hfirst].
Qed.

Lemma wrapLoop_exact (text : jsstring) (st : list Line * Line) :
  Forall exactIfLong (fst st) -> exactIfLong (snd st) ->
  firstExact (fst st) (snd st) ->
  Forall exactIfLong (fst (wrapLoop measure fontSize width text st)) /\
  exactIfLong (snd (wrapLoop measure fontSize width text st)) /\
  firstExact (fst (wrapLoop measure fontSize width text st))
             (snd (wrapLoop measure fontSize width text st)).
Proof.
  revert st. induction text as [|c text IH]; intros st Hacc Hline Hfirst.
  - now repeat split.
  - unfold wrapLoop. simpl.
    destruct (wrapStep_exact st c Hacc Hline Hfirst) as (H1 & H2 & H3).
    now apply IH.
Qed.

(** X4. The stored width of a line is the measured width of its text for
    every line of two characters or more, and for the first line when it
    has a text. *)
Theorem wrapText_stored_width (text : jsstring) (i : nat) (l : Line) :
  wrapText measure text fontSize width !! i = Some l ->
  (2 <= length (line_text l))%nat \/ (i = 0%nat /\ line_text l <> []) ->
  line_width l = measure fontSize (line_text l).
Proof.
  unfold wrapText.
  destruct (wrapLoop_exact text ([], emptyLine)) as (Hacc & Hline & Hfirst);
    [constructor|simpl; lia|simpl; congruence|].
  destruct (wrapLoop measure fontSize width text ([], emptyLine)) as [acc line].
  simpl in *.
  assert (Hall : Forall exactIfLong (wrapFlush (acc, line))).
  { unfold wrapFlush. destruct (truthy (line_text line)); [|exact Hacc].
    apply Forall_app. split; [exact Hacc|]. constructor; [exact Hline|constructor]. }
  assert (Hhead : forall l0, wrapFlush (acc, line) !! 0%nat = Some l0 ->
                             line_text l0 <> [] -> exact l0).
  { unfold wrapFlush. destruct acc as [|a acc].
    - destruct (truthy (line_text line)); [|discriminate].
      simpl. intros l0 [= <-]. exact Hfirst.
    - assert (forall more l0, ((a :: acc) ++ more) !! 0%nat = Some l0 ->
                line_text l0 <> [] -> exact l0) as Hcons
        by (intros more l0 [= <-]; exact Hfirst).
      destruct (truthy (line_text line)); [apply Hcons|].
      specialize (Hcons []). now rewrite app_nil_r in Hcons. }
  intros Hl [Hlong|[-> Htext]].
  - rewrite Forall_lookup in Hall. exact (Hall i l Hl Hlong).
  - now apply Hhead.
Qed.

(** X5. Appending to the text leaves every line of the wrap but the last
    as it is: at a given font size, typing on changes only the last
    line. *)
Theorem wrapText_extends (text more : jsstring) (i : nat) (l : Line) :
  wrapText measure text fontSize width !! i = Some l ->
  (S i < length (wrapText measure text fontSize width))%nat ->
  wrapText measure (text ++ more) fontSize width !! i = Some l.
Proof.
  unfold wrapText. rewrite wrapLoop_app.
  destruct (wrapLoop measure fontSize width text ([], emptyLine)) as [acc line].
  destruct (wrapLoop_grows more (acc, line)) as [grown Hgrown].
  destruct (wrapLoop measure fontSize width more (acc, line)) as [acc' line'].
  simpl in Hgrown. subst acc'.
  intros Hl Hi.
  assert (Hacc : acc !! i = Some l).
  { revert Hl Hi. unfold wrapFlush.
    destruct (truthy (line_text line)); intros Hl Hi; [|exact Hl].
    rewrite length_app in Hi. simpl in Hi.
    rewrite lookup_app_l in Hl by lia. exact Hl. }
  apply lookup_lt_Some in Hacc as Hlt.
  unfold wrapFlush. destruct (truthy (line_text line')).
  - rewrite <- app_assoc. now rewrite lookup_app_l by lia.
  - now rewrite lookup_app_l by lia.
Qed.

(** The width of a line of one character.  The state of the loop keeps:
    a line of one character after another line has the width of the two
    texts together less the stored width of the line before. *)
Local Abbreviation estimated :=
  (fun prev l : Line =>
     length (line_text l) = 1%nat ->
     line_width l = (measure fontSize (line_text prev ++ line_text l)
                     - line_width prev)%Q).
Local Abbreviation adjacent :=
  (fun ls : list Line =>
     forall (i : nat) (prev l : Line),
       ls !! i = Some prev -> ls !! S i = Some l -> estimated prev l).

Lemma adjacent_snoc (ls : list Line) (line : Line) :
  adjacent ls -> (forall prev, last ls = Some prev -> estimated prev line) ->
  adjacent (ls ++ [line]).
Proof.
  intros Hadj Hlast i prev l Hprev Hl.
  apply lookup_lt_Some in Hl as Hlt. rewrite length_app in Hlt. simpl in Hlt.
  rewrite lookup_app_l in Hprev by lia.
  destruct (decide (S i = length ls)) as [Heq|Hne].
  - rewrite lookup_app_r, Heq, Nat.sub_diag in Hl by lia. injection Hl as <-.
    apply Hlast. rewrite last_lookup, <- Heq. exact Hprev.
  - rewrite lookup_app_l in Hl by lia. now apply (Hadj i).
Qed.

Lemma wrapStep_estimated (st : list Line * Line) (c : codeunit) :
  adjacent (fst st) ->
  (forall prev, last (fst st) = Some prev -> estimated prev (snd st)) ->
  (fst st <> [] -> hasText (snd st)) ->
  adjacent (fst (wrapStep measure fontSize width st c)) /\
  (forall prev, last (fst (wrapStep measure fontSize width st c)) = Some prev ->
     estimated prev (snd (wrapStep measure fontSize width st c))) /\
  (fst (wrapStep measure fontSize width st c) <> [] ->
   hasText (snd (wrapStep measure fontSize width st c))).
Proof.
  destruct st as [acc line]. simpl. intros Hadj Hlast Htext. unfold wrapStep.
  destruct (Qgtb _ _); simpl.
  - split; [now apply adjacent_snoc|]. split; [|discriminate].
    intros prev. rewrite last_snoc. now intros [= <-] _.
  - split; [exact Hadj|]. split.
    + intros prev Hprev. rewrite length_app. simpl. intros Hone.
      assert (Hacc : acc <> []) by (intros ->; discriminate).
      apply Htext in Hacc. destruct (line_text line); [congruence|simpl in Hone; lia].
    + intros _. destruct (line_text line); discriminate.
Qed.

Lemma wrapLoop_estimated (text : jsstring) (st : list Line * Line) :
  adjacent (fst st) ->
  (forall prev, last (fst st) = Some prev -> estimated prev (snd st)) ->
  (fst st <> [] -> hasText (snd st)) ->
  adjacent (fst (wrapLoop measure fontSize width text st)) /\
  (forall prev, last (fst (wrapLoop measure fontSize width text st)) = Some prev ->
     estimated prev (snd (wrapLoop measure fontSize width text st))).
Proof.
  revert st. induction text as [|c text IH]; intros st Hadj Hlast Htext.
  - now split.
  - unfold wrapLoop. simpl.
    destruct (wrapStep_estimated st c Hadj Hlast Htext) as (H1 & H2 & H3).
    now apply IH.
Qed.

(** X30. The stored width of a line of one character that is not the
    first line is an estimate: the measured width of the text of the line
    before it and its own character together, less the stored width of the
    line before it ("might be slightly off due to kerning"). *)
Theorem wrapText_estimated_width (text : jsstring) (i : nat) (prev l : Line) :
  wrapText measure text fontSize width !! i = Some prev ->
  wrapText measure text fontSize width !! S i = Some l ->
  length (line_text l) = 1%nat ->
  line_width l
  = (measure fontSize (line_text prev ++ line_text l) - line_width prev)%Q.
Proof.
  unfold wrapText.
  destruct (wrapLoop_estimated text ([], emptyLine)) as [Hadj Hlast];
    [intros j a b Ha; discriminate|discriminate|intros H; now contradiction H|].
  destruct (wrapLoop measure fontSize width text ([], emptyLine)) as [acc line].
  simpl in Hadj, Hlast. unfold wrapFlush.
  destruct (truthy (line_text line)).
  - intros Hprev Hl. exact (adjacent_snoc acc line Hadj Hlast i prev l Hprev Hl).
  - intros Hprev Hl. exact (Hadj i prev l Hprev Hl).
Qed.

End WrapperLines.

(** Fitting is closed under taking substrings when every character is ten
    pixels wide. *)
Lemma tenPx_closed (fontSize : Z) (maxWidth : Q) :
  substringClosed tenPx fontSize maxWidth.
Proof.
  intros a b _ _. unfold tenPx. rewrite length_app, Nat2Z.inj_add.
  intros H. split; (eapply Qle_trans; [|exact H]); rewrite <- Zle_Qle; lia.
Qed.

Lemma wrapText_minimal_witness :
  substringClosed tenPx 10 30 /\
  validSplit tenPx 10 30 (lit "abcdefgh") [lit "abc"; lit "def"; lit "gh"] /\
  (length (nonemptyLines (wrapText tenPx (lit "abcdefgh") 10 30)) <= 3)%nat.
Proof.
  assert (Hsplit : validSplit tenPx 10 30 (lit "abcdefgh")
                     [lit "abc"; lit "def"; lit "gh"]).
  { split; [reflexivity|].
    repeat (constructor; [left; vm_compute; discriminate|]). constructor. }
  split; [apply tenPx_closed|]. split; [exact Hsplit|].
  exact (wrapText_minimal tenPx 10 30 (tenPx_closed 10 30)
           (lit "abcdefgh") [lit "abc"; lit "def"; lit "gh"] Hsplit).
Defined.

Lemma wrapText_stored_width_witness :
  wrapText tenPx (lit "abcdefgh") 10 30 !! 2%nat = Some (mkLine (lit "gh") 20 None None) /\
  (2 <= length (lit "gh"))%nat /\
  (20 : Q) = tenPx 10 (lit "gh").
Proof.
  assert (Hl : wrapText tenPx (lit "abcdefgh") 10 30 !! 2%nat
               = Some (mkLine (lit "gh") 20 None None))
    by (vm_compute; reflexivity).
  assert (Hlong : (2 <= length (line_text (mkLine (lit "gh") 20 None None)))%nat)
    by (vm_compute; lia).
  split; [exact Hl|]. split; [exact Hlong|].
  exact (wrapText_stored_width tenPx 10 30 (lit "abcdefgh") 2
           (mkLine (lit "gh") 20 None None) Hl (or_introl Hlong)).
Defined.

Lemma wrapText_estimated_width_witness :
  wrapText oneEm (lit "abcd") 10 35 !! 0%nat = Some (mkLine (lit "abc") 30 None None) /\
  wrapText oneEm (lit "abcd") 10 35 !! 1%nat = Some (mkLine (lit "d") 10 None None) /\
  (10 : Q) = (oneEm 10 (lit "abc" ++ lit "d") - 30)%Q.
Proof.
  assert (Hprev : wrapText oneEm (lit "abcd") 10 35 !! 0%nat
                  = Some (mkLine (lit "abc") 30 None None))
    by (vm_compute; reflexivity).
  assert (Hl : wrapText oneEm (lit "abcd") 10 35 !! 1%nat
               = Some (mkLine (lit "d") 10 None None))
    by (vm_compute; reflexivity).
  split; [exact Hprev|]. split; [exact Hl|].
  exact (wrapText_estimated_width oneEm 10 35 (lit "abcd") 0
           (mkLine (lit "abc") 30 None None) (mkLine (lit "d") 10 None None)
           Hprev Hl eq_refl).
Defined.

Lemma wrapText_extends_witness :
  wrapText tenPx (lit "abcd") 10 30 !! 0%nat = Some (mkLine (lit "abc") 30 None None) /\
  (1 < length (wrapText tenPx (lit "abcd") 10 30))%nat /\
  wrapText tenPx (lit "abcd" ++ lit "efgh") 10 30 !! 0%nat
    = Some (mkLine (lit "abc") 30 None None).
Proof.
  assert (Hl : wrapText tenPx (lit "abcd") 10 30 !! 0%nat
               = Some (mkLine (lit "abc") 30 None None))
    by (vm_compute; reflexivity).
  assert (Hn : (1 < length (wrapText tenPx (lit "abcd") 10 30))%nat)
    by (vm_compute; lia).
  split; [exact Hl|]. split; [exact Hn|].
  exact (wrapText_extends tenPx 10 30 (lit "abcd") (lit "efgh") 0
           (mkLine (lit "abc") 30 None None) Hl Hn).
Defined.

(** ** The fitter against the largest size that fits *)

(** X6. On a height that is an integer with [0 <= height < 2 ^ 52], when
    a larger font size never gives fewer lines, the size the fitter returns
    is within one of every size of its range that fits: it is in the range
    [[floor (height / maxWrap), height]], its wrap fits, and no size of the
    range that fits is more than one above it. *)
Theorem fitText_within_one measure fuel text width (height : Z) maxWrap r s :
  1 <= maxWrap -> 0 <= height < 2 ^ 52 ->
  linesMonotone measure text width height ->
  height / maxWrap <= s <= height ->
  overflowAt measure text width (inject_Z height) maxWrap s = false ->
  fitText measure fuel text width (inject_Z height) maxWrap = Returns (Some r) ->
  height / maxWrap <= fit_fontSize r <= height /\
  fit_lines r = wrapText measure text (fit_fontSize r) width /\
  overflowAt measure text width (inject_Z height) maxWrap (fit_fontSize r) = false /\
  s <= fit_fontSize r + 1.
Proof.
  intros Hm [Hh _] Hmono Hs Hfit Hr.
  destruct (fitText_result _ _ _ _ _ _ _ Hr) as (_ & Hrange & Hlines).
  assert (Hov : overflowMonotone measure text width (inject_Z height) maxWrap
                  (height / maxWrap) height).
  { apply linesMonotone_overflow; [|exact Hmono]. apply Z.div_pos; lia. }
  destruct (fitText_near_largest measure fuel text width height maxWrap r Hm Hov)
    as [Hfits Habove]; [now exists s|exact Hr|].
  repeat split; try tauto.
  destruct (Z.le_gt_cases s (fit_fontSize r + 1)) as [|Hgt]; [assumption|].
  rewrite Habove in Hfit by lia. discriminate.
Qed.

Lemma fitText_within_one_witness :
  linesMonotone oneEm (lit "aaaa") 10 10 /\
  overflowAt oneEm (lit "aaaa") 10 10 3 5 = false /\
  fitText oneEm 5 (lit "aaaa") 10 10 3
    = Returns (Some (mkFit 4 (wrapText oneEm (lit "aaaa") 4 10))) /\
  5 <= 4 + 1.
Proof.
  assert (Hmono : linesMonotone oneEm (lit "aaaa") 10 10)
    by (apply linesMonotoneb_sound; vm_compute; reflexivity).
  assert (Hfit : overflowAt oneEm (lit "aaaa") 10 (inject_Z 10) 3 5 = false)
    by (vm_compute; reflexivity).
  assert (Hr : fitText oneEm 5 (lit "aaaa") 10 (inject_Z 10) 3
               = Returns (Some (mkFit 4 (wrapText oneEm (lit "aaaa") 4 10))))
    by (vm_compute; reflexivity).
  split; [exact Hmono|]. split; [exact Hfit|]. split; [exact Hr|].
  exact (proj2 (proj2 (proj2
    (fitText_within_one oneEm 5 (lit "aaaa") 10 10 3 _ 5
       ltac:(lia) ltac:(lia) Hmono ltac:(vm_compute; split; discriminate)
       Hfit Hr)))).
Defined.

(** ** The fitter on a height that is not an integer *)

Lemma Qfloor_half_le (lo : Z) (hi : Q) :
  (inject_Z (Qfloor ((inject_Z lo + hi) / 2)) * 2 <= inject_Z lo + hi)%Q.
Proof.
  pose proof (Qfloor_le ((inject_Z lo + hi) / 2)) as H.
  apply (Qmult_le_compat_r _ _ 2) in H; [|discriminate].
  eapply Qle_trans; [exact H|].
  rewrite Qmult_comm, Qmult_div_r by discriminate. apply Qle_refl.
Qed.

(** From a window wider than one below a fractional upper end, at sizes
    that do not overflow, the loop moves its lower end up and never gets
    the window down to a width of one: the lower end is an integer, so the
    width is never an integer, and a width between one and two is kept for
    ever. *)
Lemma fitLoop_fraction_stuck measure text width height maxWrap (lo0 : Z) (hi : Q) :
  (forall z : Z, ~ (hi == inject_Z z)%Q) ->
  (forall f : Z, lo0 <= f -> (inject_Z f <= hi)%Q ->
     overflowAt measure text width height maxWrap f = false) ->
  forall (fuel : nat) (lo : Z), lo0 <= lo -> (1 < hi - inject_Z lo)%Q ->
    fitLoop measure fuel text width height maxWrap lo hi = OutOfFuel.
Proof.
  intros Hfrac Hfits fuel.
  induction fuel as [|fuel IH]; intros lo Hlo Hwide.
  - cbn [fitLoop].
    replace (Qle_bool (inject_Z lo) hi) with true; [reflexivity|].
    symmetry. apply Qle_bool_iff. lra.
  - assert (Hle : Qle_bool (inject_Z lo) hi = true) by (apply Qle_bool_iff; lra).
    assert (Hw : Qle_bool (hi - inject_Z lo) 1 = false).
    { apply not_true_is_false. rewrite Qle_bool_iff. lra. }
    rewrite fitLoop_narrows by assumption.
    pose proof (midpoint_ge lo hi (proj1 (Qle_bool_iff _ _) Hle)) as Hge.
    pose proof (Qfloor_half_le lo hi) as Hhalf.
    set (mid := Qfloor ((inject_Z lo + hi) / 2)) in *.
    pose proof (Qfloor_le hi) as Hfl. pose proof (Qlt_floor hi) as Hfu.
    set (F := Qfloor hi) in *.
    assert (HF : (inject_Z F < hi)%Q).
    { apply Qle_lteq in Hfl as [Hlt|Heq]; [exact Hlt|].
      exfalso. apply (Hfrac F). now symmetry. }
    rewrite inject_Z_plus in Hfu. change (inject_Z 1) with 1%Q in Hfu.
    assert (HloF : lo + 1 <= F).
    { assert (lo + 1 < F + 1); [|lia].
      rewrite Zlt_Qlt, !inject_Z_plus. change (inject_Z 1) with 1%Q. lra. }
    assert (Hmid : mid + 1 <= F).
    { assert (2 * mid < lo + F + 1); [|lia].
      rewrite Zlt_Qlt, !inject_Z_plus, inject_Z_mult.
      change (inject_Z 1) with 1%Q. change (inject_Z 2) with 2%Q. lra. }
    assert (Hmid' : (inject_Z mid + 1 <= inject_Z F)%Q).
    { change 1%Q with (inject_Z 1). rewrite <- inject_Z_plus, <- Zle_Qle. exact Hmid. }
    rewrite Hfits by (try lia; lra).
    apply IH; [lia|lra].
Qed.

(** X7. On a height that is not an integer the search need not end.
    With a line cap of at least one and a height [n / 2 ^ k] with
    [0 <= n < 2 ^ 52] that is not an integer, for a text whose wrap
    overflows at no size of the range (the empty text, or a short text in a
    box that is wide enough), and a range wider than one
    ([height - floor (height / maxWrap) > 1]), a call of [calcLayout] never
    returns, however many turns of the loop are run. *)
Theorem fitText_fraction_diverges measure text width (height : Q) maxWrap (n k : Z) :
  1 <= maxWrap ->
  0 <= n < 2 ^ 52 -> 0 <= k ->
  (height == inject_Z n / inject_Z (2 ^ k))%Q ->
  (forall z : Z, ~ (height == inject_Z z)%Q) ->
  (1 < height - inject_Z (Qfloor (height / inject_Z maxWrap)))%Q ->
  (forall f : Z, Qfloor (height / inject_Z maxWrap) <= f ->
     (inject_Z f <= height)%Q ->
     overflowAt measure text width height maxWrap f = false) ->
  forall fuel : nat,
    fitText measure fuel text width height maxWrap = OutOfFuel /\
    calcLayout measure fuel text width height maxWrap = OutOfFuel.
Proof.
  intros Hm _ _ _ Hfrac Hwide Hfits fuel.
  assert (Hfit : fitText measure fuel text width height maxWrap = OutOfFuel).
  { unfold fitText, floor_div.
    destruct (Z.eqb_spec maxWrap 0) as [|_]; [lia|].
    apply (fitLoop_fraction_stuck measure text width height maxWrap
             (Qfloor (height / inject_Z maxWrap)) height Hfrac Hfits);
      [lia|exact Hwide]. }
  split; [exact Hfit|]. unfold calcLayout. now rewrite Hfit.
Qed.

Lemma fitText_fraction_diverges_witness :
  (1 < (7 # 2) - inject_Z (Qfloor ((7 # 2) / inject_Z 3)))%Q /\
  forall fuel : nat,
    fitText tenPx fuel [] 200 (7 # 2) 3 = OutOfFuel /\
    calcLayout tenPx fuel [] 200 (7 # 2) 3 = OutOfFuel.
Proof.
  assert (Hwide : (1 < (7 # 2) - inject_Z (Qfloor ((7 # 2) / inject_Z 3)))%Q)
    by reflexivity.
  split; [exact Hwide|].
  apply (fitText_fraction_diverges tenPx [] 200 (7 # 2) 3 7 1).
  - lia.
  - lia.
  - lia.
  - reflexivity.
  - intros z. unfold Qeq. simpl. lia.
  - exact Hwide.
  - intros f _ _. unfold overflowAt, hasOverflow. simpl.
    rewrite Z.mul_0_r. reflexivity.
Defined.

(** ** The search in binary64 and on exact numbers *)

Lemma round64_small (z : Z) : - 2 ^ 53 < z < 2 ^ 53 -> round64 z = z.
Proof.
  intros Hz. unfold round64.
  destruct (Z.leb_spec (Z.log2 (Z.abs z) - 52) 0) as [|Hgt]; [reflexivity|].
  exfalso.
  assert (Ha : 0 < Z.abs z) by (destruct (Z.abs z) eqn:E; simpl in Hgt; lia).
  pose proof (proj1 (Z.log2_lt_pow2 (Z.abs z) 53 Ha)) as Hl. lia.
Qed.

Lemma round64_large (z : Z) : 2 ^ 53 <= z -> 2 ^ 53 <= round64 z.
Proof.
  intros Hz. unfold round64.
  assert (Ha : Z.abs z = z) by lia. rewrite Ha.
  destruct (Z.leb_spec (Z.log2 z - 52) 0) as [|Hgt]; [assumption|].
  set (e := Z.log2 z - 52) in *.
  assert (Hs : Z.sgn z = 1) by lia. rewrite Hs, Z.mul_1_l.
  pose proof (Z.log2_spec z ltac:(lia)) as [Hlow _].
  replace (Z.log2 z) with (52 + e) in Hlow by lia.
  rewrite Z.pow_add_r in Hlow by lia.
  assert (Hp : 2 <= 2 ^ e).
  { change 2 with (2 ^ 1) at 1. apply Z.pow_le_mono_r; lia. }
  assert (Hq : 2 ^ 52 <= z / 2 ^ e).
  { apply Z.div_le_lower_bound; lia. }
  set (q := z / 2 ^ e) in *.
  assert (Hq' : q <= (if z mod 2 ^ e <? 2 ^ (e - 1) then q
      else if 2 ^ (e - 1) <? z mod 2 ^ e then q + 1
      else if Z.even q then q else q + 1)).
  { repeat match goal with |- context [if ?b then _ else _] => destruct b end; lia. }
  etransitivity; [|apply Z.mul_le_mono_nonneg; [| exact Hq'| |exact Hp]]; lia.
Qed.

Lemma round64_opp (z : Z) : round64 (- z) = - round64 z.
Proof.
  unfold round64. rewrite Z.abs_opp, Z.sgn_opp.
  destruct (Z.log2 (Z.abs z) - 52 <=? 0); lia.
Qed.

(** Against a height of absolute value below [2 ^ 52] the rounded product
    compares as the exact one: a product that is rounded at all is beyond
    [2 ^ 53] on its side of zero, and stays there. *)
Lemma round64_compare (height p : Z) :
  - 2 ^ 52 < height < 2 ^ 52 -> (height <? round64 p) = (height <? p).
Proof.
  intros Hh.
  destruct (Z.le_gt_cases (2 ^ 53) p) as [Hbig|Hlt].
  - pose proof (round64_large p Hbig).
    destruct (Z.ltb_spec height (round64 p)), (Z.ltb_spec height p); lia.
  - destruct (Z.le_gt_cases p (- 2 ^ 53)) as [Hneg|Hgt].
    + pose proof (round64_large (- p) ltac:(lia)) as H. rewrite round64_opp in H.
      destruct (Z.ltb_spec height (round64 p)), (Z.ltb_spec height p); lia.
    + now rewrite round64_small by lia.
Qed.

(** For a height and a window between integers of absolute value below
    [2 ^ 52] the loop in binary64 is the loop on exact numbers: it takes
    the same turns and ends in the same way. *)
Lemma fitLoop64_exact measure text width (height maxWrap : Z) :
  - 2 ^ 52 < height < 2 ^ 52 ->
  forall (fuel : nat) (lo hi : Z), - 2 ^ 52 < lo -> hi < 2 ^ 52 ->
    fitLoop64 measure fuel text width height maxWrap lo hi
    = fitLoop measure fuel text width (inject_Z height) maxWrap lo (inject_Z hi).
Proof.
  intros Hh fuel. induction fuel as [|fuel IH]; intros lo hi Hlo Hhi.
  - rewrite fitLoop_O. reflexivity.
  - rewrite fitLoop_S. cbn [fitLoop64].
    destruct (Z.leb_spec lo hi) as [Hle|]; [|reflexivity].
    rewrite !round64_small by lia.
    assert (Hmid : lo <= (lo + hi) / 2 <= hi).
    { split; [apply Z.div_le_lower_bound|apply Z.div_le_upper_bound]; lia. }
    rewrite round64_small by lia.
    unfold overflowAt. rewrite hasOverflow_inject. unfold hasOverflow64.
    rewrite round64_compare by exact Hh.
    destruct (hi - lo <=? 1); [reflexivity|].
    destruct (_ || _); apply IH; lia.
Qed.

(** Beyond the bound the two part.  At the height [2 ^ 53 + 2] the search
    for the empty text comes to the window [[2 ^ 53, 2 ^ 53 + 2]]; the sum
    of its ends is rounded to [2 ^ 54], the midpoint is the lower end, and
    the loop in binary64 keeps this window for ever. *)
Lemma fitLoop64_stuck measure width (maxWrap : Z) (fuel : nat) :
  1 <= maxWrap ->
  fitLoop64 measure fuel [] width (2 ^ 53 + 2) maxWrap (2 ^ 53) (2 ^ 53 + 2)
  = OutOfFuel.
Proof.
  intros Hm. induction fuel as [|fuel IH]; [reflexivity|].
  cbn [fitLoop64].
  change (2 ^ 53 <=? 2 ^ 53 + 2) with true. cbv iota.
  change (round64 (2 ^ 53 + (2 ^ 53 + 2)) / 2) with (2 ^ 53).
  change (round64 (2 ^ 53 + 2 - 2 ^ 53) <=? 1) with false. cbv iota.
  unfold hasOverflow64.
  replace (wrapText measure [] (2 ^ 53) width) with (@nil Line) by reflexivity.
  cbn [length]. rewrite Z.mul_0_r.
  destruct (Z.ltb_spec maxWrap (Z.of_nat 0)); [simpl in *; lia|].
  change (2 ^ 53 + 2 <? round64 0) with false. cbv [orb]. exact IH.
Qed.

(** From the whole range of a cap of two lines, [[2 ^ 52 + 1, 2 ^ 53 + 2]],
    the loop in binary64 has not returned after 200 turns, where the loop
    on exact numbers returns [2 ^ 53 + 1] within [searchTurns]. *)
Example fitLoop64_parts :
  fitLoop64 tenPx 200 [] 10 (2 ^ 53 + 2) 2 (2 ^ 52 + 1) (2 ^ 53 + 2) = OutOfFuel /\
  fitLoop tenPx (searchTurns (2 ^ 53 + 2)) [] 10 (inject_Z (2 ^ 53 + 2)) 2
    (2 ^ 52 + 1) (inject_Z (2 ^ 53 + 2))
  = Returns (Some (mkFit (2 ^ 53 + 1) [])).
Proof. split; vm_compute; reflexivity. Qed.

(** At the height [2 ^ 53] the last midpoint is rounded up: for ["a"], one
    em a character, in a box [2 ^ 53 - 1] wide with a cap of three lines
    the loop in binary64 returns the size [2 ^ 53] with two lines, which
    overflow, and the loop on exact numbers the size [2 ^ 53 - 1], which
    fits. *)
Example fitLoop64_rounds_up :
  fitLoop64 oneEm 60 (lit "a") (inject_Z (2 ^ 53 - 1)) (2 ^ 53) 3
    (2 ^ 53 / 3) (2 ^ 53)
  = Returns (Some (mkFit (2 ^ 53)
      (wrapText oneEm (lit "a") (2 ^ 53) (inject_Z (2 ^ 53 - 1))))) /\
  length (wrapText oneEm (lit "a") (2 ^ 53) (inject_Z (2 ^ 53 - 1))) = 2%nat /\
  hasOverflow64 (2 ^ 53) 3 (2 ^ 53)
    (wrapText oneEm (lit "a") (2 ^ 53) (inject_Z (2 ^ 53 - 1))) = true /\
  fitLoop oneEm 60 (lit "a") (inject_Z (2 ^ 53 - 1)) (inject_Z (2 ^ 53)) 3
    (2 ^ 53 / 3) (inject_Z (2 ^ 53))
  = Returns (Some (mkFit (2 ^ 53 - 1)
      (wrapText oneEm (lit "a") (2 ^ 53 - 1) (inject_Z (2 ^ 53 - 1))))) /\
  overflowAt oneEm (lit "a") (inject_Z (2 ^ 53 - 1)) (inject_Z (2 ^ 53)) 3
    (2 ^ 53 - 1) = false.
Proof. repeat split; vm_compute; reflexivity. Qed.

(** ** What a layout shows of the text *)

Lemma joined_imap (f : nat -> Line -> Line) (ls : list Line) :
  (forall i l, line_text (f i l) = line_text l) ->
  joined (imap f ls) = joined ls.
Proof.
  revert f. induction ls as [|l ls IH]; intros f Hf; [reflexivity|].
  rewrite imap_cons. change (joined (?a :: ?b)) with (line_text a ++ joined b).
  rewrite Hf, IH; [reflexivity|]. intros i l'. apply Hf.
Qed.

Lemma joined_ellipsizeLast (ls : list Line) :
  ls <> [] ->
  joined (alter addEllipsis (pred (length ls)) ls) = joined ls ++ ellipsis.
Proof.
  destruct ls as [|l ls _] using rev_ind; [congruence|]. intros _.
  rewrite length_app. simpl.
  replace (pred (length ls + 1)) with (length ls + 0)%nat by lia.
  rewrite alter_app_r. simpl. rewrite !joined_app, !joined_single. simpl.
  now rewrite app_assoc.
Qed.

(** The lines that [lines.length = maxWrap] drops have a text between
    them. *)
Lemma joined_dropped measure text fontSize width (n : nat) :
  (1 <= n < length (wrapText measure text fontSize width))%nat ->
  joined (drop n (wrapText measure text fontSize width)) <> [].
Proof.
  intros Hn.
  destruct (lookup_lt_is_Some_2 (wrapText measure text fontSize width) n)
    as [l Hl]; [lia|].
  destruct n as [|n]; [lia|].
  pose proof (wrapText_rest_hasText _ _ _ _ _ _ Hl) as Htext.
  rewrite (drop_S _ _ _ Hl).
  change (joined (?a :: ?b)) with (line_text a ++ joined b).
  destruct (line_text l); [congruence|discriminate].
Qed.

(** X8. What a layout shows is the text, or a beginning of the text
    followed by the ellipsis: the texts of its lines, joined, are the input
    text when no line was discarded, and otherwise the text without a last
    part that is not empty, and one ellipsis after it. *)
Theorem calcLayout_shows_prefix measure fuel text width height maxWrap r :
  calcLayout measure fuel text width height maxWrap = Returns r ->
  joined (lines r) = text \/
  exists shown dropped : jsstring,
    text = shown ++ dropped /\ dropped <> [] /\
    joined (lines r) = shown ++ ellipsis.
Proof.
  intros H. apply calcLayout_inv in H as (fontSize & ls & kept & Hf & Hd & ->).
  apply fitText_lower in Hf as (_ & _ & Hls). simpl in Hls. subst ls.
  simpl. rewrite joined_imap by reflexivity.
  apply discardOverflowed_inv in Hd as [[_ ->]|[Hm ->]].
  - left. unfold wrapText. now rewrite wrapFlush_joined, wrapLoop_joined.
  - right.
    set (ls := wrapText measure text fontSize width) in *.
    exists (joined (take (Z.to_nat maxWrap) ls)),
           (joined (drop (Z.to_nat maxWrap) ls)).
    split; [|split].
    + rewrite <- joined_app, take_drop. unfold ls, wrapText.
      now rewrite wrapFlush_joined, wrapLoop_joined.
    + apply joined_dropped. fold ls. lia.
    + assert (Hlen : length (take (Z.to_nat maxWrap) ls) = Z.to_nat maxWrap)
        by (apply length_take_le; lia).
      rewrite <- Hlen at 1. apply joined_ellipsizeLast.
      intros Hnil. rewrite Hnil in Hlen. simpl in Hlen. lia.
Qed.

Lemma calcLayout_shows_prefix_witness :
  exists r,
    calcLayout tenPx 7 (lit "abcdefgh") 30 100 2 = Returns r /\
    joined (lines r) = lit "abcdef" ++ ellipsis /\
    (joined (lines r) = lit "abcdefgh" \/
     exists shown dropped : jsstring,
       lit "abcdefgh" = shown ++ dropped /\ dropped <> [] /\
       joined (lines r) = shown ++ ellipsis).
Proof.
  eexists. split; [vm_compute; reflexivity|]. split; [vm_compute; reflexivity|].
  apply (calcLayout_shows_prefix tenPx 7 (lit "abcdefgh") 30 100 2).
  vm_compute. reflexivity.
Defined.

(** ** Where a layout that fits puts its lines *)

(** The layout of a wrap that does not overflow, in a box of non-negative
    height: no line is discarded, the font size is not negative and the
    lines are not higher than the box between them. *)
Lemma calcLayout_fits measure fuel text width height maxWrap fitted r :
  (0 <= height)%Q ->
  fitText measure fuel text width height maxWrap = Returns (Some fitted) ->
  hasOverflow height maxWrap (fit_fontSize fitted) (fit_lines fitted) = false ->
  calcLayout measure fuel text width height maxWrap = Returns r ->
  0 <= fit_fontSize fitted /\
  (inject_Z (fit_fontSize fitted) * inject_Z (Z.of_nat (length (fit_lines fitted)))
   <= height)%Q /\
  r = mkLayout (getFontFor (fit_fontSize fitted))
        (imap (place width (fit_fontSize fitted)
                 (offsetYOf height (fit_fontSize fitted) (fit_lines fitted)))
              (fit_lines fitted)).
Proof.
  intros Hh Hf Hfit Hr.
  pose proof (calcLayout_cap_positive _ _ _ _ _ _ _ Hr) as Hm.
  apply calcLayout_inv in Hr as (fontSize & ls & kept & Hf' & Hd & ->).
  rewrite Hf in Hf'. injection Hf' as ->.
  cbn [fit_fontSize fit_lines] in *.
  apply fitText_lower in Hf as (_ & Hlow & _). cbn [fit_fontSize] in Hlow.
  pose proof (floor_div_nonneg height maxWrap Hh Hm) as Hnn.
  unfold hasOverflow in Hfit. apply orb_false_iff in Hfit as [Hcap Hbox].
  apply Z.ltb_ge in Hcap. apply Qgtb_false in Hbox.
  apply discardOverflowed_inv in Hd as [[_ ->]|[Hov _]]; [|lia].
  rewrite inject_Z_mult in Hbox. split; [lia|]. split; [exact Hbox|reflexivity].
Qed.

(** The band of a line that [place] puts at index [i] of [n], for a font
    size that is not negative and lines that are not higher than the box
    between them. *)
Lemma place_band (width height : Q) (fontSize : Z) (ls : list Line)
    (i : nat) (l0 : Line) :
  0 <= fontSize -> (i < length ls)%nat ->
  (inject_Z fontSize * inject_Z (Z.of_nat (length ls)) <= height)%Q ->
  exists y : Q,
    line_y (place width fontSize (offsetYOf height fontSize ls) i l0) = Some y /\
    (0 <= y - inject_Z fontSize * baselineRatio)%Q /\
    (y + inject_Z fontSize * (1 - baselineRatio) <= height)%Q.
Proof.
  intros Hf Hi Hbox.
  eexists. split; [reflexivity|]. unfold offsetYOf, baselineRatio.
  assert (HF : (0 <= inject_Z fontSize)%Q)
    by (change 0%Q with (inject_Z 0); rewrite <- Zle_Qle; lia).
  assert (HI : (0 <= inject_Z (Z.of_nat i))%Q)
    by (change 0%Q with (inject_Z 0); rewrite <- Zle_Qle; lia).
  assert (HIN : (inject_Z (Z.of_nat i) + 1 <= inject_Z (Z.of_nat (length ls)))%Q).
  { change 1%Q with (inject_Z 1). rewrite <- inject_Z_plus, <- Zle_Qle. lia. }
  pose proof (Qmult_le_0_compat _ _ HF HI) as Hprod.
  pose proof (Qmult_le_nonneg_l _ _ _ HF HIN) as Hprod'.
  generalize dependent (inject_Z fontSize). intros F.
  generalize dependent (inject_Z (Z.of_nat i)). intros I.
  generalize dependent (inject_Z (Z.of_nat (length ls))). intros N.
  intros Hbox HF HI HIN Hprod Hprod'. split.
  - assert (E : ((height - F * N) / 2 + F * (I + (88 # 100)) - F * (88 # 100)
                 == (height - F * N) * (1 # 2) + F * I)%Q) by field.
    rewrite E. lra.
  - assert (E : ((height - F * N) / 2 + F * (I + (88 # 100)) + F * (1 - (88 # 100))
                 == (height - F * N) * (1 # 2) + F * (I + 1))%Q) by field.
    rewrite E. lra.
Qed.

(** X9. When the wrap the fitter chose does not overflow, in a box of
    non-negative height, every line of the layout lies inside the box from
    top to bottom: the band of one font size in height around its baseline
    (from [y - fontSize * baselineRatio] down to
    [y + fontSize * (1 - baselineRatio)]) starts at 0 or below it and ends
    at [height] or above it. *)
Theorem calcLayout_inside_box measure fuel text width height maxWrap fitted r :
  (0 <= height)%Q ->
  fitText measure fuel text width height maxWrap = Returns (Some fitted) ->
  hasOverflow height maxWrap (fit_fontSize fitted) (fit_lines fitted) = false ->
  calcLayout measure fuel text width height maxWrap = Returns r ->
  forall (i : nat) (line : Line), lines r !! i = Some line ->
    exists y : Q, line_y line = Some y /\
      (0 <= y - inject_Z (fit_fontSize fitted) * baselineRatio)%Q /\
      (y + inject_Z (fit_fontSize fitted) * (1 - baselineRatio) <= height)%Q.
Proof.
  intros Hh Hf Hfit Hr i line Hi.
  destruct (calcLayout_fits _ _ _ _ _ _ _ _ Hh Hf Hfit Hr) as (Hnn & Hbox & ->).
  cbn [lines] in Hi. rewrite list_lookup_imap in Hi.
  destruct (fit_lines fitted !! i) as [l0|] eqn:Hl0; [|discriminate].
  injection Hi as <-. apply lookup_lt_Some in Hl0.
  now apply place_band.
Qed.

Lemma calcLayout_inside_box_witness :
  exists r,
    calcLayout tenPx 8 (lit "Hello") 200 100 3 = Returns r /\
    forall (i : nat) (line : Line), lines r !! i = Some line ->
      exists y : Q, line_y line = Some y /\
        (0 <= y - inject_Z 99 * baselineRatio)%Q /\
        (y + inject_Z 99 * (1 - baselineRatio) <= 100)%Q.
Proof.
  eexists. split; [vm_compute; reflexivity|].
  apply (calcLayout_inside_box tenPx 8 (lit "Hello") 200 100 3
           (mkFit 99 [mkLine (lit "Hello") 50 None None])).
  - discriminate.
  - vm_compute. reflexivity.
  - vm_compute. reflexivity.
  - vm_compute. reflexivity.
Defined.

(** ** The font of a size *)

Lemma lit_inj (s1 s2 : string) : lit s1 = lit s2 -> s1 = s2.
Proof.
  unfold lit. intros H.
  apply (f_equal (List.map ascii_of_N)) in H.
  rewrite !List.map_map in H.
  rewrite !(List.map_ext _ id ascii_N_embedding), !List.map_id in H.
  apply (f_equal string_of_list_ascii) in H.
  now rewrite !string_of_list_ascii_of_string in H.
Qed.

Lemma decimal_inj (a b : Z) : decimal a = decimal b -> a = b.
Proof.
  unfold decimal. intros H. apply lit_inj in H.
  assert (Hnf : forall z, NilZero.int_of_string (NilZero.string_of_int (Z.to_int z))
                          = Some (Z.to_int z)).
  { intros z. apply NilZero.isi; intros Hz;
      pose proof (DecimalZ.to_of (Z.to_int z)) as Hn;
      rewrite DecimalZ.of_to, Hz in Hn; discriminate. }
  apply (f_equal NilZero.int_of_string) in H. rewrite !Hnf in H.
  injection H as H. now apply DecimalZ.to_int_inj.
Qed.

(** X10. The font of a layout tells its font size: [#getFontFor] gives
    different fonts for different sizes, so the font that [#measure] sets
    before it measures is the font of the size it was asked for and of no
    other. *)
Theorem getFontFor_inj (a b : Z) : getFontFor a = getFontFor b <-> a = b.
Proof.
  split; [|now intros ->]. unfold getFontFor. intros H.
  apply app_inv_tail in H. now apply decimal_inj.
Qed.

(** * The caller of the engine *)

(** ** The compact text *)

Lemma isSpace_space : isSpace space = true.
Proof. reflexivity. Qed.

(** After the replacement a white space character is a space, and the
    character after a space is not white space. *)
Lemma replaceSpaces_shape (inRun : bool) (text : jsstring) :
  (inRun = true ->
   forall d, head (replaceSpaces inRun text) = Some d -> isSpace d = false) /\
  (forall c, c ∈ replaceSpaces inRun text -> isSpace c = true -> c = space) /\
  (forall (i : nat) (d : codeunit),
     replaceSpaces inRun text !! i = Some space ->
     replaceSpaces inRun text !! S i = Some d -> isSpace d = false).
Proof.
  revert inRun. induction text as [|c rest IH]; intros inRun.
  - simpl. repeat split; try discriminate. intros c Hc. now apply elem_of_nil in Hc.
  - simpl. destruct (isSpace c) eqn:Hc; [destruct inRun|].
    + apply IH.
    + destruct (IH true) as (Hhead & Hchars & Hnext).
      split; [discriminate|]. split.
      * intros c' [->|Hin]%elem_of_cons; [reflexivity|now apply Hchars].
      * intros [|i] d; simpl.
        -- intros _ Hd. apply Hhead; [reflexivity|].
           now destruct (replaceSpaces true rest).
        -- apply Hnext.
    + destruct (IH false) as (_ & Hchars & Hnext).
      split; [intros _ d [= <-]; exact Hc|]. split.
      * intros c' [->|Hin]%elem_of_cons; [congruence|now apply Hchars].
      * intros [|i] d; simpl.
        -- intros [= ->]. rewrite isSpace_space in Hc. discriminate.
        -- apply Hnext.
Qed.

Lemma trimStart_suffix (text : jsstring) :
  exists pre, text = pre ++ trimStart text.
Proof.
  induction text as [|c rest [pre IH]]; [now exists []|]. simpl.
  destruct (isSpace c); [|now exists []].
  exists (c :: pre). simpl. now rewrite <- IH.
Qed.

Lemma trimStart_head (text : jsstring) (d : codeunit) :
  head (trimStart text) = Some d -> isSpace d = false.
Proof.
  induction text as [|c rest IH]; [discriminate|]. simpl.
  destruct (isSpace c) eqn:Hc; [exact IH|]. now intros [= <-].
Qed.

Lemma trimStart_id (text : jsstring) :
  (forall d, head text = Some d -> isSpace d = false) -> trimStart text = text.
Proof.
  destruct text as [|c rest]; [reflexivity|]. simpl. intros H.
  now rewrite (H c eq_refl).
Qed.

Lemma trimEnd_prefix (text : jsstring) :
  exists post, text = trimEnd text ++ post.
Proof.
  unfold trimEnd. destruct (trimStart_suffix (reverse text)) as [pre H].
  exists (reverse pre). apply (f_equal reverse) in H.
  now rewrite reverse_involutive, reverse_app in H.
Qed.

Lemma trimEnd_last (text : jsstring) (d : codeunit) :
  last (trimEnd text) = Some d -> isSpace d = false.
Proof. unfold trimEnd. rewrite last_reverse. apply trimStart_head. Qed.

Lemma trimEnd_id (text : jsstring) :
  (forall d, last text = Some d -> isSpace d = false) -> trimEnd text = text.
Proof.
  intros H. unfold trimEnd. rewrite trimStart_id, reverse_involutive; [reflexivity|].
  intros d. rewrite head_reverse. apply H.
Qed.

(** The trimmed text is a stretch of the text, between characters that are
    not white space. *)
Lemma trim_middle (text : jsstring) :
  exists pre post, text = pre ++ trim text ++ post /\
    (forall d, head (trim text) = Some d -> isSpace d = false) /\
    (forall d, last (trim text) = Some d -> isSpace d = false).
Proof.
  unfold trim. destruct (trimStart_suffix text) as [pre Hpre].
  destruct (trimEnd_prefix (trimStart text)) as [post Hpost].
  exists pre, post. split; [now rewrite <- Hpost|]. split; [|apply trimEnd_last].
  intros d Hd. apply (trimStart_head text).
  rewrite Hpost. now destruct (trimEnd (trimStart text)).
Qed.

(** The shape of a compact text: its white space is single spaces, each
    between two characters that are not white space. *)
Lemma compactText_spaces (text : jsstring) :
  (forall c, c ∈ compactText text -> isSpace c = true -> c = space) /\
  (forall i : nat, compactText text !! i = Some space ->
     (0 < i)%nat /\
     exists d, compactText text !! S i = Some d /\ isSpace d = false).
Proof.
  unfold compactText.
  destruct (replaceSpaces_shape false text) as (_ & Hchars & Hnext).
  destruct (trim_middle (replaceSpaces false text))
    as (pre & post & Heq & Hhead & Hlast).
  generalize dependent (trim (replaceSpaces false text)). intros m Heq Hhead Hlast.
  generalize dependent (replaceSpaces false text). intros r Hchars Hnext Heq.
  subst r.
  assert (Hat : forall i c, m !! i = Some c ->
                  (pre ++ m ++ post) !! (length pre + i)%nat = Some c).
  { intros i c Hc. rewrite lookup_app_r by lia.
    replace (length pre + i - length pre)%nat with i by lia.
    now apply lookup_app_l_Some. }
  split.
  - intros c Hc. apply Hchars.
    apply elem_of_app. right. apply elem_of_app. now left.
  - intros i Hi. split.
    + destruct i; [|lia]. destruct m as [|c m']; [discriminate|].
      injection Hi as ->. specialize (Hhead space eq_refl).
      rewrite isSpace_space in Hhead. discriminate.
    + destruct (m !! S i) as [d|] eqn:Hd.
      * exists d. split; [reflexivity|].
        apply (Hnext (length pre + i)%nat); [now apply Hat|].
        rewrite <- Nat.add_succ_r. now apply Hat.
      * exfalso. apply lookup_ge_None in Hd. apply lookup_lt_Some in Hi as Hlt.
        assert (Hl : last m = Some space).
        { rewrite last_lookup. replace (pred (length m)) with i by lia. exact Hi. }
        apply Hlast in Hl. rewrite isSpace_space in Hl. discriminate.
Qed.

(** X11. The compact text has no white space but single spaces inside
    it: a white space character in it is a space, it is not the first
    character, and the character after it exists and is not white space (so
    no space ends the text, and no two stand together). *)
Theorem compactText_shape (text : jsstring) :
  (forall c, c ∈ compactText text -> isSpace c = true -> c = space) /\
  (forall i : nat, compactText text !! i = Some space ->
     (0 < i)%nat /\
     exists d, compactText text !! S i = Some d /\ isSpace d = false) /\
  (length (compactText text) <= length text)%nat.
Proof.
  destruct (compactText_spaces text) as [Hchars Hnext].
  split; [exact Hchars|]. split; [exact Hnext|].
  unfold compactText.
  destruct (trim_middle (replaceSpaces false text)) as (pre & post & Heq & _).
  apply (f_equal length) in Heq. rewrite !length_app in Heq.
  assert (Hlen : forall b t, (length (replaceSpaces b t) <= length t)%nat).
  { intros b t. revert b. induction t as [|c t IH]; intros b; simpl; [lia|].
    pose proof (IH true). pose proof (IH false).
    destruct (isSpace c); [destruct b|]; simpl; lia. }
  specialize (Hlen false text). lia.
Qed.

(** A text of that shape is left as it is by the replacement. *)
Lemma replaceSpaces_fixed (inRun : bool) (text : jsstring) :
  (inRun = true -> forall d, head text = Some d -> isSpace d = false) ->
  (forall c, c ∈ text -> isSpace c = true -> c = space) ->
  (forall (i : nat) (d : codeunit),
     text !! i = Some space -> text !! S i = Some d -> isSpace d = false) ->
  replaceSpaces inRun text = text.
Proof.
  revert inRun. induction text as [|c rest IH]; intros inRun Hhead Hchars Hnext;
    [reflexivity|].
  simpl. destruct (isSpace c) eqn:Hc.
  - assert (c = space) as -> by (apply Hchars; [left|exact Hc]).
    destruct inRun; [specialize (Hhead eq_refl space eq_refl); congruence|].
    f_equal. apply IH.
    + intros _ d Hd. apply (Hnext 0%nat d); [reflexivity|].
      destruct rest; [discriminate|exact Hd].
    + intros c' Hin. apply Hchars. now right.
    + intros i d. apply (Hnext (S i) d).
  - f_equal. apply IH.
    + discriminate.
    + intros c' Hin. apply Hchars. now right.
    + intros i d. apply (Hnext (S i) d).
Qed.

(** X12. Compacting is idempotent: a compact text is left as it is. *)
Theorem compactText_idempotent (text : jsstring) :
  compactText (compactText text) = compactText text.
Proof.
  destruct (compactText_spaces text) as [Hchars Hnext].
  generalize dependent (compactText text). intros m Hchars Hnext.
  unfold compactText. rewrite replaceSpaces_fixed.
  - unfold trim. rewrite trimStart_id.
    + apply trimEnd_id. intros d Hd.
      destruct (isSpace d) eqn:Hsp; [|reflexivity].
      assert (d ∈ m) as Hin.
      { rewrite last_lookup in Hd. now apply list_elem_of_lookup_2 in Hd. }
      rewrite (Hchars d Hin Hsp), last_lookup in Hd.
      destruct (Hnext _ Hd) as (_ & d' & Hd' & _).
      apply lookup_lt_Some in Hd, Hd'. lia.
    + intros d Hd. destruct (isSpace d) eqn:Hsp; [|reflexivity].
      destruct m as [|c m']; [discriminate|]. injection Hd as ->.
      assert (d = space) as -> by (apply Hchars; [left|exact Hsp]).
      destruct (Hnext 0%nat eq_refl). lia.
  - discriminate.
  - exact Hchars.
  - intros i d Hi Hd. destruct (Hnext i Hi) as (_ & d' & Hd' & Hsp). congruence.
Qed.

Lemma inkOf_replaceSpaces (inRun : bool) (text : jsstring) :
  inkOf (replaceSpaces inRun text) = inkOf text.
Proof.
  revert inRun. induction text as [|c rest IH]; intros inRun; [reflexivity|].
  simpl. destruct (isSpace c) eqn:Hc; [destruct inRun|]; simpl; rewrite ?Hc; simpl.
  - apply IH.
  - apply IH.
  - now rewrite IH.
Qed.

Lemma inkOf_trimStart (text : jsstring) : inkOf (trimStart text) = inkOf text.
Proof.
  induction text as [|c rest IH]; [reflexivity|]. cbn [trimStart].
  destruct (isSpace c) eqn:Hc; [|reflexivity].
  rewrite IH. unfold inkOf. simpl. now rewrite Hc.
Qed.

Lemma inkOf_reverse (text : jsstring) : inkOf (reverse text) = reverse (inkOf text).
Proof. unfold inkOf, reverse. rewrite <- !rev_alt. apply filter_rev. Qed.

Lemma inkOf_trim (text : jsstring) : inkOf (trim text) = inkOf text.
Proof.
  unfold trim, trimEnd.
  now rewrite inkOf_reverse, inkOf_trimStart, inkOf_reverse, reverse_involutive,
    inkOf_trimStart.
Qed.

(** X13. Compacting keeps the characters that are not white space, all
    of them and in order; the compact text is empty exactly when the text
    has no such character. *)
Theorem compactText_ink (text : jsstring) :
  inkOf (compactText text) = inkOf text /\
  (compactText text = [] <-> inkOf text = []).
Proof.
  assert (Hink : inkOf (compactText text) = inkOf text).
  { unfold compactText. now rewrite inkOf_trim, inkOf_replaceSpaces. }
  split; [exact Hink|]. split.
  - intros Hnil. now rewrite <- Hink, Hnil.
  - intros Hnone. rewrite <- Hink in Hnone.
    destruct (compactText_spaces text) as [Hchars Hnext].
    destruct (compactText text) as [|c m]; [reflexivity|].
    simpl in Hnone. destruct (isSpace c) eqn:Hc; [|discriminate].
    assert (c = space) as -> by (apply Hchars; [left|exact Hc]).
    destruct (Hnext 0%nat eq_refl). lia.
Qed.

(** ** The layout in the frame *)

Section CallerProps.

Variable measure : Z -> jsstring -> Q.

Local Abbreviation boxWidth width height := (inject_Z (maxWidthOf width height)).
Local Abbreviation boxHeight height := (inject_Z (maxHeightOf height)).
Local Abbreviation offsetXOf width height :=
  ((inject_Z width - inject_Z (maxWidthOf width height)) / 2)%Q.
Local Abbreviation offsetYIn height :=
  ((inject_Z height - inject_Z (maxHeightOf height)) / 2)%Q.

Lemma maxHeightOf_nonneg (height : Z) : 0 <= height -> 0 <= maxHeightOf height.
Proof.
  intros Hh. unfold maxHeightOf. change 0 with (Qfloor 0). apply Qfloor_resp_le.
  apply Qmult_le_0_compat; [|discriminate].
  change 0%Q with (inject_Z 0). now rewrite <- Zle_Qle.
Qed.

Lemma maxHeightOf_le (height : Z) :
  (boxHeight height <= inject_Z height * (8 # 10))%Q.
Proof. apply Qfloor_le. Qed.

Lemma maxWidthOf_le (width height : Z) :
  (boxWidth width height <= inject_Z width * (8 # 10))%Q.
Proof.
  unfold maxWidthOf. eapply Qle_trans; [apply Qfloor_le|apply Q.le_min_l].
Qed.

(** A call from the empty cache that returns: the layout of the compact
    text in the padded box, moved by the offsets. *)
Lemma calcTextLayout_inv (fuel : nat) (width height : Z) (text : jsstring)
    (r : LayoutResult) :
  fst (calcTextLayout measure fuel None width height text) = Returns r ->
  exists r0,
    calcLayout measure fuel (compactText text) (boxWidth width height)
      (boxHeight height) messageLines = Returns r0 /\
    r = mkLayout (font r0)
          (addOffset (offsetXOf width height) (offsetYIn height) <$> lines r0).
Proof.
  unfold calcTextLayout.
  destruct (calcLayout _ _ _ _ _ _) as [r0| |]; simpl; try discriminate.
  intros [= <-]. now exists r0.
Qed.




(** X16. In the frame every line is centred from left to right and the
    block of lines from top to bottom, as if the text had been laid out in
    the whole frame: the paddings cancel out.  [x + line.width / 2] is half
    the frame width, and [y] is
    [(height - fontSize * lines.length) / 2 + fontSize * (i + baselineRatio)]
    for the height of the frame. *)
Theorem calcTextLayout_centred (fuel : nat) (width height : Z) (text : jsstring)
    (r : LayoutResult) :
  fst (calcTextLayout measure fuel None width height text) = Returns r ->
  exists fontSize : Z,
    font r = getFontFor fontSize /\
    forall (i : nat) (line : Line), lines r !! i = Some line ->
      exists x y : Q, line_x line = Some x /\ line_y line = Some y /\
        (x + line_width line / 2 == inject_Z width / 2)%Q /\
        (y == (inject_Z height
               - inject_Z fontSize * inject_Z (Z.of_nat (length (lines r)))) / 2
              + inject_Z fontSize * (inject_Z (Z.of_nat i) + baselineRatio))%Q.
Proof.
  intros Hr. apply calcTextLayout_inv in Hr as (r0 & Hr0 & ->).
  apply calcLayout_inv in Hr0 as (fontSize & ls & kept & _ & _ & ->).
  exists fontSize. split; [reflexivity|]. intros i line. cbn [lines].
  rewrite length_fmap, length_imap, list_lookup_fmap, list_lookup_imap.
  destruct (kept !! i) as [l0|]; [|discriminate]. simpl.
  intros [= <-]. do 2 eexists. split; [reflexivity|]. split; [reflexivity|].
  simpl. unfold offsetYOf, baselineRatio. split; field.
Qed.

(** X17. The paddings hold.  When the wrap the fitter chose does not
    overflow the padded box, in a frame of non-negative height, the band
    of every line stays a tenth of the frame height away from the top and
    from the bottom of the frame; and a line that is not wider than the
    padded box stays a tenth of the frame width away from its left and right
    sides. *)
Theorem calcTextLayout_margins (fuel : nat) (width height : Z) (text : jsstring)
    (fitted : FitResult) (r : LayoutResult) :
  0 <= height ->
  fitText measure fuel (compactText text) (boxWidth width height)
    (boxHeight height) messageLines = Returns (Some fitted) ->
  hasOverflow (boxHeight height) messageLines
    (fit_fontSize fitted) (fit_lines fitted) = false ->
  fst (calcTextLayout measure fuel None width height text) = Returns r ->
  forall (i : nat) (line : Line), lines r !! i = Some line ->
    exists x y : Q, line_x line = Some x /\ line_y line = Some y /\
      (inject_Z height / 10 <= y - inject_Z (fit_fontSize fitted) * baselineRatio)%Q /\
      (y + inject_Z (fit_fontSize fitted) * (1 - baselineRatio)
       <= inject_Z height * 9 / 10)%Q /\
      ((line_width line <= boxWidth width height)%Q ->
       (inject_Z width / 10 <= x)%Q /\
       (x + line_width line <= inject_Z width * 9 / 10)%Q).
Proof.
  intros Hh Hf Hfit Hr i line Hi.
  apply calcTextLayout_inv in Hr as (r0 & Hr0 & ->).
  assert (Hbh : (0 <= boxHeight height)%Q).
  { change 0%Q with (inject_Z 0). rewrite <- Zle_Qle. now apply maxHeightOf_nonneg. }
  destruct (calcLayout_fits _ _ _ _ _ _ _ _ Hbh Hf Hfit Hr0) as (Hnn & Hbox & ->).
  cbn [lines] in Hi. rewrite list_lookup_fmap, list_lookup_imap in Hi.
  destruct (fit_lines fitted !! i) as [l0|] eqn:Hl0; [|discriminate].
  injection Hi as <-. apply lookup_lt_Some in Hl0.
  destruct (place_band (boxWidth width height) (boxHeight height)
              (fit_fontSize fitted) (fit_lines fitted) i l0 Hnn Hl0 Hbox)
    as (y & Hy & Htop & Hbottom).
  pose proof (maxHeightOf_le height) as Hmh.
  pose proof (maxWidthOf_le width height) as Hmw.
  unfold addOffset. rewrite Hy. cbn [line_x line_y line_width place option_map].
  do 2 eexists. split; [reflexivity|]. split; [reflexivity|].
  clear Hy Hbox Hf Hfit Hr0.
  set (mh := boxHeight height) in *. set (mw := boxWidth width height) in *.
  set (a := (inject_Z (fit_fontSize fitted) * baselineRatio)%Q) in *.
  set (b := (inject_Z (fit_fontSize fitted) * (1 - baselineRatio))%Q) in *.
  clearbody mh mw a b.
  split; [|split].
  - assert (E : (y + (inject_Z height - mh) / 2 - a
                 == (y - a) + (inject_Z height - mh) * (1 # 2))%Q) by field.
    assert (E' : (inject_Z height / 10 == inject_Z height * (1 # 10))%Q) by field.
    rewrite E, E'. lra.
  - assert (E : (y + (inject_Z height - mh) / 2 + b
                 == (y + b) + (inject_Z height - mh) * (1 # 2))%Q) by field.
    assert (E' : (inject_Z height * 9 / 10 == inject_Z height * (9 # 10))%Q) by field.
    rewrite E, E'. lra.
  - intros Hfits. split.
    + assert (E : ((mw - line_width l0) / 2 + (inject_Z width - mw) / 2
                   == (inject_Z width - line_width l0) * (1 # 2))%Q) by field.
      assert (E' : (inject_Z width / 10 == inject_Z width * (1 # 10))%Q) by field.
      rewrite E, E'. lra.
    + assert (E : ((mw - line_width l0) / 2 + (inject_Z width - mw) / 2 + line_width l0
                   == (inject_Z width + line_width l0) * (1 # 2))%Q) by field.
      assert (E' : (inject_Z width * 9 / 10 == inject_Z width * (9 # 10))%Q) by field.
      rewrite E, E'. lra.
Qed.

(** ** The cache *)

(** After a call that returned the cache holds its arguments and its
    result. *)
Lemma calcTextLayout_leaves (fuel : nat) (cache : option LayoutCache)
    (width height : Z) (text : jsstring) (r : LayoutResult) :
  fst (calcTextLayout measure fuel cache width height text) = Returns r ->
  exists c, snd (calcTextLayout measure fuel cache width height text) = Some c /\
    cache_width c = width /\ cache_height c = height /\ cache_text c = text /\
    cache_result c = r.
Proof.
  unfold calcTextLayout. destruct cache as [c|].
  - destruct ((cache_width c =? width) && (cache_height c =? height)
              && bool_decide (cache_text c = text)) eqn:Hhit.
    + apply andb_true_iff in Hhit as [[Hw Hh]%andb_true_iff Ht].
      apply Z.eqb_eq in Hw. apply Z.eqb_eq in Hh. apply bool_decide_eq_true in Ht.
      simpl. intros [= <-]. now exists c.
    + destruct (calcLayout _ _ _ _ _ _) as [r0| |]; simpl; try discriminate.
      intros [= <-]. eexists. split; [reflexivity|]. now repeat split.
  - destruct (calcLayout _ _ _ _ _ _) as [r0| |]; simpl; try discriminate.
    intros [= <-]. eexists. split; [reflexivity|]. now repeat split.
Qed.

(** From a cache that holds what its own arguments give, a call returns
    what the call from the empty cache returns. *)
Lemma calcTextLayout_agrees (fuel : nat) (cache : option LayoutCache)
    (width height : Z) (text : jsstring) :
  cacheCoherent measure fuel cache ->
  fst (calcTextLayout measure fuel cache width height text)
    = fst (calcTextLayout measure fuel None width height text).
Proof.
  intros Hc. destruct cache as [c|]; [|reflexivity].
  unfold calcTextLayout at 1.
  destruct ((cache_width c =? width) && (cache_height c =? height)
            && bool_decide (cache_text c = text)) eqn:Hhit;
    [|unfold calcTextLayout; now destruct (calcLayout _ _ _ _ _ _)].
  apply andb_true_iff in Hhit as [[Hw Hh]%andb_true_iff Ht].
  apply Z.eqb_eq in Hw. apply Z.eqb_eq in Hh. apply bool_decide_eq_true in Ht.
  subst width height text. simpl in *. now rewrite Hc.
Qed.

(** X18. The cache does not change what a call returns: from a cache
    that holds what its own arguments give, a call returns what the call
    from the empty cache returns, and leaves such a cache behind.  So every
    call of a sequence that starts from the empty cache returns what it
    would compute itself. *)
Theorem calcTextLayout_cache (fuel : nat) (cache : option LayoutCache)
    (width height : Z) (text : jsstring) :
  cacheCoherent measure fuel cache ->
  fst (calcTextLayout measure fuel cache width height text)
    = fst (calcTextLayout measure fuel None width height text) /\
  cacheCoherent measure fuel
    (snd (calcTextLayout measure fuel cache width height text)).
Proof.
  intros Hc. split; [now apply calcTextLayout_agrees|].
  destruct (fst (calcTextLayout measure fuel cache width height text))
    as [r| |] eqn:Hr.
  - destruct (calcTextLayout_leaves _ _ _ _ _ _ Hr) as (c & -> & <- & <- & <- & <-).
    unfold cacheCoherent. now rewrite <- (calcTextLayout_agrees fuel cache).
  - replace (snd (calcTextLayout measure fuel cache width height text)) with cache;
      [exact Hc|].
    revert Hr. unfold calcTextLayout. destruct cache as [c|].
    + destruct ((cache_width c =? width) && (cache_height c =? height)
                && bool_decide (cache_text c = text)); [discriminate|].
      now destruct (calcLayout _ _ _ _ _ _).
    + now destruct (calcLayout _ _ _ _ _ _).
  - replace (snd (calcTextLayout measure fuel cache width height text)) with cache;
      [exact Hc|].
    revert Hr. unfold calcTextLayout. destruct cache as [c|].
    + destruct ((cache_width c =? width) && (cache_height c =? height)
                && bool_decide (cache_text c = text)); [discriminate|].
      now destruct (calcLayout _ _ _ _ _ _).
    + now destruct (calcLayout _ _ _ _ _ _).
Qed.

(** X19. A call repeated with the same arguments is answered from the
    cache: after a call that returned, the same call returns the same
    layout, leaves the cache as it is and runs no search (it needs no
    fuel), whatever the cache was before the first call. *)
Theorem calcTextLayout_repeat (fuel fuel' : nat) (cache : option LayoutCache)
    (width height : Z) (text : jsstring) (r : LayoutResult) :
  fst (calcTextLayout measure fuel cache width height text) = Returns r ->
  calcTextLayout measure fuel'
    (snd (calcTextLayout measure fuel cache width height text)) width height text
  = (Returns r, snd (calcTextLayout measure fuel cache width height text)).
Proof.
  intros Hr.
  destruct (calcTextLayout_leaves _ _ _ _ _ _ Hr) as (c & -> & <- & <- & <- & <-).
  unfold calcTextLayout. now rewrite !Z.eqb_refl, bool_decide_eq_true_2.
Qed.

End CallerProps.

(** The theorems of this part on a frame of 1280 by 720, every character
    ten pixels wide. *)



Lemma calcTextLayout_centred_witness :
  exists r,
    fst (calcTextLayout tenPx 11 None 1280 720 (lit "Hello world")) = Returns r /\
    exists fontSize : Z,
      font r = getFontFor fontSize /\
      forall (i : nat) (line : Line), lines r !! i = Some line ->
        exists x y : Q, line_x line = Some x /\ line_y line = Some y /\
          (x + line_width line / 2 == inject_Z 1280 / 2)%Q /\
          (y == (inject_Z 720
                 - inject_Z fontSize * inject_Z (Z.of_nat (length (lines r)))) / 2
                + inject_Z fontSize * (inject_Z (Z.of_nat i) + baselineRatio))%Q.
Proof.
  eexists. split; [vm_compute; reflexivity|].
  apply (calcTextLayout_centred tenPx 11 1280 720 (lit "Hello world")).
  vm_compute. reflexivity.
Defined.

Lemma calcTextLayout_margins_witness :
  exists fitted r,
    fitText tenPx 11 (compactText (lit "Hello world"))
      (inject_Z (maxWidthOf 1280 720)) (inject_Z (maxHeightOf 720)) messageLines
      = Returns (Some fitted) /\
    hasOverflow (inject_Z (maxHeightOf 720)) messageLines
      (fit_fontSize fitted) (fit_lines fitted) = false /\
    fst (calcTextLayout tenPx 11 None 1280 720 (lit "Hello world")) = Returns r /\
    forall (i : nat) (line : Line), lines r !! i = Some line ->
      exists x y : Q, line_x line = Some x /\ line_y line = Some y /\
        (inject_Z 720 / 10 <= y - inject_Z (fit_fontSize fitted) * baselineRatio)%Q /\
        (y + inject_Z (fit_fontSize fitted) * (1 - baselineRatio)
         <= inject_Z 720 * 9 / 10)%Q /\
        ((line_width line <= inject_Z (maxWidthOf 1280 720))%Q ->
         (inject_Z 1280 / 10 <= x)%Q /\
         (x + line_width line <= inject_Z 1280 * 9 / 10)%Q).
Proof.
  do 2 eexists. split; [vm_compute; reflexivity|].
  split; [vm_compute; reflexivity|]. split; [vm_compute; reflexivity|].
  apply (calcTextLayout_margins tenPx 11 1280 720 (lit "Hello world")).
  - lia.
  - vm_compute. reflexivity.
  - vm_compute. reflexivity.
  - vm_compute. reflexivity.
Defined.

Lemma calcTextLayout_cache_witness :
  exists c,
    snd (calcTextLayout tenPx 11 None 1280 720 (lit "Hello")) = Some c /\
    cacheCoherent tenPx 11 (Some c) /\
    fst (calcTextLayout tenPx 11 (Some c) 1280 720 (lit "Hello world"))
      = fst (calcTextLayout tenPx 11 None 1280 720 (lit "Hello world")) /\
    cacheCoherent tenPx 11
      (snd (calcTextLayout tenPx 11 (Some c) 1280 720 (lit "Hello world"))).
Proof.
  eexists. split; [vm_compute; reflexivity|].
  match goal with |- ?H /\ _ => assert (Hc : H) by (vm_compute; reflexivity) end.
  split; [exact Hc|].
  exact (calcTextLayout_cache tenPx 11 _ 1280 720 (lit "Hello world") Hc).
Defined.

Lemma calcTextLayout_repeat_witness :
  exists r,
    fst (calcTextLayout tenPx 11 None 1280 720 (lit "Hello")) = Returns r /\
    calcTextLayout tenPx 0
      (snd (calcTextLayout tenPx 11 None 1280 720 (lit "Hello"))) 1280 720 (lit "Hello")
    = (Returns r, snd (calcTextLayout tenPx 11 None 1280 720 (lit "Hello"))).
Proof.
  eexists.
  match goal with |- ?H /\ _ => assert (Hr : H) by (vm_compute; reflexivity) end.
  split; [exact Hr|].
  exact (calcTextLayout_repeat tenPx 11 0 None 1280 720 (lit "Hello") _ Hr).
Defined.

(** * The settings *)

Lemma messageModes_truthy (value : jsstring) :
  value ∈ messageModes -> truthy value = true.
Proof.
  unfold messageModes. rewrite !elem_of_cons, elem_of_nil.
  intros [->|[->|[]]]; reflexivity.
Qed.

Lemma keys_differ : enabledKey <> messageModeKey.
Proof. intros H. vm_compute in H. discriminate. Qed.

(** The cache holds nothing or a mode. *)
Local Abbreviation modeValid :=
  (fun s : Settings =>
     match modeCache s with Some value => value ∈ messageModes | None => True end).

Lemma getMode_valid (s : Settings) :
  modeValid s -> fst (getMode s) ∈ messageModes /\ modeValid (snd (getMode s)).
Proof.
  assert (Hread : match localStorage s !! messageModeKey with
                  | Some value =>
                      if bool_decide (value ∈ messageModes) then value else overlayMode
                  | None => overlayMode
                  end ∈ messageModes).
  { destruct (localStorage s !! messageModeKey) as [value|]; [|now left].
    destruct (bool_decide (value ∈ messageModes)) eqn:Hv; [|now left].
    now apply bool_decide_eq_true in Hv. }
  unfold getMode. destruct (modeCache s) as [cached|] eqn:Hcache; simpl.
  - intros Hvalid. destruct (truthy cached); simpl; [now rewrite Hcache|].
    now split.
  - intros _. now split.
Qed.

Lemma settingsStep_valid (s : Settings) (e : SettingsEvent) :
  modeValid s -> modeValid (settingsStep s e).
Proof.
  intros Hvalid. destruct e; simpl; trivial.
  - now apply getMode_valid.
  - unfold setMode. destruct (bool_decide (value ∈ messageModes)) eqn:Hv; [|exact Hvalid].
    simpl. now apply bool_decide_eq_true in Hv.
Qed.

Lemma settingsAfter_valid (stored : gmap jsstring jsstring)
    (events : list SettingsEvent) :
  modeValid (settingsAfter stored events).
Proof.
  unfold settingsAfter.
  assert (Hinit : modeValid (mkSettings None stored)) by exact I.
  revert Hinit. generalize (mkSettings None stored).
  induction events as [|e events IH]; intros s Hs; [exact Hs|].
  simpl. apply IH. now apply settingsStep_valid.
Qed.

(** X20. The mode that [get mode] returns is always one of the two
    modes of [MessageMode], whatever [localStorage] held when the page
    loaded and whatever was read, set or written to [localStorage] since. *)
Theorem getMode_is_mode (stored : gmap jsstring jsstring)
    (events : list SettingsEvent) :
  fst (getMode (settingsAfter stored events)) = overlayMode \/
  fst (getMode (settingsAfter stored events)) = textOnlyMode.
Proof.
  destruct (getMode_valid _ (settingsAfter_valid stored events)) as [Hmode _].
  revert Hmode. unfold messageModes. rewrite !elem_of_cons, elem_of_nil. tauto.
Qed.

(** X21. A mode that was set is the mode that is read, by the same
    streamer and, through [localStorage], by the streamer of the page when
    it is loaded again; [set mode] succeeds exactly on the two modes. *)
Theorem setMode_getMode (value : jsstring) (s : Settings) :
  (forall s', setMode value s = Some s' ->
     fst (getMode s') = value /\
     fst (getMode (mkSettings None (localStorage s'))) = value) /\
  (setMode value s = None <-> value <> overlayMode /\ value <> textOnlyMode).
Proof.
  unfold setMode. destruct (bool_decide (value ∈ messageModes)) eqn:Hv.
  - apply bool_decide_eq_true in Hv. split.
    + intros s' [= <-]. unfold getMode. simpl.
      rewrite (messageModes_truthy _ Hv), lookup_insert_eq.
      now rewrite bool_decide_eq_true_2.
    + split; [discriminate|]. intros [Ho Ht]. revert Hv.
      unfold messageModes. rewrite !elem_of_cons, elem_of_nil. tauto.
  - apply bool_decide_eq_false in Hv. split; [discriminate|].
    split; [|reflexivity]. intros _.
    split; intros ->; apply Hv; [now left|right; now left].
Qed.

(** X22. [enabled] reads back what was set, is true when nothing is
    stored under its key (the streamer is enabled by default) and false
    only when the stored value is ["false"]; setting it does not change
    the mode. *)
Theorem setEnabled_getEnabled (value : bool) (s : Settings) :
  getEnabled (setEnabled value s) = value /\
  (getEnabled s = false <-> localStorage s !! enabledKey = Some (lit "false")) /\
  fst (getMode (setEnabled value s)) = fst (getMode s).
Proof.
  split; [|split].
  - unfold getEnabled, setEnabled. simpl. rewrite lookup_insert_eq.
    destruct value.
    + rewrite bool_decide_eq_false_2; [reflexivity|].
      intros H. vm_compute in H. discriminate.
    + now rewrite bool_decide_eq_true_2.
  - unfold getEnabled. rewrite negb_false_iff. apply bool_decide_eq_true.
  - unfold getMode, setEnabled. simpl.
    rewrite lookup_insert_ne by exact keys_differ.
    destruct (modeCache s) as [cached|]; [destruct (truthy cached)|]; reflexivity.
Qed.

(** * Drawing a frame *)

Section CanvasProps.

Variable measure : Z -> jsstring -> Q.

Lemma resizeCanvas_ops (videoWidth videoHeight : Z) (cache : option (Z * Z)) :
  (fst (resizeCanvas videoWidth videoHeight cache) = [] /\
   cache = Some (videoWidth, videoHeight)) \/
  (fst (resizeCanvas videoWidth videoHeight cache)
   = [SetWidth videoWidth; SetHeight videoHeight] /\
   cache <> Some (videoWidth, videoHeight)).
Proof.
  unfold resizeCanvas. destruct cache as [[w h]|]; [|right; split; [reflexivity|discriminate]].
  destruct (Z.eqb_spec w videoWidth) as [->|Hw]; simpl.
  - destruct (Z.eqb_spec h videoHeight) as [->|Hh]; simpl.
    + now left.
    + right. split; [reflexivity|congruence].
  - right. split; [reflexivity|congruence].
Qed.


Lemma resizeCanvas_no_image (videoWidth videoHeight : Z) (cache : option (Z * Z)) :
  DrawImage ∉ fst (resizeCanvas videoWidth videoHeight cache).
Proof.
  destruct (resizeCanvas_ops videoWidth videoHeight cache) as [[-> _]|[-> _]].
  - apply not_elem_of_nil.
  - rewrite !elem_of_cons, elem_of_nil. intros [H|[H|[]]]; discriminate.
Qed.

Lemma drawMessage_no_image (mode : jsstring) (textLayout : LayoutResult) :
  DrawImage ∉ drawMessage mode textLayout.
Proof.
  unfold drawMessage. rewrite elem_of_app, !elem_of_cons, elem_of_nil, list_elem_of_fmap.
  intros [[H|[H|[]]]|(line & H & _)]; discriminate.
Qed.

Lemma drawBackground_image (mode : jsstring) (videoWidth videoHeight : Z) :
  DrawImage ∈ drawBackground mode videoWidth videoHeight <-> mode = overlayMode.
Proof.
  unfold drawBackground. destruct (bool_decide (mode = overlayMode)) eqn:Hm.
  - apply bool_decide_eq_true in Hm. split; [trivial|]. intros _. now left.
  - apply bool_decide_eq_false in Hm. split; [|contradiction].
    rewrite !elem_of_cons, elem_of_nil. intros [H|[H|[]]]; discriminate.
Qed.

(** X23. A call of [#updateCanvas] draws the image of the camera exactly
    when there is no message or the mode is the overlay: with a message in
    the mode "Text Only" the camera is never drawn, also when the call
    ends in an exception. *)
Theorem updateCanvas_camera (fuel : nat) (videoWidth videoHeight : Z) (d : Drawing) :
  DrawImage ∈ snd (fst (updateCanvas measure fuel videoWidth videoHeight d))
  <-> ms_text d = [] \/ fst (getMode (ms_settings d)) = overlayMode.
Proof.
  unfold updateCanvas.
  pose proof (resizeCanvas_no_image videoWidth videoHeight (ms_updateCanvasCache d))
    as Hresize.
  destruct (resizeCanvas _ _ _) as [resized sizeCache]. simpl in Hresize.
  destruct (ms_text d) as [|c rest] eqn:Htext; simpl.
  - rewrite elem_of_app, list_elem_of_singleton. tauto.
  - destruct (getMode (ms_settings d)) as [mode settings]. simpl.
    pose proof (drawBackground_image mode videoWidth videoHeight) as Hbg.
    destruct (calcTextLayout _ _ _ _ _ _) as [[textLayout| |] layoutCache]; simpl.
    + destruct (getMode settings) as [mode' settings'].
      pose proof (drawMessage_no_image mode' textLayout) as Hmsg.
      simpl. rewrite !elem_of_app.
      split; [intros [H|[H|H]]; try tauto|intros [H|H]; [discriminate|tauto]].
    + rewrite elem_of_app.
      split; [intros [H|H]; tauto|intros [H|H]; [discriminate|tauto]].
    + rewrite elem_of_app.
      split; [intros [H|H]; tauto|intros [H|H]; [discriminate|tauto]].
Qed.






End CanvasProps.


(** * The frame loop and the life of the streamer *)

(** ** The tables of the window *)

Lemma taskOf_Some (handle : Z) (tasks : list (Z * nat)) (k : nat) :
  taskOf handle tasks = Some k -> (handle, k) ∈ tasks.
Proof.
  unfold taskOf. destruct (List.find _ tasks) as [[h k']|] eqn:Hfind; [|discriminate].
  apply find_some in Hfind as [Hin Heq]. simpl in Heq.
  apply Z.eqb_eq in Heq. intros [= <-]. subst h. now apply list_elem_of_In.
Qed.

Lemma tasksNamed_filter (handleOf : Loop -> Z) (P : Z * nat -> Prop)
    `{forall t, Decision (P t)} (tasks : list (Z * nat)) (ls : list Loop) :
  tasksNamed handleOf tasks ls -> tasksNamed handleOf (filter P tasks) ls.
Proof. intros Hn h k [_ Hin]%list_elem_of_filter. now apply Hn. Qed.

Lemma tasksNamed_alter_same (handleOf : Loop -> Z) (f : Loop -> Loop) (k : nat)
    (tasks : list (Z * nat)) (ls : list Loop) :
  (forall l, handleOf (f l) = handleOf l) ->
  tasksNamed handleOf tasks ls -> tasksNamed handleOf tasks (alter f k ls).
Proof.
  intros Hf Hn h k' Hin. destruct (Hn h k' Hin) as (l & Hl & Hh).
  destruct (decide (k = k')) as [->|Hne].
  - exists (f l). rewrite list_lookup_alter_eq, Hl. split; [reflexivity|].
    now rewrite Hf.
  - exists l. now rewrite list_lookup_alter_ne.
Qed.

Lemma tasksNamed_alter_other (handleOf : Loop -> Z) (f : Loop -> Loop) (k : nat)
    (tasks : list (Z * nat)) (ls : list Loop) :
  (forall h, (h, k) ∉ tasks) ->
  tasksNamed handleOf tasks ls -> tasksNamed handleOf tasks (alter f k ls).
Proof.
  intros Hk Hn h k' Hin. destruct (Hn h k' Hin) as (l & Hl & Hh).
  exists l. rewrite list_lookup_alter_ne; [now split|].
  intros ->. now apply (Hk h).
Qed.

Lemma tasksNamed_app (handleOf : Loop -> Z) (tasks : list (Z * nat))
    (ls more : list Loop) :
  tasksNamed handleOf tasks ls -> tasksNamed handleOf tasks (ls ++ more).
Proof.
  intros Hn h k Hin. destruct (Hn h k Hin) as (l & Hl & Hh).
  exists l. split; [now apply lookup_app_l_Some|exact Hh].
Qed.

(** A task of a loop is removed with the handle its variable names. *)
Lemma tasksNamed_removed (handleOf : Loop -> Z) (tasks : list (Z * nat))
    (ls : list Loop) (k : nat) (l : Loop) :
  tasksNamed handleOf tasks ls -> ls !! k = Some l ->
  forall h, (h, k) ∉ filter (fun task => task.1 <> handleOf l) tasks.
Proof.
  intros Hn Hl h [Hne Hin]%list_elem_of_filter.
  destruct (Hn h k Hin) as (l' & Hl' & Hh). simpl in Hne. congruence.
Qed.

Lemma NoDup_snoc_fresh (tasks : list (Z * nat)) (task : Z * nat) :
  NoDup tasks -> task ∉ tasks -> NoDup (tasks ++ [task]).
Proof.
  intros Hnd Hfresh. apply NoDup_app. split; [exact Hnd|]. split.
  - intros x Hx ->%list_elem_of_singleton. contradiction.
  - apply NoDup_singleton.
Qed.

(** ** The loops keep the tables in order *)

Lemma loop_ok (k : nat) (p : Page) :
  pageOk p -> is_Some (loops p !! k) ->
  (forall h, (h, k) ∉ timeouts (window p)) ->
  (forall h, (h, k) ∉ frames (window p)) ->
  pageOk (loop k p).
Proof.
  intros (Ht & Hf & Hboth & Hndt & Hndf) [l Hl] Hnot Hnof.
  unfold loop, setTimeout. simpl. repeat split; simpl.
  - intros h k' [Hin|Heq%list_elem_of_singleton]%elem_of_app.
    + now apply (tasksNamed_alter_other timerId _ k _ _ Hnot Ht).
    + injection Heq as -> ->. eexists.
      rewrite list_lookup_alter_eq, Hl. split; reflexivity.
  - now apply tasksNamed_alter_same.
  - intros h h' k' [Hin|Heq%list_elem_of_singleton]%elem_of_app Hin'.
    + now apply (Hboth h h' k').
    + injection Heq as -> ->. now apply (Hnof h').
  - apply NoDup_snoc_fresh; [exact Hndt|apply Hnot].
  - exact Hndf.
Qed.

Lemma requestFrame_ok (k : nat) (p : Page) :
  pageOk p -> is_Some (loops p !! k) ->
  (forall h, (h, k) ∉ timeouts (window p)) ->
  (forall h, (h, k) ∉ frames (window p)) ->
  pageOk (mkPage (requestAnimationFrame k (window p)).2
            (alter (fun l => mkLoop (timerId l) (requestAnimationFrame k (window p)).1
                               (callbacks l)) k (loops p))).
Proof.
  intros (Ht & Hf & Hboth & Hndt & Hndf) [l Hl] Hnot Hnof.
  unfold requestAnimationFrame. simpl. repeat split; simpl.
  - now apply tasksNamed_alter_same.
  - intros h k' [Hin|Heq%list_elem_of_singleton]%elem_of_app.
    + now apply (tasksNamed_alter_other rafId _ k _ _ Hnof Hf).
    + injection Heq as -> ->. eexists.
      rewrite list_lookup_alter_eq, Hl. split; reflexivity.
  - intros h h' k' Hin [Hin'|Heq%list_elem_of_singleton]%elem_of_app.
    + now apply (Hboth h h' k').
    + injection Heq as -> ->. now apply (Hnot h).
  - exact Hndt.
  - apply NoDup_snoc_fresh; [exact Hndf|apply Hnof].
Qed.

Lemma runLoop_ok (p : Page) : pageOk p -> pageOk (runLoop p).2.
Proof.
  intros (Ht & Hf & Hboth & Hndt & Hndf). unfold runLoop. cbn [snd].
  assert (Hfresh : forall handleOf tasks h,
            tasksNamed handleOf tasks (loops p) -> (h, length (loops p)) ∉ tasks).
  { intros handleOf tasks h Hn Hin. destruct (Hn _ _ Hin) as (l & Hl & _).
    apply lookup_lt_Some in Hl. lia. }
  apply loop_ok; simpl.
  - repeat split; simpl; trivial; now apply tasksNamed_app.
  - rewrite lookup_app_r, Nat.sub_diag by lia. now eexists.
  - intros h. now apply (Hfresh timerId).
  - intros h. now apply (Hfresh rafId).
Qed.

Lemma stopLoop_ok (k : nat) (p : Page) : pageOk p -> pageOk (stopLoop k p).
Proof.
  intros (Ht & Hf & Hboth & Hndt & Hndf). unfold stopLoop.
  destruct (loops p !! k) as [l|]; [|now repeat split].
  repeat split; simpl.
  - now apply tasksNamed_filter.
  - now apply tasksNamed_filter.
  - intros h h' k' [_ Hin]%list_elem_of_filter [_ Hin']%list_elem_of_filter.
    now apply (Hboth h h' k').
  - now apply NoDup_filter.
  - now apply NoDup_filter.
Qed.

Lemma timeoutFires_ok (handle : Z) (throws : bool) (p : Page) :
  pageOk p -> pageOk (timeoutFires handle throws p).
Proof.
  intros Hp. unfold timeoutFires.
  destruct (taskOf handle (timeouts (window p))) as [k|] eqn:Htask; [|exact Hp].
  apply taskOf_Some in Htask.
  destruct Hp as (Ht & Hf & Hboth & Hndt & Hndf).
  destruct (Ht _ _ Htask) as (l & Hl & Hh).
  set (called := alter (fun l => mkLoop (timerId l) (rafId l) (S (callbacks l)))
                   k (loops p)).
  assert (Hcalled : pageOk (mkPage (clearTimeout handle (window p)) called)).
  { repeat split; simpl.
    - now apply tasksNamed_alter_same, tasksNamed_filter.
    - now apply tasksNamed_alter_same.
    - intros h h' k' [_ Hin]%list_elem_of_filter Hin'. now apply (Hboth h h' k').
    - now apply NoDup_filter.
    - exact Hndf. }
  destruct throws; [exact Hcalled|].
  apply (requestFrame_ok k (mkPage (clearTimeout handle (window p)) called) Hcalled).
  - simpl. unfold called. rewrite list_lookup_alter_eq, Hl. now eexists.
  - simpl. intros h. rewrite <- Hh. now apply (tasksNamed_removed timerId _ (loops p)).
  - simpl. intros h Hin. now apply (Hboth handle h k).
Qed.

Lemma frameFires_ok (handle : Z) (p : Page) :
  pageOk p -> pageOk (frameFires handle p).
Proof.
  intros Hp. unfold frameFires.
  destruct (taskOf handle (frames (window p))) as [k|] eqn:Htask; [|exact Hp].
  apply taskOf_Some in Htask.
  destruct Hp as (Ht & Hf & Hboth & Hndt & Hndf).
  destruct (Hf _ _ Htask) as (l & Hl & Hh).
  apply loop_ok; simpl.
  - repeat split; simpl; trivial.
    + now apply tasksNamed_filter.
    + intros h h' k' Hin [_ Hin']%list_elem_of_filter. now apply (Hboth h h' k').
    + now apply NoDup_filter.
  - exists l. exact Hl.
  - intros h Hin. now apply (Hboth h handle k).
  - intros h. rewrite <- Hh. now apply (tasksNamed_removed rafId _ (loops p)).
Qed.

(** ** Which tasks there are after a step, and which loops change *)

Local Abbreviation tasksIn p := (timeouts (window p) ++ frames (window p)).
Local Abbreviation idle k p := (forall h : Z, (h, k) ∉ tasksIn p).

Lemma timeoutFires_tasks (handle : Z) (throws : bool) (p : Page) (h : Z) (k : nat) :
  (h, k) ∈ tasksIn (timeoutFires handle throws p) ->
  exists h', (h', k) ∈ tasksIn p.
Proof.
  unfold timeoutFires.
  destruct (taskOf handle (timeouts (window p))) as [k'|] eqn:Htask; [|eauto].
  apply taskOf_Some in Htask.
  destruct throws; simpl.
  - rewrite !elem_of_app, list_elem_of_filter.
    intros [[_ Hin]|Hin]; exists h; rewrite elem_of_app; tauto.
  - rewrite !elem_of_app, list_elem_of_filter, list_elem_of_singleton.
    intros [[_ Hin]|[Hin|[= -> ->]]].
    + exists h. rewrite elem_of_app. tauto.
    + exists h. rewrite elem_of_app. tauto.
    + exists handle. rewrite elem_of_app. tauto.
Qed.

Lemma frameFires_tasks (handle : Z) (p : Page) (h : Z) (k : nat) :
  (h, k) ∈ tasksIn (frameFires handle p) ->
  exists h', (h', k) ∈ tasksIn p.
Proof.
  unfold frameFires.
  destruct (taskOf handle (frames (window p))) as [k'|] eqn:Htask; [|eauto].
  apply taskOf_Some in Htask. simpl.
  rewrite !elem_of_app, list_elem_of_filter, list_elem_of_singleton.
  intros [[Hin|[= -> ->]]|[_ Hin]].
  - exists h. rewrite elem_of_app. tauto.
  - exists handle. rewrite elem_of_app. tauto.
  - exists h. rewrite elem_of_app. tauto.
Qed.

Lemma stopLoop_tasks (d : nat) (p : Page) (h : Z) (k : nat) :
  (h, k) ∈ tasksIn (stopLoop d p) -> (h, k) ∈ tasksIn p.
Proof.
  unfold stopLoop. destruct (loops p !! d) as [l|]; [|trivial]. simpl.
  rewrite !elem_of_app, !list_elem_of_filter. tauto.
Qed.

Lemma runLoop_tasks (p : Page) (h : Z) (k : nat) :
  (h, k) ∈ tasksIn (runLoop p).2 -> (h, k) ∈ tasksIn p \/ k = length (loops p).
Proof.
  unfold runLoop. simpl.
  rewrite !elem_of_app, list_elem_of_singleton. intros [[Hin|[= -> ->]]|Hin]; tauto.
Qed.

Lemma timeoutFires_loops (handle : Z) (throws : bool) (p : Page) (k : nat) :
  idle k p -> loops (timeoutFires handle throws p) !! k = loops p !! k.
Proof.
  intros Hidle. unfold timeoutFires.
  destruct (taskOf handle (timeouts (window p))) as [k'|] eqn:Htask; [|reflexivity].
  apply taskOf_Some in Htask.
  assert (k' <> k).
  { intros ->. apply (Hidle handle). rewrite elem_of_app. now left. }
  destruct throws; simpl; now rewrite !list_lookup_alter_ne.
Qed.

Lemma frameFires_loops (handle : Z) (p : Page) (k : nat) :
  idle k p -> loops (frameFires handle p) !! k = loops p !! k.
Proof.
  intros Hidle. unfold frameFires.
  destruct (taskOf handle (frames (window p))) as [k'|] eqn:Htask; [|reflexivity].
  apply taskOf_Some in Htask.
  assert (k' <> k).
  { intros ->. apply (Hidle handle). rewrite elem_of_app. now right. }
  simpl. now rewrite list_lookup_alter_ne.
Qed.

Lemma stopLoop_loops (d : nat) (p : Page) : loops (stopLoop d p) = loops p.
Proof. unfold stopLoop. now destruct (loops p !! d). Qed.

Lemma runLoop_loops (p : Page) (k : nat) :
  (k < length (loops p))%nat -> loops (runLoop p).2 !! k = loops p !! k.
Proof.
  intros Hk. unfold runLoop. simpl.
  rewrite list_lookup_alter_ne by lia. now rewrite lookup_app_l.
Qed.

(** The stop functions of the disposers, called in turn. *)
Local Abbreviation disposeAll ds p := (fold_left (fun p d => stopLoop d p) ds p).

Lemma disposeAll_ok (ds : list nat) (p : Page) : pageOk p -> pageOk (disposeAll ds p).
Proof.
  revert p. induction ds as [|d ds IH]; intros p Hp; [exact Hp|].
  simpl. apply IH. now apply stopLoop_ok.
Qed.

Lemma disposeAll_loops (ds : list nat) (p : Page) : loops (disposeAll ds p) = loops p.
Proof.
  revert p. induction ds as [|d ds IH]; intros p; [reflexivity|].
  simpl. now rewrite IH, stopLoop_loops.
Qed.

Lemma disposeAll_tasks (ds : list nat) (p : Page) (h : Z) (k : nat) :
  (h, k) ∈ tasksIn (disposeAll ds p) -> (h, k) ∈ tasksIn p.
Proof.
  revert p. induction ds as [|d ds IH]; intros p; [trivial|].
  simpl. intros Hin. apply (stopLoop_tasks d). now apply IH.
Qed.

(** The stop function of a loop leaves no task of the loop. *)
Lemma stopLoop_idle (d : nat) (p : Page) : pageOk p -> idle d (stopLoop d p).
Proof.
  intros (Ht & Hf & _) h. unfold stopLoop.
  destruct (loops p !! d) as [l|] eqn:Hl.
  - simpl. rewrite elem_of_app. intros [Hin|Hin].
    + now apply (tasksNamed_removed timerId _ _ _ _ Ht Hl h).
    + now apply (tasksNamed_removed rafId _ _ _ _ Hf Hl h).
  - rewrite elem_of_app. intros [Hin|Hin].
    + destruct (Ht _ _ Hin) as (l & Hl' & _). congruence.
    + destruct (Hf _ _ Hin) as (l & Hl' & _). congruence.
Qed.

Lemma disposeAll_idle (ds : list nat) (p : Page) (k : nat) :
  pageOk p -> k ∈ ds -> idle k (disposeAll ds p).
Proof.
  revert p. induction ds as [|d ds IH]; intros p Hp Hin; [now apply elem_of_nil in Hin|].
  simpl. apply elem_of_cons in Hin as [->|Hin].
  - intros h Hh. apply disposeAll_tasks in Hh. now apply (stopLoop_idle d p Hp h).
  - apply IH; [now apply stopLoop_ok|exact Hin].
Qed.

(** ** The streamer keeps its own *)

Lemma newStreamer_ok : streamerOk newStreamer.
Proof.
  repeat split; simpl; try discriminate; try apply NoDup_nil_2.
  - intros h k Hin. now apply elem_of_nil in Hin.
  - intros h k Hin. now apply elem_of_nil in Hin.
  - intros h h' k Hin. now apply elem_of_nil in Hin.
  - intros h k Hin. now apply elem_of_nil in Hin.
Qed.

Lemma streamerStep_ok (s : Streamer) (e : StreamerEvent) :
  streamerOk s -> streamerOk (streamerStep s e).
Proof.
  intros Hok. pose proof Hok as (Hp & Hd & Hm & Hj). destruct e; simpl.
  - unfold start. destruct (isStarted s) eqn:Hs; [exact Hok|].
    split; [exact Hp|]. split; [exact Hd|]. now split.
  - unfold stop. destruct (isStarted s) eqn:Hs; [|exact Hok]. simpl.
    split; [now apply disposeAll_ok|]. split; [|split; [split|]; discriminate].
    simpl. intros h k Hin. exfalso.
    assert (Hk : k ∈ disposers s)
      by (apply (Hd h); now apply disposeAll_tasks in Hin).
    exact (disposeAll_idle (disposers s) (page s) k Hp Hk h Hin).
  - unfold createCanvasStream.
    destruct canvasCtx; [|exact Hok]. destruct canvasStream; [|exact Hok].
    simpl. split; [exact (runLoop_ok (page s) Hp)|]. split; [|now split].
    simpl. intros h k' Hin. apply elem_of_app.
    destruct (runLoop_tasks (page s) h k' Hin) as [Hold| ->];
      [left; now apply (Hd h)|right; now left].
  - split; [now apply timeoutFires_ok|]. split; [|now split].
    simpl. intros h k Hin. apply timeoutFires_tasks in Hin as [h' Hin].
    now apply (Hd h').
  - split; [now apply frameFires_ok|]. split; [|now split].
    simpl. intros h k Hin. apply frameFires_tasks in Hin as [h' Hin].
    now apply (Hd h').
Qed.

Lemma streamerSteps_ok (events : list StreamerEvent) (s : Streamer) :
  streamerOk s -> streamerOk (fold_left streamerStep events s).
Proof.
  revert s. induction events as [|e events IH]; intros s Hs; [exact Hs|].
  simpl. apply IH. now apply streamerStep_ok.
Qed.

Lemma streamerAfter_ok (events : list StreamerEvent) :
  streamerOk (streamerAfter events).
Proof. apply streamerSteps_ok, newStreamer_ok. Qed.

(** A loop without a task stays as it is, whatever happens. *)
Lemma idle_step (s : Streamer) (e : StreamerEvent) (k : nat) :
  idle k (page s) -> is_Some (loops (page s) !! k) ->
  idle k (page (streamerStep s e)) /\
  loops (page (streamerStep s e)) !! k = loops (page s) !! k.
Proof.
  intros Hidle Hsome. destruct e; simpl.
  - unfold start. now destruct (isStarted s).
  - unfold stop. destruct (isStarted s); simpl; [|now split]. split.
    + intros h Hin. apply disposeAll_tasks in Hin. now apply (Hidle h).
    + now rewrite disposeAll_loops.
  - unfold createCanvasStream.
    destruct canvasCtx; [|now split]. destruct canvasStream; [|now split]. simpl.
    apply lookup_lt_is_Some in Hsome.
    split; [|exact (runLoop_loops (page s) k Hsome)].
    intros h Hin. destruct (runLoop_tasks (page s) h k Hin) as [Hold|Hnew]; [|lia].
    now apply (Hidle h).
  - split; [|now apply timeoutFires_loops].
    intros h Hin. apply timeoutFires_tasks in Hin as [h' Hin]. now apply (Hidle h').
  - split; [|now apply frameFires_loops].
    intros h Hin. apply frameFires_tasks in Hin as [h' Hin]. now apply (Hidle h').
Qed.

Lemma idle_forever (later : list StreamerEvent) (s : Streamer) (k : nat) :
  idle k (page s) -> is_Some (loops (page s) !! k) ->
  loops (page (fold_left streamerStep later s)) !! k = loops (page s) !! k.
Proof.
  revert s. induction later as [|e later IH]; intros s Hidle Hsome; [reflexivity|].
  simpl. destruct (idle_step s e k Hidle Hsome) as [Hidle' Hloops].
  rewrite IH; [exact Hloops|exact Hidle'|now rewrite Hloops].
Qed.

Lemma no_elements (tasks : list (Z * nat)) :
  (forall h k, (h, k) ∉ tasks) -> tasks = [].
Proof.
  destruct tasks as [|[h k] tasks]; [reflexivity|]. intros H.
  exfalso. apply (H h k). now left.
Qed.

(** X26. [navigator.mediaDevices.getUserMedia] is the modified function
    exactly while the streamer is started, after every sequence of calls
    and timer tasks: [stop] always puts the original back, and a second
    [start] changes nothing. *)
Theorem streamer_userMedia (events : list StreamerEvent) :
  (isStarted (streamerAfter events) = true
   <-> userMedia (streamerAfter events) = ModifiedUserMedia) /\
  (isStarted (streamerAfter events) = false
   <-> userMedia (streamerAfter events) = OriginalUserMedia) /\
  start (start (streamerAfter events)) = start (streamerAfter events) /\
  stop (stop (streamerAfter events)) = stop (streamerAfter events).
Proof.
  destruct (streamerAfter_ok events) as (_ & _ & Hm & _).
  split; [exact Hm|]. split; [|split].
  - destruct (isStarted (streamerAfter events)), (userMedia (streamerAfter events));
      split; try discriminate; trivial; intros _.
    + destruct Hm as [Hm _]. specialize (Hm eq_refl). discriminate.
    + destruct Hm as [_ Hm]. specialize (Hm eq_refl). discriminate.
  - unfold start. destruct (isStarted (streamerAfter events)) eqn:Hs; simpl;
      now rewrite ?Hs.
  - unfold stop. destruct (isStarted (streamerAfter events)) eqn:Hs; simpl;
      now rewrite ?Hs.
Qed.

(** X27. [stop ()] on a started streamer ends every frame loop: no
    timeout and no animation frame is pending after it, no disposer is
    left, and the callback of none of the loops is ever called again,
    whatever is called and whatever task runs later. *)
Theorem stop_stops_all (events : list StreamerEvent) :
  isStarted (streamerAfter events) = true ->
  timeouts (window (page (stop (streamerAfter events)))) = [] /\
  frames (window (page (stop (streamerAfter events)))) = [] /\
  disposers (stop (streamerAfter events)) = [] /\
  forall (later : list StreamerEvent) (k : nat) (l : Loop),
    loops (page (stop (streamerAfter events))) !! k = Some l ->
    loops (page (fold_left streamerStep later (stop (streamerAfter events)))) !! k
    = Some l.
Proof.
  intros Hstarted.
  pose proof (streamerAfter_ok events) as Hok.
  pose proof (streamerStep_ok _ Stop Hok) as Hok'. simpl in Hok'.
  destruct Hok as (Hp & Hd & _).
  assert (Hidle : forall k, idle k (page (stop (streamerAfter events)))).
  { intros k h Hin. unfold stop in Hin. rewrite Hstarted in Hin. simpl in Hin.
    assert (Hk : k ∈ disposers (streamerAfter events))
      by (apply (Hd h); now apply disposeAll_tasks in Hin).
    exact (disposeAll_idle _ _ k Hp Hk h Hin). }
  split; [|split; [|split]].
  - apply no_elements. intros h k Hin. apply (Hidle k h), elem_of_app. now left.
  - apply no_elements. intros h k Hin. apply (Hidle k h), elem_of_app. now right.
  - unfold stop. now rewrite Hstarted.
  - intros later k l Hl. rewrite idle_forever; [exact Hl|apply Hidle|now exists l].
Qed.

Lemma stop_stops_all_witness :
  isStarted (streamerAfter [Start; CreateCanvasStream true true;
                            TimeoutFires 1 false]) = true /\
  frames (window (page (streamerAfter [Start; CreateCanvasStream true true;
                                       TimeoutFires 1 false]))) = [(1, 0%nat)] /\
  timeouts (window (page (stop (streamerAfter
    [Start; CreateCanvasStream true true; TimeoutFires 1 false])))) = [] /\
  frames (window (page (stop (streamerAfter
    [Start; CreateCanvasStream true true; TimeoutFires 1 false])))) = [].
Proof.
  split; [reflexivity|]. split; [reflexivity|].
  pose proof (stop_stops_all [Start; CreateCanvasStream true true;
                              TimeoutFires 1 false] eq_refl) as (Ht & Hf & _).
  split; [exact Ht|exact Hf].
Defined.

Lemma one_of_each (tasks : list (Z * nat)) (k : nat) (task : Z * nat) :
  NoDup tasks ->
  (forall t, t ∈ tasks -> t.2 = k -> t = task) ->
  (length (filter (fun t => t.2 = k) tasks) <= 1)%nat.
Proof.
  intros Hnd Hall.
  assert (Hnd' : NoDup (filter (fun t => t.2 = k) tasks)) by now apply NoDup_filter.
  assert (Hall' : forall t, t ∈ filter (fun t => t.2 = k) tasks -> t = task).
  { intros t [Hk Hin]%list_elem_of_filter. now apply Hall. }
  destruct (filter (fun t => t.2 = k) tasks) as [|a [|b rest]]; simpl; try lia.
  exfalso. apply NoDup_cons in Hnd' as [Hnotin _]. apply Hnotin.
  rewrite (Hall' a), (Hall' b); [now left| |]; rewrite !elem_of_cons; tauto.
Qed.

(** X28. A loop never has more than one task pending, a timeout or an
    animation frame: the two take turns, so the callback of a loop runs at
    most once between two animation frames. *)
Theorem loop_one_task (events : list StreamerEvent) (k : nat) :
  (length (tasksOfLoop k (page (streamerAfter events))) <= 1)%nat.
Proof.
  destruct (streamerAfter_ok events) as ((Ht & Hf & Hboth & Hndt & Hndf) & _).
  generalize dependent (page (streamerAfter events)). intros p Ht Hf Hboth Hndt Hndf.
  unfold tasksOfLoop. rewrite length_app.
  destruct (loops p !! k) as [l|] eqn:Hl.
  - pose proof (one_of_each (timeouts (window p)) k (timerId l, k) Hndt) as Hone.
    pose proof (one_of_each (frames (window p)) k (rafId l, k) Hndf) as Hone'.
    assert (H1 : forall t, t ∈ timeouts (window p) -> t.2 = k -> t = (timerId l, k)).
    { intros [h k'] Hin Hk. simpl in Hk. subst k'.
      destruct (Ht _ _ Hin) as (l' & Hl' & <-). congruence. }
    assert (H2 : forall t, t ∈ frames (window p) -> t.2 = k -> t = (rafId l, k)).
    { intros [h k'] Hin Hk. simpl in Hk. subst k'.
      destruct (Hf _ _ Hin) as (l' & Hl' & <-). congruence. }
    specialize (Hone H1). specialize (Hone' H2).
    destruct (filter (fun t => t.2 = k) (timeouts (window p))) as [|[h1 k1] r1] eqn:E1;
      [simpl; lia|].
    destruct (filter (fun t => t.2 = k) (frames (window p))) as [|[h2 k2] r2] eqn:E2;
      [simpl in *; lia|].
    exfalso.
    assert (Hin1 : (h1, k1) ∈ filter (fun t => t.2 = k) (timeouts (window p)))
      by (rewrite E1; now left).
    assert (Hin2 : (h2, k2) ∈ filter (fun t => t.2 = k) (frames (window p)))
      by (rewrite E2; now left).
    apply list_elem_of_filter in Hin1 as [Hk1 Hin1].
    apply list_elem_of_filter in Hin2 as [Hk2 Hin2].
    simpl in Hk1, Hk2. subst k1 k2. exact (Hboth _ _ _ Hin1 Hin2).
  - assert (E1 : filter (fun t => t.2 = k) (timeouts (window p)) = []).
    { apply no_elements. intros h k' [Hk Hin]%list_elem_of_filter. simpl in Hk. subst k'.
      destruct (Ht _ _ Hin) as (l & Hl' & _). congruence. }
    assert (E2 : filter (fun t => t.2 = k) (frames (window p)) = []).
    { apply no_elements. intros h k' [Hk Hin]%list_elem_of_filter. simpl in Hk. subst k'.
      destruct (Hf _ _ Hin) as (l & Hl' & _). congruence. }
    rewrite E1, E2. simpl. lia.
Qed.

(** X29. A callback that throws ends its loop: the timeout has run, no
    animation frame is requested, and the callback of that loop is never
    called again, whatever happens later.  [#createCanvasStream] logs the
    exception of [#updateCanvas] and throws it again, so an exception while
    drawing freezes the stream for good. *)
Theorem callback_throw_ends_loop (events : list StreamerEvent) (handle : Z) (k : nat) :
  taskOf handle (timeouts (window (page (streamerAfter events)))) = Some k ->
  tasksOfLoop k (page (streamerStep (streamerAfter events) (TimeoutFires handle true)))
    = [] /\
  (exists l,
     loops (page (streamerAfter events)) !! k = Some l /\
     forall later : list StreamerEvent,
       loops (page (fold_left streamerStep later
                      (streamerStep (streamerAfter events) (TimeoutFires handle true))))
         !! k
       = Some (mkLoop (timerId l) (rafId l) (S (callbacks l)))).
Proof.
  intros Htask.
  destruct (streamerAfter_ok events) as ((Ht & Hf & Hboth & Hndt & Hndf) & _).
  generalize dependent (streamerAfter events). intros s Htask Ht Hf Hboth Hndt Hndf.
  apply taskOf_Some in Htask as Hin.
  destruct (Ht _ _ Hin) as (l & Hl & Hh).
  assert (Hidle : idle k (page (streamerStep s (TimeoutFires handle true)))).
  { intros h. simpl. unfold timeoutFires. rewrite Htask. simpl.
    rewrite elem_of_app. intros [Hin'|Hin'].
    - rewrite <- Hh in Hin'.
      now apply (tasksNamed_removed timerId _ _ _ _ Ht Hl h).
    - exact (Hboth _ _ _ Hin Hin'). }
  assert (Hloop : loops (page (streamerStep s (TimeoutFires handle true))) !! k
                  = Some (mkLoop (timerId l) (rafId l) (S (callbacks l)))).
  { simpl. unfold timeoutFires. rewrite Htask. simpl.
    now rewrite list_lookup_alter_eq, Hl. }
  split.
  - unfold tasksOfLoop.
    assert (E : forall tasks : list (Z * nat),
              (forall h, (h, k) ∉ tasks) -> filter (fun t => t.2 = k) tasks = []).
    { intros tasks Hnone. apply no_elements.
      intros h k' [Hk Hin']%list_elem_of_filter. simpl in Hk. subst k'.
      now apply (Hnone h). }
    rewrite !E; [reflexivity| |]; intros h Hin'; apply (Hidle h), elem_of_app; tauto.
  - exists l. split; [exact Hl|]. intros later.
    rewrite idle_forever; [exact Hloop|exact Hidle|now rewrite Hloop].
Qed.

Lemma callback_throw_ends_loop_witness :
  taskOf 1 (timeouts (window (page (streamerAfter
    [Start; CreateCanvasStream true true])))) = Some 0%nat /\
  tasksOfLoop 0 (page (streamerStep
    (streamerAfter [Start; CreateCanvasStream true true]) (TimeoutFires 1 true))) = [].
Proof.
  split; [reflexivity|].
  exact (proj1 (callback_throw_ends_loop [Start; CreateCanvasStream true true] 1 0
                  eq_refl)).
Defined.
